(** * Website Blog Editor: document-to-Markdown pipeline and image codec

    A shallow embedding of the pure parts of [js/pdf-converter.js],
    [js/export.js] (DOCX normaliser) and [js/editor.js] (image
    collapse/restore codec), followed by the properties established
    about them.

    Conventions.
    - A JavaScript string is a sequence of UTF-16 code units: [str] is
      [list N].  The regular expressions of the sources carry no [u]
      flag, so they also work on code units.
    - A JavaScript number is a double.  A finite double is modelled by
      its exact rational value ([Q]), and the result of an addition, a
      subtraction, a multiplication or a division is rounded to the
      nearest double, ties going to the even mantissa ([Double.b64]).
      The comparators handed to [sort] only have their sign read, and
      the rounded difference of two doubles has the sign of the exact
      one: they are written with the exact difference.  Font sizes, which
      the code rounds with [Math.round], are integers ([Z]).  Infinity and
      NaN have no counterpart: a result from 2^1024 on stays a rational
      of that size, which compares with a double as Infinity does.
    - A regular expression literal is a value of [regex]; [exec] is a
      backtracking matcher with greedy quantifiers and the priority
      order of ECMAScript, [replace_loop] is
      [String.prototype.replace] with the [g] flag and a callback.
    - Module-level mutable state of the editor ([imageStore],
      [imagesCollapsed], the textarea) is threaded explicitly. *)

From Stdlib Require Import NArith ZArith QArith Qround Qabs Qminmax Qpower Lia Lqa Bool List Ascii String.
From Stdlib Require Floats.
From stdpp Require Import base option list sorting gmap.
Import ListNotations.

Local Open Scope list_scope.

(** ** Strings as code units *)

Abbreviation str := (list N).

Module Js.

Local Open Scope N_scope.

Definition cu (a : ascii) : N := N_of_ascii a.

(** An ASCII literal as a JavaScript string. *)
Definition lit (s : string) : str := map cu (list_ascii_of_string s).

Definition NL : N := 10.
Definition SP : N := 32.
Definition TAB : N := 9.
Definition DQUOTE : N := 34.

Definition between (lo hi c : N) : bool := (lo <=? c) && (c <=? hi).

Definition is_digit (c : N) : bool := between 48 57 c.
Definition is_upper (c : N) : bool := between 65 90 c.
Definition is_lower (c : N) : bool := between 97 122 c.
Definition is_alpha (c : N) : bool := is_upper c || is_lower c.

(** [\w] = [[A-Za-z0-9_]]. *)
Definition is_word (c : N) : bool := is_alpha c || is_digit c || (c =? 95).

(** LineTerminator code points: LF, CR, LS, PS. *)
Definition is_line_terminator (c : N) : bool :=
  (c =? 10) || (c =? 13) || (c =? 8232) || (c =? 8233).

(** WhiteSpace and LineTerminator: what [\s] matches and what
    [String.prototype.trim] strips. *)
Definition is_space (c : N) : bool :=
  (c =? 9) || (c =? 11) || (c =? 12) || (c =? 32) || (c =? 160)
  || (c =? 5760) || between 8192 8202 c || (c =? 8239) || (c =? 8287)
  || (c =? 12288) || (c =? 65279) || is_line_terminator c.

(** [.] matches everything but a line terminator. *)
Definition is_dot (c : N) : bool := negb (is_line_terminator c).

Definition str_eqb (a b : str) : bool := bool_decide (a = b).

Fixpoint starts_with (p s : str) : bool :=
  match p, s with
  | [], _ => true
  | a :: p', b :: s' => (a =? b) && starts_with p' s'
  | _ :: _, [] => false
  end.

(** [s.includes(p)] *)
Fixpoint includes (p s : str) : bool :=
  starts_with p s ||
  match s with
  | [] => false
  | _ :: s' => includes p s'
  end.

Fixpoint trimStart (s : str) : str :=
  match s with
  | c :: s' => if is_space c then trimStart s' else s
  | [] => []
  end.

Definition trimEnd (s : str) : str := rev (trimStart (rev s)).

(** [s.trim()] *)
Definition trim (s : str) : str := trimEnd (trimStart s).

(** [s.split(sep)] for a one-unit separator: never the empty list. *)
Fixpoint split (sep : N) (s : str) : list str :=
  match s with
  | [] => [[]]
  | c :: s' =>
      if c =? sep then [] :: split sep s'
      else match split sep s' with
           | l :: ls => (c :: l) :: ls
           | [] => [[c]]
           end
  end.

(** [a.join(sep)] *)
Fixpoint join (sep : str) (ls : list str) : str :=
  match ls with
  | [] => []
  | [l] => l
  | l :: ls' => l ++ sep ++ join sep ls'
  end.

(** Truthiness of a string value: only the empty string is falsy. *)
Definition truthy (s : str) : bool :=
  match s with [] => false | _ :: _ => true end.

Definition digit_of (d : nat) : N := 48 + N.of_nat d.

Fixpoint decimal_fuel (fuel n : nat) (acc : str) : str :=
  match fuel with
  | O => acc
  | S fuel' =>
      let acc' := digit_of (Nat.modulo n 10) :: acc in
      match Nat.div n 10 with
      | O => acc'
      | q => decimal_fuel fuel' q acc'
      end
  end.

(** [String(n)] for a non-negative integer. *)
Definition decimal (n : nat) : str := decimal_fuel (S n) n [].

End Js.

(** ** Regular expressions *)

Module Regex.

(** The fragment of the ECMAScript pattern syntax used by the sources.
    A quantifier only ever applies to one character class there. *)
Inductive regex : Type :=
| Eps
| Cls (p : N -> bool)                         (* one unit of a class *)
| Lit (l : str)                               (* a literal run *)
| Rep (p : N -> bool) (lo : nat) (hi : option nat) (* greedy p{lo,hi} *)
| Cat (r1 r2 : regex)
| Alt (r1 r2 : regex)
| Grp (r : regex).                            (* capturing group *)

Definition Chr (c : N) : regex := Cls (N.eqb c).
Definition Star (p : N -> bool) : regex := Rep p 0 None.
Definition Plus (p : N -> bool) : regex := Rep p 1 None.

(** Result of a match: the text left after it and the captures, in the
    order in which the groups close (the patterns here nest no group, so
    this is the order of [$1], [$2], ...). *)
Definition result : Type := str * list str.

Definition room (hi : option nat) : bool :=
  match hi with Some O => false | _ => true end.

Definition dec (hi : option nat) : option nat :=
  match hi with Some n => Some (Nat.pred n) | None => None end.

(** Greedy repetition: take one more unit whenever possible, and come
    back to the current position when the continuation fails later. *)
Fixpoint greedy (p : N -> bool) (lo : nat) (hi : option nat)
    (k : str -> option result) (s : str) : option result :=
  let stop := match lo with O => k s | S _ => None end in
  match s with
  | c :: s' =>
      if p c && room hi then
        match greedy p (Nat.pred lo) (dec hi) k s' with
        | Some r => Some r
        | None => stop
        end
      else stop
  | [] => stop
  end.

Fixpoint run (r : regex) (s : str) (caps : list str)
    (k : str -> list str -> option result) : option result :=
  match r with
  | Eps => k s caps
  | Cls p =>
      match s with
      | c :: s' => if p c then k s' caps else None
      | [] => None
      end
  | Lit l => if Js.starts_with l s then k (drop (length l) s) caps else None
  | Rep p lo hi => greedy p lo hi (fun s' => k s' caps) s
  | Cat r1 r2 => run r1 s caps (fun s1 caps1 => run r2 s1 caps1 k)
  | Alt r1 r2 =>
      match run r1 s caps k with
      | Some x => Some x
      | None => run r2 s caps k
      end
  | Grp r1 =>
      run r1 s caps
        (fun s1 caps1 => k s1 (caps1 ++ [take (length s - length s1) s]))
  end.

(** A match attempt at the start of [s]. *)
Definition exec (r : regex) (s : str) : option result :=
  run r s [] (fun s' caps => Some (s', caps)).

(** [r.test(s)] for a pattern anchored with [^]. *)
Definition test (r : regex) (s : str) : bool :=
  match exec r s with Some _ => true | None => false end.

(** Does [r] match somewhere in [s]? *)
Fixpoint occurs (r : regex) (s : str) : bool :=
  test r s ||
  match s with
  | [] => false
  | _ :: s' => occurs r s'
  end.

(** [s.replace(/r/g, callback)], the callback threading a state [S]
    (the callbacks of the codec write to the store).  [skip] counts the
    units of the current match still to be passed over.  After an empty
    match the scan advances by one unit, as ECMAScript prescribes. *)
Fixpoint replace_loop {S : Type} (r : regex)
    (f : S -> str -> list str -> S * str)
    (skip : nat) (st : S) (s : str) : S * str :=
  match skip, s with
  | S n, _ :: s' => replace_loop r f n st s'
  | S n, [] => (st, [])
  | O, [] =>
      match exec r [] with
      | Some (_, caps) => f st [] caps
      | None => (st, [])
      end
  | O, c :: s' =>
      match exec r s with
      | Some (rest, caps) =>
          let m := take (length s - length rest) s in
          let '(st1, out) := f st m caps in
          let '(st2, tl) :=
            match length m with
            | O => let '(st2, tl) := replace_loop r f 0 st1 s' in (st2, c :: tl)
            | S n => replace_loop r f n st1 s'
            end in
          (st2, out ++ tl)
      | None =>
          let '(st1, tl) := replace_loop r f 0 st s' in (st1, c :: tl)
      end
  end.

(** [s.replace(/r/g, f)] with a pure callback or a replacement string. *)
Definition replace (r : regex) (f : str -> list str -> str) (s : str) : str :=
  snd (replace_loop r (fun (_ : unit) m caps => (tt, f m caps)) 0 tt s).

(** The [n]-th capture, [$n]. *)
Definition cap (n : nat) (caps : list str) : str :=
  nth (Nat.pred n) caps [].

End Regex.

(** ** Markdown post-formatter ([formatMarkdown], pdf-converter.js) *)

Module Formatter.
Import Js Regex.

(** [/\n{3,}/g] *)
Definition re_blank_lines : regex := Rep (N.eqb NL) 3 None.

(** [/(\w)-\n(\w)/g] *)
Definition re_broken_word : regex :=
  Cat (Grp (Cls is_word)) (Cat (Chr 45) (Cat (Chr NL) (Grp (Cls is_word)))).

(** [[ \t]] *)
Definition is_blank (c : N) : bool := N.eqb c SP || N.eqb c TAB.

(** [/[ \t]+/g] *)
Definition re_spacing : regex := Plus is_blank.

Definition formatMarkdown (text : str) : str :=
  let t1 := replace re_blank_lines (fun _ _ => [NL; NL]) text in
  let t2 := replace re_broken_word (fun _ caps => cap 1 caps ++ cap 2 caps) t1 in
  let t3 := replace re_spacing (fun _ _ => [SP]) t2 in
  trim (join [NL] (map trim (split NL t3))).

End Formatter.

(** ** Image collapse/restore codec and content accessor (editor.js) *)

Module Codec.
Import Js Regex.

(** The four code units that stand between the bracket and the word
    IMAGE in the placeholder, as the source file stores them (U+F8FF,
    U+00FC, U+00EC, U+2211). *)
Definition camera : str := [63743%N; 252%N; 236%N; 8721%N].

Definition placeholder_prefix : str :=
  lit "[" ++ camera ++ lit " IMAGE-COLLAPSED-".

(** The template literal of both collapse callbacks. *)
Definition placeholder (id : str) : str := placeholder_prefix ++ id ++ lit "]".

Definition RBRACKET : N := 93%N.
Definition not_chr (c : N) : N -> bool := fun x => negb (N.eqb x c).

(** The pattern [htmlImgPattern], with Q for the double quote and the
    group spaced out: [<p[^>]*><img[^>]*src=Q( data:image[^Q]* )Q[^>]*><\/p>],
    flag g. *)
Definition htmlImgPattern : regex :=
  Cat (Lit (lit "<p")) (Cat (Star (not_chr 62%N)) (Cat (Lit (lit "><img"))
  (Cat (Star (not_chr 62%N)) (Cat (Lit (lit "src=")) (Cat (Chr DQUOTE)
  (Cat (Grp (Cat (Lit (lit "data:image")) (Star (not_chr DQUOTE))))
  (Cat (Chr DQUOTE) (Cat (Star (not_chr 62%N)) (Lit (lit "></p>")))))))))).

(** The pattern [mdImgPattern], groups spaced out:
    [!\[( [^\]]* )\]\(( data:image[^)]+ )\)], flag g. *)
Definition mdImgPattern : regex :=
  Cat (Lit (lit "![")) (Cat (Grp (Star (not_chr RBRACKET)))
  (Cat (Lit (lit "](")) (Cat (Grp (Cat (Lit (lit "data:image")) (Plus (not_chr 41%N))))
  (Chr 41%N)))).

(** The pattern of [restoreImages]: the escaped prefix, then the group
    [( [^\]]+ )] and [\]]; flag g. *)
Definition placeholderPattern : regex :=
  Cat (Lit placeholder_prefix) (Cat (Grp (Plus (not_chr RBRACKET))) (Chr RBRACKET)).

(** Property names that the object literal [{}] inherits from
    [Object.prototype]; a property read on [imageStore] finds them when
    the store has no own property of that name. *)
Definition inherited_names : list str :=
  map lit ["constructor"; "__defineGetter__"; "__defineSetter__";
           "hasOwnProperty"; "__lookupGetter__"; "__lookupSetter__";
           "isPrototypeOf"; "propertyIsEnumerable"; "toString"; "valueOf";
           "__proto__"; "toLocaleString"]%string.

(** What [String(v)] gives for the inherited value: the prototype object
    itself for [__proto__], a native function otherwise (rendered as V8
    does; the standard leaves the layout of the text to the engine). *)
Definition inherited_text (id : str) : str :=
  if str_eqb id (lit "__proto__") then lit "[object Object]"
  else lit "function " ++ (if str_eqb id (lit "constructor") then lit "Object" else id)
       ++ lit "() { [native code] }".

(** [imageStore[id] || match], converted to the string that the replace
    callback's result becomes. *)
Definition lookup_or (store : gmap str str) (id fallback : str) : str :=
  match store !! id with
  | Some v => if truthy v then v else fallback
  | None => if bool_decide (id ∈ inherited_names) then inherited_text id else fallback
  end.

(** [restoreImages]; the store is the module variable [imageStore]. *)
Definition restoreImages (store : gmap str str) (content : str) : str :=
  replace placeholderPattern (fun m caps => lookup_or store (cap 1 caps) m) content.

(** The part of the editor module's state that the codec reads and
    writes.  [draws] counts the calls to [Math.random] made so far. *)
Record editor : Type := Editor {
  textarea : option str;          (* editorTextarea and its value *)
  imagesCollapsed : bool;
  imageStore : gmap str str;
  draws : nat
}.

Section WithRandom.

(** [random n] is the text that the [n]-th evaluation of
    [Math.random().toString(36).substr(2, 9)] yields. *)
Variable random : nat -> str.

(** The callback shared by both [replace] calls of [collapseImages]. *)
Definition collapse_match (st : gmap str str * nat) (m : str) (caps : list str)
    : (gmap str str * nat) * str :=
  let '(store, n) := st in
  let id := lit "img-" ++ random n in
  ((<[id := m]> store, S n), placeholder id).

Definition collapseImages (st : gmap str str * nat) (content : str)
    : (gmap str str * nat) * str :=
  let '(st1, result1) := replace_loop htmlImgPattern collapse_match 0 st content in
  replace_loop mdImgPattern collapse_match 0 st1 result1.

Definition toggleImageCollapse (ed : editor) : editor :=
  match textarea ed with
  | None => ed
  | Some currentContent =>
      if imagesCollapsed ed then
        Editor (Some (restoreImages (imageStore ed) currentContent)) false
               (imageStore ed) (draws ed)
      else
        let '((store, n), collapsed) := collapseImages (∅, draws ed) currentContent in
        Editor (Some collapsed) true store n
  end.

End WithRandom.

Definition setContent (content : str) (ed : editor) : editor :=
  match textarea ed with
  | None => ed
  | Some _ => Editor (Some content) false ∅ (draws ed)
  end.

(** Typing, pasting, undo and file drop assign the textarea's value and
    touch nothing else. *)
Definition input (value : str) (ed : editor) : editor :=
  match textarea ed with
  | None => ed
  | Some _ => Editor (Some value) (imagesCollapsed ed) (imageStore ed) (draws ed)
  end.

(** The [getContent] of the public API. *)
Definition getContent (ed : editor) : str :=
  match textarea ed with
  | None => []
  | Some currentContent =>
      if imagesCollapsed ed then restoreImages (imageStore ed) currentContent
      else currentContent
  end.

(** [downloadMarkdown] (export.js): the file's content. *)
Definition downloadMarkdown (frontmatter : str) (ed : editor) : str :=
  frontmatter ++ getContent ed.

(** [generateHtml] (export.js): [marked.parse] and the page template are
    collaborators; the template places the rendered content between a
    head and a tail. *)
Definition generateHtml (marked_parse : str -> str) (head tail : str)
    (ed : editor) : str :=
  head ++ marked_parse (getContent ed) ++ tail.

End Codec.

(** ** Stable sorting, as [Array.prototype.sort] with a comparator *)

Module Sorting.

Section Sort.
Context {A : Type}.

(** [cmp a b] is the number the comparator callback returns; [a] may
    stay in front of [b] when it is not positive. *)
Variable cmp : A -> A -> Q.

Local Open Scope Q_scope.

Fixpoint insert_sorted (a : A) (l : list A) : list A :=
  match l with
  | [] => [a]
  | b :: l' => if Qle_bool (cmp a b) 0 then a :: l else b :: insert_sorted a l'
  end.

(** The sort of ECMAScript is stable; a stable sort of a list is
    determined by the comparator, and straight insertion from the right
    computes it. *)
Fixpoint sort (l : list A) : list A :=
  match l with
  | [] => []
  | a :: l' => insert_sorted a (sort l')
  end.

End Sort.

End Sorting.

(** ** Numbers: arithmetic in binary64 *)

Module Double.

Local Open Scope Q_scope.

(** The binade of a positive number: the integer [e] with
    [2^e <= q < 2^(e+1)].  The difference of the two logarithms is [e]
    or one more. *)
Definition ilog2 (q : Q) : Z :=
  let k := (Z.log2 (Qnum q) - Z.log2 (Zpos (Qden q)))%Z in
  if Qle_bool (2 ^ k) q then k else (k - 1)%Z.

(** The exponent of the last place of the doubles of the size of [q]:
    52 places below the leading one, and [-1074] in the subnormal
    range. *)
Definition last_place (q : Q) : Z := Z.max (ilog2 (Qabs q) - 52) (-1074).

(** The nearest integer, the even one of the two when [q] lies half way. *)
Definition nearest_even (q : Q) : Z :=
  let f := Qfloor q in
  match Qcompare (q - inject_Z f) (1 # 2) with
  | Lt => f
  | Gt => (f + 1)%Z
  | Eq => if Z.even f then f else (f + 1)%Z
  end.

(** The double nearest to [q] (round to nearest, ties to even), in
    lowest terms. *)
Definition b64 (q : Q) : Q :=
  if Qeq_bool q 0 then 0
  else let u := 2 ^ last_place q in Qred (inject_Z (nearest_even (q / u)) * u).

(** The operators [+], [-], [*] and [/] on numbers. *)
Definition fadd (a b : Q) : Q := b64 (a + b).
Definition fsub (a b : Q) : Q := b64 (a - b).
Definition fmul (a b : Q) : Q := b64 (a * b).
Definition fdiv (a b : Q) : Q := b64 (a / b).

(** The literal [0.2], which is no double: the double nearest to it.
    The other literals of the sources ([0.5], [1.5], the integers) are
    doubles. *)
Definition lit_0_2 : Q := b64 (2 # 10).

End Double.

(** ** PDF text-block reconstruction (pdf-converter.js) *)

Module PdfText.
Import Js Regex Double.

Local Open Scope Q_scope.

(** A 2x3 affine matrix [[a, b, c, d, e, f]]; [m0] .. [m5] are the
    array's slots. *)
Record matrix : Type := Matrix { m0 : Q; m1 : Q; m2 : Q; m3 : Q; m4 : Q; m5 : Q }.

(** A text item of pdf.js ([textContent.items]); an absent [fontName] is
    the empty string, which is what [item.fontName || ''] makes of it. *)
Record glyphRun : Type := GlyphRun {
  run_str : str;
  run_transform : matrix;
  run_height : Q;
  run_fontName : str
}.

(** The object pushed on [currentBlock.items]. *)
Record textItem : Type := TextItem {
  str_ : str;
  x : Q;
  y : Q;
  fontSize : Z;
  fontName : str
}.

(** A finished block.  [minY] and [maxY] start at plus and minus
    infinity ([None]) and are finite once the block holds an item. *)
Record block : Type := Block {
  items : list textItem;
  block_y : option Q;
  minY : option Q;
  maxY : option Q;
  text : str
}.

(** [Math.round] *)
Definition round (q : Q) : Z := Qfloor (q + (1 # 2)).

Definition qgt (a b : Q) : bool := negb (Qle_bool a b).

Definition min_with (m : option Q) (v : Q) : option Q :=
  match m with None => Some v | Some w => Some (Qmin w v) end.
Definition max_with (m : option Q) (v : Q) : option Q :=
  match m with None => Some v | Some w => Some (Qmax w v) end.

(** *** One line: gap reconstruction (step 3) *)

(** The loop that joins the runs of a sorted line; [i > 0] is [negb first]. *)
Fixpoint join_runs (first : bool) (lastEndX : Q) (l : list textItem) : str :=
  match l with
  | [] => []
  | item :: l' =>
      let avgCharWidth := fmul (inject_Z (fontSize item)) (1 # 2) in
      let gap := fsub (x item) lastEndX in
      let space := if negb first && qgt gap (fmul avgCharWidth lit_0_2) then [SP] else [] in
      space ++ str_ item ++
      join_runs false
        (fadd (x item) (fmul (inject_Z (Z.of_nat (length (str_ item)))) avgCharWidth)) l'
  end.

Definition sort_by_x (lineItems : list textItem) : list textItem :=
  Sorting.sort (fun a b => x a - x b) lineItems.

(** The text of a line before the typographic repairs: sort by X, join
    with reconstructed gaps, trim.  [lineItems] is the line as already
    sorted. *)
Definition line_text (lineItems : list textItem) : str :=
  match lineItems with
  | [] => []
  | first :: _ => trim (join_runs true (x first) lineItems)
  end.

(** *** Typographic repairs (step 4) *)

Definition g1_sp_g2 : str -> list str -> str :=
  fun _ caps => cap 1 caps ++ [SP] ++ cap 2 caps.
Definition after (p : str) : str -> list str -> str :=
  fun _ caps => p ++ [SP] ++ cap 1 caps.

Definition fix_spacing (text : str) : str :=
  let text := replace (Cat (Grp (Cls is_lower)) (Grp (Cls is_upper))) g1_sp_g2 text in
  let text := replace (Cat (Chr 46) (Grp (Cls is_alpha))) (after (lit ".")) text in
  let text := replace (Cat (Chr 58) (Grp (Cls is_alpha))) (after (lit ":")) text in
  let text := replace (Cat (Chr 44) (Grp (Cls is_alpha))) (after (lit ",")) text in
  let text := replace (Cat (Chr 59) (Grp (Cls is_alpha))) (after (lit ";")) text in
  let text := replace (Cat (Grp (Cls is_digit)) (Grp (Cls is_upper))) g1_sp_g2 text in
  let text := replace (Cat (Grp (Cls is_lower)) (Grp (Cls is_digit))) g1_sp_g2 text in
  let text := replace (Cat (Grp (Cls is_lower)) (Grp (Cat (Cls is_upper) (Cls is_lower))))
                g1_sp_g2 text in
  let text := replace (Cat (Chr 41) (Grp (Cls is_upper))) (after (lit ")")) text in
  replace (Cat (Chr 93) (Grp (Cls is_upper))) (after (lit "]")) text.

(** *** Structural classification (step 5) *)

(** ASCII lower-casing.  No other code unit lower-cases to one of the
    letters of the word bold, so [includes] sees the same answer as
    after [toLowerCase]. *)
Definition lower (c : N) : N := if is_upper c then (c + 32)%N else c.

Definition is_bold_font (name : str) : bool :=
  truthy name && (includes (lit "bold") (map lower name) || includes (lit "Bold") name).

Definition dot_or_paren (c : N) : bool := N.eqb c 46 || N.eqb c 41.
Definition letter_i (c : N) : bool := N.eqb c 105 || N.eqb c 73.
Definition letter_v (c : N) : bool := N.eqb c 118 || N.eqb c 86.

(** The bullet class: U+2022 U+25CF U+25CB U+25E6 U+25AA U+25AB U+25BA
    U+25B8 and the hyphen. *)
Definition is_bullet (c : N) : bool :=
  existsb (N.eqb c) [8226; 9679; 9675; 9702; 9642; 9643; 9658; 9656; 45]%N.

(** The alternation [i{1,3}|iv|v|vi{0,3}] under the flag i. *)
Definition roman : regex :=
  Alt (Rep letter_i 1 (Some 3%nat))
 (Alt (Cat (Cls letter_i) (Cls letter_v))
 (Alt (Cls letter_v)
      (Cat (Cls letter_v) (Rep letter_i 0 (Some 3%nat))))).

Definition re_numbered_test : regex :=
  Cat (Plus is_digit) (Cat (Cls dot_or_paren) (Plus is_space)).
Definition re_numbered : regex :=
  Cat (Grp (Plus is_digit)) (Cat (Cls dot_or_paren) (Cat (Plus is_space) (Grp (Star is_dot)))).
Definition re_merged_test : regex :=
  Cat (Plus is_digit) (Cat (Cls dot_or_paren) (Grp (Cls is_upper))).
Definition re_merged : regex :=
  Cat (Grp (Plus is_digit)) (Cat (Cls dot_or_paren) (Grp (Star is_dot))).
Definition re_lettered_test : regex :=
  Cat (Cls is_alpha) (Cat (Cls dot_or_paren) (Star is_space)).
Definition re_lettered : regex :=
  Cat (Grp (Cls is_alpha)) (Cat (Cls dot_or_paren) (Cat (Star is_space) (Grp (Star is_dot)))).
Definition re_roman_test : regex :=
  Cat (Grp roman) (Cat (Cls dot_or_paren) (Star is_space)).
Definition re_roman : regex :=
  Cat (Grp roman) (Cat (Cls dot_or_paren) (Cat (Star is_space) (Grp (Star is_dot)))).
Definition re_bullet : regex := Cat (Cls is_bullet) (Star is_space).
Definition re_digits_dot : regex := Cat (Plus is_digit) (Chr 46).

(** [s.match(r)] for an anchored pattern without the flag g: the
    captures, when it matches. *)
Definition match_ (r : regex) (s : str) : option (list str) :=
  match exec r s with Some (_, caps) => Some caps | None => None end.

(** [s.replace(r, '')] for an anchored pattern without the flag g. *)
Definition strip_prefix (r : regex) (s : str) : str :=
  match exec r s with Some (rest, _) => rest | None => s end.

(** [lineItems.reduce((sum, i) => sum + i.fontSize, 0)] *)
Definition sum_fontSize (l : list textItem) : Q :=
  fold_left (fun sum i => fadd sum (inject_Z (fontSize i))) l 0.

Definition indent_of (firstItemX : Q) : str :=
  if qgt firstItemX 100 then lit "        "
  else if qgt firstItemX 60 then lit "    "
  else [].

(** The list patterns, the bullet and the indentation: the part of the
    callback that follows the heading tests. *)
Definition classify_list (indentPrefix text : str) : str :=
  let numbered :=
    if test re_numbered_test text then
      match match_ re_numbered text with
      | Some caps => if (0 <? length (cap 2 caps))%nat
                     then Some (cap 1 caps ++ lit ". " ++ cap 2 caps) else None
      | None => None
      end
    else None in
  let merged :=
    if test re_merged_test text then
      match match_ re_merged text with
      | Some caps => if (0 <? length (cap 2 caps))%nat
                     then Some (cap 1 caps ++ lit ". " ++ cap 2 caps) else None
      | None => None
      end
    else None in
  let lettered :=
    if test re_lettered_test text then
      match match_ re_lettered text with
      | Some caps => Some (lit "    " ++ map lower (cap 1 caps) ++ lit ". " ++ cap 2 caps)
      | None => None
      end
    else None in
  let roman_item :=
    if test re_roman_test text then
      match match_ re_roman text with
      | Some caps => Some (lit "        " ++ map lower (cap 1 caps) ++ lit ". " ++ cap 2 caps)
      | None => None
      end
    else None in
  match numbered with Some r => r | None =>
  match merged with Some r => r | None =>
  match lettered with Some r => r | None =>
  match roman_item with Some r => r | None =>
  if test re_bullet text then indentPrefix ++ lit "- " ++ strip_prefix re_bullet text
  else if truthy indentPrefix && negb (test re_digits_dot text) then indentPrefix ++ text
  else text
  end end end end.

(** Heading and emphasis tests, then [classify_list]. *)
Definition classify (lineItems : list textItem) (text : str) : str :=
  let avgFontSize := fdiv (sum_fontSize lineItems) (inject_Z (Z.of_nat (length lineItems))) in
  let isBold := existsb (fun i => is_bold_font (fontName i)) lineItems in
  let firstItemX := match lineItems with i :: _ => x i | [] => 0 end in
  let indentPrefix := indent_of firstItemX in
  if Qle_bool 20 avgFontSize then lit "# " ++ text
  else if Qle_bool 16 avgFontSize then lit "## " ++ text
  else if Qle_bool 14 avgFontSize && isBold then lit "### " ++ text
  else if Qle_bool 13 avgFontSize && isBold && (length text <? 80)%nat then lit "#### " ++ text
  else if isBold && (length text <? 60)%nat && negb (includes (lit ":") text)
       then lit "**" ++ text ++ lit "**"
  else classify_list indentPrefix text.

(** The callback of [lines.map]. *)
Definition process_line (lineItems : list textItem) : str :=
  let lineItems := sort_by_x lineItems in
  classify lineItems (fix_spacing (line_text lineItems)).

(** Grouping of a block's items into lines (tolerance 3). *)
Fixpoint group_lines (lastY : Q) (currentLine : list textItem) (l : list textItem)
    : list (list textItem) :=
  match l with
  | [] => match currentLine with [] => [] | _ => [currentLine] end
  | item :: l' =>
      if qgt (Qabs (fsub (y item) lastY)) 3 then
        match currentLine with
        | [] => group_lines (y item) [item] l'
        | _ => currentLine :: group_lines (y item) [item] l'
        end
      else group_lines (y item) (currentLine ++ [item]) l'
  end.

Definition processTextBlock (items : list textItem) : str :=
  match items with
  | [] => []
  | first :: _ =>
      join [NL] (map process_line (group_lines (y first) [] items))
  end.

(** *** Block segmentation (step 1) *)

(** The block under construction and the loop's other variables. *)
Record segmenter : Type := Segmenter {
  blocks : list block;
  cur_items : list textItem;
  cur_minY : option Q;
  cur_maxY : option Q;
  lastY : option Q
}.

(** Closing the current block: it is kept when its text is not blank. *)
Definition close_block (s : segmenter) : list block :=
  match cur_items s with
  | [] => blocks s
  | _ =>
      let t := processTextBlock (cur_items s) in
      if truthy (trim t)
      then blocks s ++ [Block (cur_items s) (cur_maxY s) (cur_minY s) (cur_maxY s) t]
      else blocks s
  end.

Definition segment_step (s : segmenter) (item : glyphRun) : segmenter :=
  if negb (truthy (run_str item)) || negb (truthy (trim (run_str item))) then s
  else
    let y := m5 (run_transform item) in
    let fontSize := round (run_height item) in
    let s1 :=
      match lastY s with
      | Some ly =>
          if qgt (Qabs (fsub y ly)) (fmul (inject_Z fontSize) (15 # 10))
          then Segmenter (close_block s) [] None None (lastY s)
          else s
      | None => s
      end in
    Segmenter (blocks s1)
      (cur_items s1 ++ [TextItem (run_str item) (m4 (run_transform item)) y fontSize
                          (run_fontName item)])
      (min_with (cur_minY s1) y) (max_with (cur_maxY s1) y) (Some y).

Definition extractTextBlocks (items : list glyphRun) : list block :=
  close_block (fold_left segment_step items (Segmenter [] [] None None None)).

End PdfText.

(** ** PDF image positions: the transform stack (pdf-converter.js) *)

Module PdfImages.
Import Js Double PdfText.

Local Open Scope Q_scope.

(** The operators of a page's operator list that the scan tells apart,
    with the arguments it reads. *)
Inductive operator : Type :=
| OpSave
| OpRestore
| OpTransform (args : matrix)
| OpPaintImageXObject (name : str)
| OpPaintJpegXObject (name : str)
| OpOther.

Definition identity : matrix := Matrix 1 0 0 1 0 0.

Definition multiplyMatrices (a b : matrix) : matrix :=
  Matrix (fadd (fmul (m0 a) (m0 b)) (fmul (m2 a) (m1 b)))
         (fadd (fmul (m1 a) (m0 b)) (fmul (m3 a) (m1 b)))
         (fadd (fmul (m0 a) (m2 b)) (fmul (m2 a) (m3 b)))
         (fadd (fmul (m1 a) (m2 b)) (fmul (m3 a) (m3 b)))
         (fadd (fadd (fmul (m0 a) (m4 b)) (fmul (m2 a) (m5 b))) (m4 a))
         (fadd (fadd (fmul (m1 a) (m4 b)) (fmul (m3 a) (m5 b))) (m5 a)).

Record imageOp : Type := ImageOp { op_name : str; op_y : Q }.

(** [ctmStack] is an array whose last slot is the top of the stack. *)
Record scan : Type := Scan { ctmStack : list matrix; imageOps : list imageOp }.

Definition paint (name : str) (s : scan) : option scan :=
  currentCTM ← last (ctmStack s);
  let yPos := m5 currentCTM in
  if truthy name && negb (existsb (fun io => str_eqb (op_name io) name) (imageOps s))
  then Some (Scan (ctmStack s) (imageOps s ++ [ImageOp name yPos]))
  else Some s.

(** One turn of the loop; [None] is a thrown [TypeError] (reading the
    top of an empty stack), which the enclosing [try] would catch. *)
Definition scan_step (s : scan) (op : operator) : option scan :=
  match op with
  | OpSave =>
      top ← last (ctmStack s);
      Some (Scan (ctmStack s ++ [top]) (imageOps s))
  | OpRestore =>
      Some (if (1 <? length (ctmStack s))%nat
            then Scan (removelast (ctmStack s)) (imageOps s) else s)
  | OpTransform args =>
      currentCTM ← last (ctmStack s);
      let newMatrix := multiplyMatrices currentCTM args in
      Some (Scan (<[ (length (ctmStack s) - 1)%nat := newMatrix ]> (ctmStack s)) (imageOps s))
  | OpPaintImageXObject name => paint name s
  | OpPaintJpegXObject name => paint name s
  | OpOther => Some s
  end.

Fixpoint scan_ops (s : scan) (ops : list operator) : option scan :=
  match ops with
  | [] => Some s
  | op :: ops' => s' ← scan_step s op; scan_ops s' ops'
  end.

Definition initial : scan := Scan [identity] [].

(** The recorded image references, sorted by descending Y. *)
Definition image_positions (ops : list operator) : option (list imageOp) :=
  s ← scan_ops initial ops;
  Some (Sorting.sort (fun a b => op_y b - op_y a) (imageOps s)).

(** What the page's object store yields for a reference, reduced to what
    the extraction reads: the size, and the data URL that the canvas
    gives when the object carries pixel data or a bitmap. *)
Record imgData : Type := ImgData { img_width : Z; img_height : Z; img_url : option str }.

Record image : Type := Image { index : nat; dataUrl : str; width : Z; height : Z }.

(** The extraction loop; [objs] is the lookup with its time limit, [None]
    standing for a failed or timed-out lookup. *)
Fixpoint extract_loop (objs : str -> option imgData) (startIndex : nat)
    (acc : list (image * Q)) (l : list imageOp) : list (image * Q) :=
  match l with
  | [] => acc
  | io :: l' =>
      let acc' :=
        match objs (op_name io) with
        | Some d =>
            if (img_width d =? 0)%Z || (img_height d =? 0)%Z then acc
            else if (img_width d <? 20)%Z || (img_height d <? 20)%Z then acc
            else match img_url d with
                 | Some url =>
                     acc ++ [(Image (startIndex + length acc) url (img_width d) (img_height d),
                              op_y io)]
                 | None => acc
                 end
        | None => acc
        end in
      extract_loop objs startIndex acc' l'
  end.

(** [extractImagesWithPositions]: the images with their positions (the
    two result arrays always have the same length and are zipped here). *)
Definition extractImagesWithPositions (ops : list operator)
    (objs : str -> option imgData) (startIndex : nat) : list (image * Q) :=
  match image_positions ops with
  | Some l => extract_loop objs startIndex [] l
  | None => []
  end.

End PdfImages.

(** ** Page assembly ([convertPdfToMarkdown], pdf-converter.js) *)

Module PageAssembly.
Import Js PdfText PdfImages.

Local Open Scope Q_scope.

Inductive contentType : Type := TypeText | TypeImage.

(** An entry of [allContent]. *)
Record contentItem : Type := ContentItem {
  item_type : contentType;
  item_y : Q;
  content : str;
  imageIndex : option nat
}.

(** The entry of a text block.  [block_y] is [None] only for a block
    without items, which [extractTextBlocks] never emits. *)
Definition text_item (b : block) : contentItem :=
  ContentItem TypeText (default 0 (block_y b)) (text b) None.

Definition centeredImage (url : str) (counter : nat) : str :=
  lit "<p align=" ++ [DQUOTE] ++ lit "center" ++ [DQUOTE] ++ lit "><img src=" ++ [DQUOTE]
  ++ url ++ [DQUOTE] ++ lit " alt=" ++ [DQUOTE] ++ lit "Image " ++ decimal counter ++ [DQUOTE]
  ++ lit " style=" ++ [DQUOTE] ++ lit "max-width: 100%;" ++ [DQUOTE] ++ lit "></p>".

(** The loop that appends the page's images, numbering them with the
    document-wide counter. *)
Fixpoint image_items (counter : nat) (l : list (image * Q)) : list contentItem :=
  match l with
  | [] => []
  | (img, pos) :: l' =>
      ContentItem TypeImage pos (centeredImage (dataUrl img) counter) (Some counter)
      :: image_items (S counter) l'
  end.

(** [allContent.sort((a, b) => b.y - a.y)] *)
Definition sort_content (allContent : list contentItem) : list contentItem :=
  Sorting.sort (fun a b => item_y b - item_y a) allContent.

(** The Markdown of a sorted item sequence. *)
Fixpoint render_items (l : list contentItem) : str :=
  match l with
  | [] => []
  | item :: l' =>
      (if truthy (content item) && truthy (trim (content item))
       then content item ++ [NL; NL] else [])
      ++ render_items l'
  end.

(** What pdf.js hands to one turn of the page loop: the page's text
    items, its operator list and its object store. *)
Record page : Type := Page {
  textContent : list glyphRun;
  operatorList : list operator;
  objs : str -> option imgData
}.

Definition page_images (counter : nat) (p : page) : list (image * Q) :=
  extractImagesWithPositions (operatorList p) (objs p) counter.

(** [allContent] of a page, after the sort. *)
Definition page_content (counter : nat) (p : page) : list contentItem :=
  sort_content (map text_item (extractTextBlocks (textContent p))
                ++ image_items counter (page_images counter p)).

(** The page loop: [markdown += pageMarkdown] for each page in turn;
    [counter] is [globalImageCounter]. *)
Fixpoint pages_markdown (counter : nat) (pages : list page) : str :=
  match pages with
  | [] => []
  | p :: pages' =>
      render_items (page_content counter p)
      ++ pages_markdown (counter + length (page_images counter p)) pages'
  end.

(** The content sequence of the whole document, page after page. *)
Fixpoint document_content (counter : nat) (pages : list page) : list contentItem :=
  match pages with
  | [] => []
  | p :: pages' =>
      page_content counter p
      ++ document_content (counter + length (page_images counter p)) pages'
  end.

Definition convertPdfToMarkdown (pages : list page) : str :=
  Formatter.formatMarkdown (trim (pages_markdown 1 pages)).

End PageAssembly.

(** ** HTML to Markdown normaliser for DOCX (export.js) *)

Module Docx.
Import Js Regex.

#[local] Unset Elimination Schemes.

(** The parsed HTML tree.  [tag] is the element's name in lower case
    ([tagName.toLowerCase()]); [tagName] itself is its upper-case form. *)
Inductive node : Type :=
| TextNode (textContent : str)
| Element (tag : string) (attrs : list (string * str)) (childNodes : list node)
| OtherNode.

#[local] Set Elimination Schemes.

Definition is_tag (t : string) (n : node) : bool :=
  match n with Element tag _ _ => String.eqb tag t | _ => false end.

(** [element.getAttribute(name) || ''] *)
Fixpoint getAttribute (name : string) (attrs : list (string * str)) : str :=
  match attrs with
  | [] => []
  | (k, v) :: attrs' => if String.eqb k name then v else getAttribute name attrs'
  end.

(** *** Pre-pass: [mergeConsecutiveLists] *)

Definition mergeable (t1 t2 : string) : bool :=
  (String.eqb t1 "ol" && String.eqb t2 "ol") || (String.eqb t1 "ul" && String.eqb t2 "ul").

(** The loop over [container.children], which holds the element children
    only.  [current] is [children[i]], given by its tag, attributes and
    child nodes; [between] are the non-element nodes met since, which
    stay where they are; [rest] are the child nodes still ahead.  After a
    merge the index is stepped back, so the merged [current] is compared
    with the element that follows next. *)
Fixpoint merge_from (tag : string) (attrs : list (string * str)) (kids : list node)
    (between : list node) (rest : list node) : list node :=
  match rest with
  | [] => Element tag attrs kids :: between
  | Element tag' attrs' kids' :: rest' =>
      if mergeable tag tag'
      then merge_from tag attrs (kids ++ kids') between rest'
      else Element tag attrs kids :: between ++ merge_from tag' attrs' kids' [] rest'
  | other :: rest' => merge_from tag attrs kids (between ++ [other]) rest'
  end.

(** The container's child nodes after the pre-pass. *)
Fixpoint mergeConsecutiveLists (childNodes : list node) : list node :=
  match childNodes with
  | [] => []
  | Element tag attrs kids :: rest => merge_from tag attrs kids [] rest
  | other :: rest => other :: mergeConsecutiveLists rest
  end.

(** *** Element mapping *)

Definition heading_level (tag : string) : option nat :=
  if String.eqb tag "h1" then Some 1 else if String.eqb tag "h2" then Some 2
  else if String.eqb tag "h3" then Some 3 else if String.eqb tag "h4" then Some 4
  else if String.eqb tag "h5" then Some 5 else if String.eqb tag "h6" then Some 6
  else None.

(** [tag.match(/^h[1-6]$/)] *)
Definition is_heading (tag : string) : bool :=
  match heading_level tag with Some _ => true | None => false end.

Definition ends_with_space (s : str) : bool :=
  match last s with Some c => N.eqb c SP | None => false end.

(** The shared body of the bold, italic, underline and strike cases. *)
Definition wrap (marker content : str) : str :=
  let trimmed := trim content in
  if negb (truthy trimmed) then content
  else
    let leadingSpace := if starts_with [SP] content then [SP] else [] in
    let trailingSpace := if ends_with_space content then [SP] else [] in
    leadingSpace ++ marker ++ trimmed ++ marker ++ trailingSpace.

Definition repeat_str (s : str) (n : nat) : str := concat (replicate n s).

Definition escape_pipes (s : str) : str :=
  replace (Chr 124) (fun _ _ => lit "\|") s.

(** The rows of [processTable], given each row's cell contents. *)
Fixpoint table_rows (isFirstRow : bool) (rows : list (list str)) : str :=
  match rows with
  | [] => []
  | cellContents :: rows' =>
      lit "| " ++ join (lit " | ") cellContents ++ lit " |" ++ [NL]
      ++ (if isFirstRow
          then lit "| " ++ join (lit " | ") (map (fun _ => lit "---") cellContents)
               ++ lit " |" ++ [NL]
          else [])
      ++ table_rows false rows'
  end.

(** One item line of [processListItems]. *)
Definition item_line (type : string) (depth itemNumber : nat) (itemText : str) : str :=
  let indent := repeat_str (lit "    ") depth in
  if String.eqb type "ul" then indent ++ lit "- " ++ itemText ++ [NL]
  else indent ++ decimal itemNumber ++ lit ". " ++ itemText ++ [NL].

Section Loops.

(** The loops below call back into the element mapping; inside this
    section the two callbacks stand for [processNode] and
    [processListItems], which are tied to them afterwards. *)
Variable process_node : string -> node -> str.
Variable process_list : string -> nat -> node -> str.

(** The text of a list item: its child nodes other than nested lists. *)
Definition li_text (liKids : list node) : str :=
  concat (map (fun node =>
    match node with
    | TextNode t => t
    | Element t _ _ =>
        if String.eqb t "ul" || String.eqb t "ol" then [] else process_node "li" node
    | OtherNode => []
    end) liKids).

(** The nested lists of a list item, one level deeper. *)
Definition li_nested (depth : nat) (liKids : list node) : str :=
  concat (map (fun node =>
    match node with
    | Element t _ _ =>
        if String.eqb t "ul" then process_list "ul" (S depth) node
        else if String.eqb t "ol" then process_list "ol" (S depth) node
        else []
    | _ => []
    end) liKids).

(** The loop of [processListItems] over [listElement.children], from
    the current value of [itemNumber]. *)
Fixpoint list_items (type : string) (depth itemNumber : nat) (l : list node) : str :=
  match l with
  | [] => []
  | Element tag _ liKids :: l' =>
      if String.eqb tag "li" then
        item_line type depth itemNumber (trim (li_text liKids)) ++ li_nested depth liKids
        ++ list_items type depth (if String.eqb type "ul" then itemNumber else S itemNumber) l'
      else list_items type depth itemNumber l'
  | _ :: l' => list_items type depth itemNumber l'
  end.

(** The contents of the [th] and [td] cells that [querySelectorAll]
    finds under a node with the child nodes [kids], in document order;
    [cells_under] stands for the same function on a child. *)
Definition cells_in (cells_under : node -> list str) (kids : list node) : list str :=
  concat (map (fun k =>
    match k with
    | Element t _ cellKids =>
        (if String.eqb t "th" || String.eqb t "td"
         then [escape_pipes (trim (concat (map (process_node t) cellKids)))]
         else [])
        ++ cells_under k
    | _ => []
    end) kids).

(** The rows ([tr]) found under a node, each as its cell contents. *)
Definition rows_in (cells_under : node -> list str) (rows_under : node -> list (list str))
    (kids : list node) : list (list str) :=
  concat (map (fun k =>
    match k with
    | Element t _ _ =>
        (if String.eqb t "tr" then [cells_under k] else []) ++ rows_under k
    | _ => []
    end) kids).

End Loops.

(** [processNode parent n] is what one turn of the loop of [processNodes]
    adds for the node [n], whose parent element is [parent]:
    [textContent] for a text node, [processElement] for an element.  The
    [context] argument of the source is passed along and never read; it
    is left out.  [processListItems] is the function of that name;
    [table_cells] and [table_row_cells] are the two [querySelectorAll]
    calls of [processTable]. *)
Fixpoint processNode (parent : string) (n : node) {struct n} : str :=
  match n with
  | TextNode t => t
  | OtherNode => []
  | Element tag attrs kids =>
      let children := concat (map (processNode tag) kids) in
      match heading_level tag with
      | Some level =>
          [NL] ++ repeat_str (lit "#") level ++ [SP] ++ trim children ++ [NL; NL]
      | None =>
      if String.eqb tag "p" then
        let pContent := trim children in
        if negb (truthy pContent) then [] else pContent ++ [NL; NL]
      else if String.eqb tag "strong" || String.eqb tag "b" then wrap (lit "**") children
      else if String.eqb tag "em" || String.eqb tag "i" then wrap (lit "*") children
      else if String.eqb tag "u" then wrap (lit "_") children
      else if String.eqb tag "s" || String.eqb tag "strike" || String.eqb tag "del"
           then wrap (lit "~~") children
      else if String.eqb tag "code" then
        if String.eqb parent "pre" then children else lit "`" ++ children ++ lit "`"
      else if String.eqb tag "pre" then
        [NL] ++ lit "```" ++ [NL] ++ trim children ++ [NL] ++ lit "```" ++ [NL; NL]
      else if String.eqb tag "blockquote" then
        let quoteLines := split NL (trim children) in
        [NL] ++ join [NL] (map (fun line => lit "> " ++ line) quoteLines) ++ [NL; NL]
      else if String.eqb tag "ul" then
        [NL] ++ list_items processNode processListItems "ul" 0 1 kids ++ [NL]
      else if String.eqb tag "ol" then
        [NL] ++ list_items processNode processListItems "ol" 0 1 kids ++ [NL]
      else if String.eqb tag "li" then children
      else if String.eqb tag "a" then
        let href := getAttribute "href" attrs in
        let linkText := trim children in
        if truthy href then lit "[" ++ linkText ++ lit "](" ++ href ++ lit ")" else linkText
      else if String.eqb tag "img" then
        let src := getAttribute "src" attrs in
        let alt := if truthy (getAttribute "alt" attrs)
                   then getAttribute "alt" attrs else lit "Image" in
        [NL] ++ lit "<p align=" ++ [DQUOTE] ++ lit "center" ++ [DQUOTE] ++ lit "><img src="
        ++ [DQUOTE] ++ src ++ [DQUOTE] ++ lit " alt=" ++ [DQUOTE] ++ alt ++ [DQUOTE]
        ++ lit " style=" ++ [DQUOTE] ++ lit "max-width: 100%;" ++ [DQUOTE] ++ lit "></p>"
        ++ [NL; NL]
      else if String.eqb tag "br" then [NL]
      else if String.eqb tag "hr" then [NL] ++ lit "---" ++ [NL; NL]
      else if String.eqb tag "table" then
        [NL] ++ table_rows true (rows_in table_cells table_row_cells kids) ++ [NL]
      else children
      end
  end

with processListItems (type : string) (depth : nat) (listElement : node)
    {struct listElement} : str :=
  match listElement with
  | Element _ _ kids => list_items processNode processListItems type depth 1 kids
  | _ => []
  end

with table_cells (n : node) {struct n} : list str :=
  match n with
  | Element _ _ kids => cells_in processNode table_cells kids
  | _ => []
  end

with table_row_cells (n : node) {struct n} : list (list str) :=
  match n with
  | Element _ _ kids => rows_in table_cells table_row_cells kids
  | _ => []
  end.

(** [processTable(tableElement)] *)
Definition processTable (tableElement : node) : str :=
  table_rows true (table_row_cells tableElement).

(** [processNodes(nodes)] under a parent element. *)
Definition processNodes (parent : string) (nodes : list node) : str :=
  concat (map (processNode parent) nodes).

(** [processElement]: [processNode] on an element. *)
Definition processElement (parent : string) (element : node) : str :=
  processNode parent element.

(** [processNodesWithState]; the [state] object of the source is never
    read.  The nodes are children of the temporary [div]. *)
Fixpoint processNodesWithState (lastWasListItem : bool) (nodes : list node) : str :=
  match nodes with
  | [] => []
  | TextNode t :: nodes' =>
      let text := trim t in
      (if truthy text
       then if lastWasListItem then lit "    " ++ text ++ [NL; NL] else text
       else [])
      ++ processNodesWithState lastWasListItem nodes'
  | (Element tag _ kids as node) :: nodes' =>
      if String.eqb tag "ol" || String.eqb tag "ul" then
        processElement "div" node ++ processNodesWithState true nodes'
      else if String.eqb tag "p" && lastWasListItem then
        let content := trim (processNodes "p" kids) in
        (if truthy content then lit "    " ++ content ++ [NL; NL] else [])
        ++ processNodesWithState lastWasListItem nodes'
      else
        processElement "div" node
        ++ processNodesWithState
             (if String.eqb tag "p" || is_heading tag then false
              else lastWasListItem) nodes'
  | OtherNode :: nodes' => processNodesWithState lastWasListItem nodes'
  end.

(** [htmlToMarkdown], from the child nodes that the HTML parser gives
    the temporary [div]. *)
Definition htmlToMarkdown (childNodes : list node) : str :=
  trim (processNodesWithState false (mergeConsecutiveLists childNodes)).

End Docx.

(** ** Undo and redo history (editor.js) *)

Module History.
Import Js.

Definition MAX_HISTORY : nat := 50.

(** The textarea's value with the module variables [history] and
    [historyIndex].  The handlers below are installed by [init] only when
    the textarea exists.  The flag [isUndoRedo] is raised only while
    [undo] and [redo] assign the value, which fires no input event, so
    that no handler ever sees it raised; it is left out. *)
Record state : Type := State {
  value : str;
  history : list str;
  historyIndex : Z
}.

(** [history[i]]: [undefined] ([None]) outside the array. *)
Definition entry (h : list str) (i : Z) : option str :=
  if (i <? 0)%Z then None else h !! Z.to_nat i.

(** [h.slice(0, e)] *)
Definition slice0 (h : list str) (e : Z) : list str :=
  if (e <? 0)%Z then take (Z.to_nat (Z.of_nat (length h) + e)) h
  else take (Z.to_nat e) h.

(** What the value setter makes of [history[i]]: the text
    [undefined] when there is no such entry. *)
Definition assigned (h : list str) (i : Z) : str :=
  match entry h i with Some v => v | None => lit "undefined" end.

Definition saveToHistory (s : state) : state :=
  let currentContent := value s in
  if bool_decide (entry (history s) (historyIndex s) = Some currentContent) then s
  else
    let h1 := if (historyIndex s <? Z.of_nat (length (history s)) - 1)%Z
              then slice0 (history s) (historyIndex s + 1)
              else history s in
    let h2 := h1 ++ [currentContent] in
    if (MAX_HISTORY <? length h2)%nat
    then State (value s) (tail h2) (historyIndex s)
    else State (value s) h2 (historyIndex s + 1).

Definition undo (s : state) : state :=
  if (0 <? historyIndex s)%Z
  then State (assigned (history s) (historyIndex s - 1)) (history s) (historyIndex s - 1)
  else s.

Definition redo (s : state) : state :=
  if (historyIndex s <? Z.of_nat (length (history s)) - 1)%Z
  then State (assigned (history s) (historyIndex s + 1)) (history s) (historyIndex s + 1)
  else s.

(** What reaches the history: an input event (typing, pasting) and a
    dropped file change the value and save it; the toolbar actions,
    [setContent], the restored auto-save and the table of contents assign
    the value and fire no input event; the clear button empties both. *)
Inductive event : Type :=
| Input (v : str)
| Assign (v : str)
| Undo
| Redo
| Clear.

Definition step (s : state) (e : event) : state :=
  match e with
  | Input v => saveToHistory (State v (history s) (historyIndex s))
  | Assign v => State v (history s) (historyIndex s)
  | Undo => undo s
  | Redo => redo s
  | Clear => State [] [] (-1)
  end.

(** The module as loaded, with the textarea holding [v]. *)
Definition loaded (v : str) : state := State v [] (-1).

End History.

(** ** The textarea with its history and the codec together (editor.js) *)

Module Session.
Import Js Codec History.

(** The state of the editor module that the handlers below share: the
    codec's part, which holds the textarea, and the history's two
    variables. *)
Record session : Type := Session {
  codec : editor;
  past : list str;
  position : Z
}.

(** What the user does: an edit in the textarea, which fires an input
    event and leaves the value [v]; a click on the button that hides and
    shows the images; a click on undo or on redo. *)
Inductive action : Type :=
| Typed (v : str)
| ClickImages
| ClickUndo
| ClickRedo.

(** The history's view of the session. *)
Definition history_of (s : session) : state :=
  State (default [] (textarea (codec s))) (past s) (position s).

(** A handler of the history has run: the textarea takes the value and
    the two variables are written back. *)
Definition with_history (s : session) (h : state) : session :=
  Session (input (value h) (codec s)) (history h) (historyIndex h).

Section WithRandom.
Variable random : nat -> str.

Definition act (s : session) (a : action) : session :=
  match a with
  | Typed v => with_history s (step (history_of s) (Input v))
  | ClickImages => Session (toggleImageCollapse random (codec s)) (past s) (position s)
  | ClickUndo => with_history s (undo (history_of s))
  | ClickRedo => with_history s (redo (history_of s))
  end.

Definition run (s : session) (l : list action) : session := fold_left act l s.

End WithRandom.

(** The module once [init] has run, the textarea holding [v]. *)
Definition started (v : str) : session := Session (Editor (Some v) false ∅ 0) [] (-1).

End Session.

(** ** The images that a conversion returns (pdf-converter.js) *)

Module PdfResult.
Import Js PdfText PdfImages PageAssembly.

(** [allImages] of [convertPdfToMarkdown]: every page's images are
    pushed in turn, while [globalImageCounter] counts on. *)
Fixpoint allImages (counter : nat) (pages : list page) : list image :=
  match pages with
  | [] => []
  | p :: pages' =>
      map fst (page_images counter p)
      ++ allImages (counter + length (page_images counter p)) pages'
  end.

End PdfResult.

(** ** Patterns with anchors *)

Module Anchored.
Import Js Regex.

(** A pattern with the assertions [^] and [$] (no flag m: the start and
    the end of the subject) around plain parts. *)
Inductive anchored : Type :=
| Plain (r : regex)
| Bol                                   (* ^ *)
| Eol                                   (* $ *)
| Seq (a1 a2 : anchored)
| Or (a1 a2 : anchored).

(** The matcher; [bol] tells whether the current position is the start
    of the subject. *)
Fixpoint arun (a : anchored) (bol : bool) (s : str) (caps : list str)
    (k : bool -> str -> list str -> option result) : option result :=
  match a with
  | Plain r =>
      run r s caps (fun s' caps' => k (bol && (length s' =? length s)%nat) s' caps')
  | Bol => if bol then k bol s caps else None
  | Eol => match s with [] => k bol s caps | _ :: _ => None end
  | Seq a1 a2 => arun a1 bol s caps (fun b1 s1 caps1 => arun a2 b1 s1 caps1 k)
  | Or a1 a2 =>
      match arun a1 bol s caps k with
      | Some x => Some x
      | None => arun a2 bol s caps k
      end
  end.

(** A match attempt at the current position. *)
Definition aexec (a : anchored) (bol : bool) (s : str) : option result :=
  arun a bol s [] (fun _ s' caps => Some (s', caps)).

(** [s.match(a)] without the flag g, for a pattern that starts with [^]:
    the captures of the match at the start of the subject. *)
Definition amatch (a : anchored) (s : str) : option (list str) :=
  match aexec a true s with Some (_, caps) => Some caps | None => None end.

(** [s.replace(a, f)] with the flag g; see [Regex.replace_loop]. *)
Fixpoint areplace_loop (a : anchored) (f : str -> list str -> str)
    (skip : nat) (bol : bool) (s : str) : str :=
  match skip, s with
  | S n, _ :: s' => areplace_loop a f n false s'
  | S n, [] => []
  | O, [] =>
      match aexec a bol [] with
      | Some (_, caps) => f [] caps
      | None => []
      end
  | O, c :: s' =>
      match aexec a bol s with
      | Some (rest, caps) =>
          let m := take (length s - length rest) s in
          f m caps ++
          match length m with
          | O => c :: areplace_loop a f 0 false s'
          | S n => areplace_loop a f n false s'
          end
      | None => c :: areplace_loop a f 0 false s'
      end
  end.

Definition areplace (a : anchored) (f : str -> list str -> str) (s : str) : str :=
  areplace_loop a f 0 true s.

End Anchored.

(** ** File names, slugs and anchors (export.js, editor.js) *)

Module Naming.
Import Js Regex Anchored.

Definition HYPHEN : N := 45.
Definition is_hyphen (c : N) : bool := N.eqb c HYPHEN.

(** [[^a-z0-9\s-]] *)
Definition not_filename_unit (c : N) : bool :=
  negb (is_lower c || is_digit c || is_space c || is_hyphen c).

(** [[^\w\s-]] *)
Definition not_slug_unit (c : N) : bool :=
  negb (is_word c || is_space c || is_hyphen c).

(** [/^-|-$/g] *)
Definition re_edge_hyphen : anchored :=
  Or (Seq Bol (Plain (Cls is_hyphen))) (Seq (Plain (Cls is_hyphen)) Eol).

Section WithCase.

(** [String.prototype.toLowerCase], which goes by the case tables of
    Unicode. *)
Variable toLowerCase : str -> str.

(** [generateFilename] (export.js) *)
Definition generateFilename (title : str) : str :=
  if negb (truthy title) || str_eqb (trim title) [] then lit "untitled"
  else
    let t := toLowerCase title in
    let t := replace (Cls not_filename_unit) (fun _ _ => []) t in
    let t := replace (Plus is_space) (fun _ _ => [HYPHEN]) t in
    let t := replace (Plus is_hyphen) (fun _ _ => [HYPHEN]) t in
    let t := areplace re_edge_hyphen (fun _ _ => []) t in
    let t := take 50 t in
    if truthy t then t else lit "untitled".

(** The slug that the click handler of the generate-slug button writes
    (editor.js, [setupSmartButtons]); [None] when the title is empty and
    the handler does nothing. *)
Definition generate_slug (title : str) : option str :=
  if truthy title then
    let t := trim (toLowerCase title) in
    let t := replace (Cls not_slug_unit) (fun _ _ => []) t in
    let t := replace (Plus is_space) (fun _ _ => [HYPHEN]) t in
    Some (replace (Plus is_hyphen) (fun _ _ => [HYPHEN]) t)
  else None.

(** The anchor of a heading in [generateTableOfContents] (editor.js). *)
Definition heading_anchor (text : str) : str :=
  let t := toLowerCase text in
  let t := replace (Cls not_slug_unit) (fun _ _ => []) t in
  replace (Plus is_space) (fun _ _ => [HYPHEN]) t.

End WithCase.

End Naming.

(** ** Word count and reading time (editor.js, [updateWordCount]) *)

Module Counting.
Import Js Regex.

(** [s.split(r)] for a pattern without groups, as ECMAScript runs it: a
    match attempt at each position in turn; [cur] is the piece since the
    last cut and [skip] counts the units of the current separator still
    to be passed over.  An empty match cuts between two units and never
    at the start of a piece. *)
Fixpoint split_loop (r : regex) (skip : nat) (cur : str) (s : str) : list str :=
  match skip, s with
  | S n, _ :: s' => split_loop r n cur s'
  | S n, [] => [cur]
  | O, [] => [cur]
  | O, c :: s' =>
      match exec r s with
      | Some (rest, _) =>
          match length s - length rest with
          | O => match cur with
                 | [] => split_loop r 0 [c] s'
                 | _ => cur :: split_loop r 0 [c] s'
                 end
          | S n => cur :: split_loop r n [] s'
          end
      | None => split_loop r 0 (cur ++ [c]) s'
      end
  end.

Definition split_re (r : regex) (s : str) : list str :=
  match s with
  | [] => match exec r [] with Some _ => [] | None => [[]] end
  | _ => split_loop r 0 [] s
  end.

(** [text.trim().split(/\s+/).filter(w => w.length > 0).length] *)
Definition words (text : str) : nat :=
  length (List.filter (fun w => (0 <? length w)%nat) (split_re (Plus is_space) (trim text))).

(** [text.length] *)
Definition chars (text : str) : nat := length text.

(** [Math.max(1, Math.ceil(words / 200))] *)
Definition minutes (text : str) : nat := Nat.max 1 ((words text + 199) / 200).

(** The text of the counter. *)
Definition word_count_text (text : str) : str :=
  decimal (words text) ++ lit " words / " ++ decimal (chars text) ++ lit " chars".

End Counting.

(** ** Toolbar actions on the textarea (editor.js) *)

Module Toolbar.
Import Js Regex.

(** The textarea as the toolbar actions see it: its value and its
    selection, in code units.  The document object model keeps
    [selectionStart <= selectionEnd <= value.length]. *)
Record field : Type := Field {
  value : str;
  selectionStart : nat;
  selectionEnd : nat
}.

(** *** The textarea's setters, as HTML defines them *)

(** [t.setSelectionRange(a, b)]: both ends are clamped to the length of
    the value, and an end in front of the start pulls the start along. *)
Definition setSelectionRange (a b : nat) (t : field) : field :=
  let a' := Nat.min a (length (value t)) in
  let b' := Nat.min b (length (value t)) in
  Field (value t) (if (b' <=? a')%nat then b' else a') b'.

(** [t.selectionStart = a] *)
Definition set_selectionStart (a : nat) (t : field) : field :=
  let e := selectionEnd t in
  setSelectionRange a (if (e <? a)%nat then a else e) t.

(** [t.selectionEnd = b] *)
Definition set_selectionEnd (b : nat) (t : field) : field :=
  setSelectionRange (selectionStart t) b t.

(** [t.selectionStart = t.selectionEnd = n]: the inner assignment runs
    first. *)
Definition set_cursor (n : nat) (t : field) : field :=
  set_selectionStart n (set_selectionEnd n t).

(** [t.value = v]: a value that differs from the present one moves the
    cursor to its end. *)
Definition set_value (v : str) (t : field) : field :=
  if bool_decide (v = value t) then t else Field v (length v) (length v).

(** *** String methods *)

(** [s.substring(a, b)] *)
Definition substring (a b : nat) (s : str) : str :=
  let a' := Nat.min a (length s) in
  let b' := Nat.min b (length s) in
  take (Nat.max a' b' - Nat.min a' b') (drop (Nat.min a' b') s).

(** The index of the last [c] in [p], if any. *)
Fixpoint find_last (c : N) (p : str) : option nat :=
  match p with
  | [] => None
  | d :: p' =>
      match find_last c p' with
      | Some k => Some (S k)
      | None => if N.eqb d c then Some 0%nat else None
      end
  end.

(** [s.lastIndexOf(c, start - 1) + 1] for a position [start]: the search
    runs backwards from the index [start - 1], or from the index 0 when
    that is negative. *)
Definition after_last (c : N) (s : str) (start : nat) : nat :=
  match find_last c (take (S (start - 1)) s) with
  | Some k => S k
  | None => 0
  end.

(** The number that a run of decimal digits denotes. *)
Definition digits_value (digits : str) : nat :=
  fold_left (fun a d => 10 * a + N.to_nat (d - 48)) digits 0.

(** [parseInt(digits)] for a run of decimal digits: the double nearest
    to the number that the digits denote.  (From the twenty-first
    significant digit on an engine may read zeros, and a number from
    2^1024 on is Infinity, which has no counterpart here.) *)
Definition parseInt (digits : str) : Q :=
  Double.b64 (inject_Z (Z.of_nat (digits_value digits))).

(** *** The actions *)

Definition insertAtCursor (text : str) (t : field) : field :=
  let start := selectionStart t in
  let end_ := selectionEnd t in
  let value := value t in
  set_cursor (start + length text)
    (set_value (substring 0 start value ++ text ++ drop end_ value) t).

(** [value.substring(start, end) || fallback] *)
Definition selected_or (fallback : str) (t : field) : str :=
  let sel := substring (selectionStart t) (selectionEnd t) (value t) in
  if truthy sel then sel else fallback.

Definition wrapSelection (prefix suffix : str) (t : field) : field :=
  let start := selectionStart t in
  let end_ := selectionEnd t in
  let value := value t in
  let selectedText := selected_or (lit "text") t in
  let newText := prefix ++ selectedText ++ suffix in
  set_selectionEnd (start + length prefix + length selectedText)
    (set_selectionStart (start + length prefix)
       (set_value (substring 0 start value ++ newText ++ drop end_ value) t)).

Definition insertLinePrefix (prefix : str) (t : field) : field :=
  let start := selectionStart t in
  let value := value t in
  let lineStart := after_last NL value start in
  set_cursor (start + length prefix)
    (set_value (substring 0 lineStart value ++ prefix ++ drop lineStart value) t).

(** [/^(\d+)\. /] *)
Definition re_list_item : regex := Cat (Grp (Plus is_digit)) (Lit (lit ". ")).

Section WithNumberText.

(** The text of a number in a template literal: what Number::toString
    gives the double. *)
Variable number_text : Q -> str.

Definition insertOrderedList (t : field) : field :=
  let start := selectionStart t in
  let value := value t in
  let lineStart := after_last NL value start in
  let textBefore := substring 0 lineStart value in
  let lines := split NL textBefore in
  let listNumber :=
    if (1 <? length lines)%nat then
      match lines !! (length lines - 2)%nat with
      | Some prevLine =>
          match exec re_list_item prevLine with
          | Some (_, caps) => Double.fadd (parseInt (cap 1 caps)) 1
          | None => 1%Q
          end
      | None => 1%Q
      end
    else 1%Q in
  let prefix := number_text listNumber ++ lit ". " in
  set_cursor (start + length prefix)
    (set_value (substring 0 lineStart value ++ prefix ++ drop lineStart value) t).

End WithNumberText.

Definition insertLink (t : field) : field :=
  let start := selectionStart t in
  let end_ := selectionEnd t in
  let value := value t in
  let selectedText := selected_or (lit "link text") t in
  let linkMarkdown := lit "[" ++ selectedText ++ lit "](https://example.com)" in
  let urlStart := start + length selectedText + 3 in
  set_selectionEnd (urlStart + 19)
    (set_selectionStart urlStart
       (set_value (substring 0 start value ++ linkMarkdown ++ drop end_ value) t)).

Definition insertImage (t : field) : field :=
  let start := selectionStart t in
  let end_ := selectionEnd t in
  let value := value t in
  let selectedText := selected_or (lit "alt text") t in
  let imageMarkdown := lit "![" ++ selectedText ++ lit "](https://example.com/image.png)" in
  let urlStart := start + length selectedText + 4 in
  set_selectionEnd (urlStart + 30)
    (set_selectionStart urlStart
       (set_value (substring 0 start value ++ imageMarkdown ++ drop end_ value) t)).

Definition insertCodeBlock (t : field) : field :=
  let start := selectionStart t in
  let end_ := selectionEnd t in
  let value := value t in
  let selectedText := selected_or (lit "code here") t in
  let codeBlock := [NL] ++ lit "```" ++ [NL] ++ selectedText ++ [NL] ++ lit "```" ++ [NL] in
  set_selectionEnd (start + 5 + length selectedText)
    (set_selectionStart (start + 5)
       (set_value (substring 0 start value ++ codeBlock ++ drop end_ value) t)).

Definition table_template : str :=
  [NL] ++ lit "| Header 1 | Header 2 | Header 3 |" ++ [NL]
  ++ lit "|----------|----------|----------|" ++ [NL]
  ++ lit "| Cell 1   | Cell 2   | Cell 3   |" ++ [NL]
  ++ lit "| Cell 4   | Cell 5   | Cell 6   |" ++ [NL; NL].

Definition insertTable (t : field) : field :=
  let start := selectionStart t in
  let value := value t in
  set_cursor (start + 4)
    (set_value (substring 0 start value ++ table_template ++ drop start value) t).

Definition insertHorizontalRule (t : field) : field :=
  let start := selectionStart t in
  let value := value t in
  let hr := [NL] ++ lit "---" ++ [NL; NL] in
  set_cursor (start + length hr)
    (set_value (substring 0 start value ++ hr ++ drop start value) t).

Section ActionTable.
Variable number_text : Q -> str.

(** [handleToolbarAction]: the table of actions; any other name, also
    one that the table object inherits, leaves the textarea as it is. *)
Definition handleToolbarAction (action : string) (t : field) : field :=
  if String.eqb action "h1" then insertLinePrefix (lit "# ") t
  else if String.eqb action "h2" then insertLinePrefix (lit "## ") t
  else if String.eqb action "h3" then insertLinePrefix (lit "### ") t
  else if String.eqb action "bold" then wrapSelection (lit "**") (lit "**") t
  else if String.eqb action "italic" then wrapSelection (lit "*") (lit "*") t
  else if String.eqb action "code" then wrapSelection (lit "`") (lit "`") t
  else if String.eqb action "ul" then insertLinePrefix (lit "- ") t
  else if String.eqb action "ol" then insertOrderedList number_text t
  else if String.eqb action "quote" then insertLinePrefix (lit "> ") t
  else if String.eqb action "link" then insertLink t
  else if String.eqb action "image" then insertImage t
  else if String.eqb action "codeblock" then insertCodeBlock t
  else if String.eqb action "strikethrough" then wrapSelection (lit "~~") (lit "~~") t
  else if String.eqb action "table" then insertTable t
  else if String.eqb action "hr" then insertHorizontalRule t
  else t.

End ActionTable.

End Toolbar.

(** ** Table of contents (editor.js, [generateTableOfContents]) *)

Module Contents.
Import Js Regex Anchored Naming Toolbar.

Definition HASH : N := 35.
Definition is_hash (c : N) : bool := N.eqb c HASH.

(** [/^(#{1,6})\s+(.+)$/] *)
Definition re_heading : anchored :=
  Seq Bol
    (Seq (Plain (Cat (Grp (Rep is_hash 1 (Some 6%nat)))
                     (Cat (Plus is_space) (Grp (Plus is_dot)))))
         Eol).

Record heading : Type := Heading { level : nat; text : str; anchor : str }.

Section WithCase.
Variable toLowerCase : str -> str.

(** The callback of [lines.forEach]: the heading that a line gives, if
    it is one. *)
Definition heading_of (line : str) : option heading :=
  match amatch re_heading line with
  | Some caps =>
      Some (Heading (length (cap 1 caps)) (cap 2 caps)
                    (heading_anchor toLowerCase (cap 2 caps)))
  | None => None
  end.

Fixpoint headings_of (lines : list str) : list heading :=
  match lines with
  | [] => []
  | line :: lines' =>
      match heading_of line with
      | Some h => h :: headings_of lines'
      | None => headings_of lines'
      end
  end.

Definition toc_entry (h : heading) : str :=
  Docx.repeat_str (lit "  ") (level h - 1)
  ++ lit "- [" ++ text h ++ lit "](#" ++ anchor h ++ lit ")" ++ [NL].

Definition toc_of (headings : list heading) : str :=
  lit "## Table of Contents" ++ [NL; NL]
  ++ concat (map toc_entry headings)
  ++ [NL] ++ lit "---" ++ [NL; NL].

(** Without a heading the function raises an alert and returns. *)
Definition generateTableOfContents (t : field) : field :=
  let content := value t in
  let headings := headings_of (split NL content) in
  match headings with
  | [] => t
  | _ =>
      let cursorPos := selectionStart t in
      set_value (substring 0 cursorPos content ++ toc_of headings ++ drop cursorPos content) t
  end.

End WithCase.

End Contents.

(** ** The title taken from a PDF's file name (pdf-converter.js, [processFile]) *)

Module PdfTitle.
Import Js Regex Anchored.

(** [s.replace(a, f)] without the flag g: the first match, looked for
    from the start of the subject onwards, is replaced. *)
Fixpoint areplace_first (a : anchored) (f : str -> list str -> str)
    (bol : bool) (s : str) : str :=
  match aexec a bol s with
  | Some (rest, caps) => f (take (length s - length rest) s) caps ++ rest
  | None =>
      match s with
      | [] => []
      | c :: s' => c :: areplace_first a f false s'
      end
  end.

(** A letter under the flag i: the lower-case letter [c] or its capital. *)
Definition either_case (c : N) : N -> bool := fun x => N.eqb x c || N.eqb x (c - 32).

(** [/\.pdf$/i] *)
Definition re_pdf_extension : anchored :=
  Seq (Plain (Cat (Chr 46) (Cat (Cls (either_case 112))
                  (Cat (Cls (either_case 100)) (Cls (either_case 102))))))
      Eol.

(** [[-_]] *)
Definition hyphen_or_underscore (c : N) : bool := N.eqb c 45 || N.eqb c 95.

(** [file.name.replace(/\.pdf$/i, '').replace(/[-_]/g, ' ')] *)
Definition title_of_file (name : str) : str :=
  replace (Cls hyphen_or_underscore) (fun _ _ => [SP])
    (areplace_first re_pdf_extension (fun _ _ => []) true name).

(** The value of the title input after the import: it is written only
    when the input is empty. *)
Definition imported_title (current name : str) : str :=
  if truthy current then current else title_of_file name.

End PdfTitle.

(** * Properties *)

(** ** The matcher and the global replace *)

Module RegexFacts.
Import Js Regex.

Lemma starts_with_spec p s : starts_with p s = true ↔ ∃ t, s = p ++ t.
Proof.
  revert s. induction p as [|a p IH]; intros s; simpl.
  - split; [intros _; exists s; reflexivity|reflexivity].
  - destruct s as [|b s].
    + split; [discriminate|]. intros [t Ht]. discriminate.
    + rewrite andb_true_iff, N.eqb_eq, IH. split.
      * intros [-> [t ->]]. exists t. reflexivity.
      * intros [t [= -> ->]]. split; [reflexivity|]. exists t. reflexivity.
Qed.

Lemma starts_with_app p t : starts_with p (p ++ t) = true.
Proof. apply starts_with_spec. exists t. reflexivity. Qed.

(** The least number of units that a match of the pattern takes. *)
Fixpoint min_len (r : regex) : nat :=
  match r with
  | Eps => 0
  | Cls _ => 1
  | Lit l => length l
  | Rep _ lo _ => lo
  | Cat r1 r2 => min_len r1 + min_len r2
  | Alt r1 r2 => Nat.min (min_len r1) (min_len r2)
  | Grp r1 => min_len r1
  end.

(** The texts that a pattern can match (upper bounds of quantifiers
    are not recorded). *)
Fixpoint lang (r : regex) (m : str) : Prop :=
  match r with
  | Eps => m = []
  | Cls p => ∃ c, m = [c] ∧ p c = true
  | Lit l => m = l
  | Rep p lo _ => lo ≤ length m ∧ Forall (fun c => p c = true) m
  | Cat r1 r2 => ∃ m1 m2, m = m1 ++ m2 ∧ lang r1 m1 ∧ lang r2 m2
  | Alt r1 r2 => lang r1 m ∨ lang r2 m
  | Grp r1 => lang r1 m
  end.

Lemma lang_min_len r : ∀ m, lang r m → min_len r ≤ length m.
Proof.
  induction r as [|p|l|p lo hi|r1 IH1 r2 IH2|r1 IH1 r2 IH2|r1 IH1]; intros m; cbn [lang min_len].
  - intros ->. reflexivity.
  - intros (c & -> & _). reflexivity.
  - intros ->. reflexivity.
  - intros [H _]. exact H.
  - intros (m1 & m2 & -> & H1 & H2). rewrite length_app.
    apply IH1 in H1. apply IH2 in H2. lia.
  - intros [H|H]; [apply IH1 in H|apply IH2 in H]; lia.
  - apply IH1.
Qed.

Lemma greedy_consumes p k : ∀ s lo hi res,
  greedy p lo hi k s = Some res →
  ∃ m s', s = m ++ s' ∧ lo ≤ length m ∧ Forall (fun c => p c = true) m ∧ k s' = Some res.
Proof.
  induction s as [|c s IH]; intros lo hi res; cbn [greedy].
  - destruct lo; [|discriminate]. intros H. exists [], []. repeat split; auto.
  - assert (Hstop : match lo with 0 => k (c :: s) | S _ => None end = Some res →
      ∃ m s', c :: s = m ++ s' ∧ lo ≤ length m ∧ Forall (fun c => p c = true) m
              ∧ k s' = Some res).
    { destruct lo; [|discriminate]. intros H. exists [], (c :: s). repeat split; auto. }
    destruct (p c && room hi) eqn:E; [|exact Hstop].
    destruct (greedy p (Nat.pred lo) (dec hi) k s) as [r|] eqn:G; [|exact Hstop].
    intros [= ->]. apply IH in G as (m & s' & -> & Hlo & Hall & Hk).
    apply andb_true_iff in E as [Hc _].
    exists (c :: m), s'. repeat split; auto. simpl. lia.
Qed.

(** Whatever the continuation, a successful run hands it a suffix of the
    text and the captures it was given, with its own added behind; what
    it took before is a text of the pattern. *)
Lemma run_sound r : ∀ s caps k res,
  run r s caps k = Some res →
  ∃ m s' ext, s = m ++ s' ∧ lang r m ∧ k s' (caps ++ ext) = Some res.
Proof.
  induction r as [|p|l|p lo hi|r1 IH1 r2 IH2|r1 IH1 r2 IH2|r1 IH1];
    intros s caps k res; cbn [run lang].
  - intros H. exists [], s, []. rewrite app_nil_r. repeat split; auto.
  - destruct s as [|c s]; [discriminate|]. destruct (p c) eqn:E; [|discriminate].
    intros H. exists [c], s, []. rewrite app_nil_r. repeat split; eauto.
  - destruct (starts_with l s) eqn:E; [|discriminate].
    apply starts_with_spec in E as [t ->]. rewrite drop_app_length.
    intros H. exists l, t, []. rewrite app_nil_r. repeat split; auto.
  - intros H. apply greedy_consumes in H as (m & s' & -> & Hlo & Hall & Hk).
    exists m, s', []. rewrite app_nil_r. repeat split; auto.
  - intros H. apply IH1 in H as (m1 & s1 & ext1 & -> & H1 & H).
    apply IH2 in H as (m2 & s2 & ext2 & -> & H2 & H).
    exists (m1 ++ m2), s2, (ext1 ++ ext2). rewrite <- app_assoc, (app_assoc caps).
    repeat split; auto. exists m1, m2. auto.
  - destruct (run r1 s caps k) as [x|] eqn:E.
    + intros [= ->]. apply IH1 in E as (m & s' & ext & -> & H1 & H).
      exists m, s', ext. repeat split; auto.
    + intros H. apply IH2 in H as (m & s' & ext & -> & H2 & H).
      exists m, s', ext. repeat split; auto.
  - intros H. apply IH1 in H as (m & s' & ext & -> & H1 & H).
    eexists m, s', _. rewrite app_assoc. repeat split; eauto.
Qed.

Lemma exec_sound r s rest caps :
  exec r s = Some (rest, caps) → ∃ m, s = m ++ rest ∧ lang r m.
Proof.
  unfold exec. intros H. apply run_sound in H as (m & s' & ext & -> & Hm & [= -> _]).
  exists m. split; auto.
Qed.

Lemma exec_consumes r s rest caps :
  exec r s = Some (rest, caps) → ∃ m, s = m ++ rest ∧ min_len r ≤ length m.
Proof.
  intros H. apply exec_sound in H as (m & -> & Hm). exists m. split; [reflexivity|].
  apply lang_min_len, Hm.
Qed.

(** A greedy run over a stretch of units of the class that ends before
    a unit outside it (or at the end of the text) tries the whole
    stretch first. *)
Lemma greedy_whole p k m : ∀ rest lo res,
  Forall (fun c => p c = true) m →
  match rest with c :: _ => p c = false | [] => True end →
  k rest = Some res →
  lo ≤ length m →
  greedy p lo None k (m ++ rest) = Some res.
Proof.
  induction m as [|c m IH]; intros rest lo res Hall Hrest Hk Hlo.
  - simpl in Hlo. assert (lo = 0) as -> by lia. simpl.
    destruct rest as [|c rest]; [exact Hk|]. cbn [greedy]. rewrite Hrest. exact Hk.
  - apply Forall_cons_1 in Hall as [Hc Hall]. cbn [app greedy]. rewrite Hc. cbn [room andb dec].
    rewrite (IH rest (Nat.pred lo) res); auto. simpl in Hlo. lia.
Qed.

(** *** Unfolding the replace loop *)

Section Loop.
Context {S : Type}.
Variable r : regex.
Variable f : S -> str -> list str -> S * str.

Lemma replace_loop_skip (m rest : str) (st : S) :
  replace_loop r f (length m) st (m ++ rest) = replace_loop r f 0 st rest.
Proof. induction m as [|c m IH]; [reflexivity|exact IH]. Qed.

Lemma replace_loop_nil (st : S) :
  exec r [] = None → replace_loop r f 0 st [] = (st, []).
Proof. intros H. cbn [replace_loop]. rewrite H. reflexivity. Qed.

Lemma replace_loop_nomatch (c : N) (s : str) (st : S) :
  exec r (c :: s) = None →
  replace_loop r f 0 st (c :: s)
  = let '(st1, tl) := replace_loop r f 0 st s in (st1, c :: tl).
Proof. intros H. cbn [replace_loop]. rewrite H. reflexivity. Qed.

Lemma replace_loop_match (m rest : str) (caps : list str) (st : S) :
  exec r (m ++ rest) = Some (rest, caps) → m ≠ [] →
  replace_loop r f 0 st (m ++ rest)
  = let '(st1, out) := f st m caps in
    let '(st2, tl) := replace_loop r f 0 st1 rest in (st2, out ++ tl).
Proof.
  intros H Hm. destruct m as [|c m]; [congruence|].
  cbn [app replace_loop]. cbn [app] in H. rewrite H.
  replace (take (length (c :: m ++ rest) - length rest) (c :: m ++ rest)) with (c :: m).
  2:{ change (c :: m ++ rest) with ((c :: m) ++ rest). rewrite length_app.
      replace (length (c :: m) + length rest - length rest) with (length (c :: m)) by lia.
      rewrite take_app_length. reflexivity. }
  destruct (f st (c :: m) caps) as [st1 out]. cbn [length].
  rewrite replace_loop_skip. reflexivity.
Qed.

End Loop.

Section Pure.
Variable r : regex.
Variable f : str -> list str -> str.

Lemma replace_nil : exec r [] = None → replace r f [] = [].
Proof. intros H. unfold replace. rewrite replace_loop_nil by exact H. reflexivity. Qed.

Lemma replace_nomatch c s :
  exec r (c :: s) = None → replace r f (c :: s) = c :: replace r f s.
Proof.
  intros H. unfold replace. rewrite replace_loop_nomatch by exact H.
  destruct (replace_loop _ _ 0 tt s) as [[] tl]. reflexivity.
Qed.

Lemma replace_match m rest caps :
  exec r (m ++ rest) = Some (rest, caps) → m ≠ [] →
  replace r f (m ++ rest) = f m caps ++ replace r f rest.
Proof.
  intros H Hm. unfold replace. rewrite (replace_loop_match _ _ m rest caps) by assumption.
  destruct (replace_loop _ _ 0 tt rest) as [[] tl]. reflexivity.
Qed.

End Pure.

(** Induction along the scan of a pattern whose matches are never
    empty: at each position either the pattern fails and one unit is
    copied, or it matches a non-empty stretch. *)
Lemma scan_ind (r : regex) (P : str → Prop) :
  1 ≤ min_len r →
  P [] →
  (∀ c s, exec r (c :: s) = None → P s → P (c :: s)) →
  (∀ m rest caps, m ≠ [] → exec r (m ++ rest) = Some (rest, caps) → P rest → P (m ++ rest)) →
  ∀ s, P s.
Proof.
  intros Hmin Hnil Hstep Hmatch s.
  induction s as [s IH] using (induction_ltof1 _ (@length N)). unfold ltof in IH.
  destruct s as [|c s]; [exact Hnil|].
  destruct (exec r (c :: s)) as [[rest caps]|] eqn:E.
  - destruct (exec_consumes _ _ _ _ E) as (m & Hs & Hlen).
    rewrite Hs in E |- *. apply (Hmatch m rest caps).
    + intros ->. simpl in Hlen. lia.
    + exact E.
    + apply IH. apply (f_equal (@length N)) in Hs. rewrite length_app in Hs.
      simpl in Hs |- *. lia.
  - apply Hstep; [exact E|]. apply IH. simpl. lia.
Qed.

Lemma exec_nil_min_len r : 1 ≤ min_len r → exec r [] = None.
Proof.
  intros Hmin. destruct (exec r []) as [[rest caps]|] eqn:E; [|reflexivity].
  apply exec_consumes in E as (m & Hs & Hlen).
  symmetry in Hs. apply app_eq_nil in Hs as [-> _]. simpl in Hlen. lia.
Qed.

Lemma test_false_exec r s : test r s = false → exec r s = None.
Proof. unfold test. destruct (exec r s); [discriminate|reflexivity]. Qed.

(** Nothing changes where the pattern matches nowhere. *)
Lemma replace_loop_no_occurrence {S} r (f : S → str → list str → S * str) st s :
  occurs r s = false → replace_loop r f 0 st s = (st, s).
Proof.
  induction s as [|c s IH]; cbn [occurs]; intros H; apply orb_false_iff in H as [H1 H2].
  - apply replace_loop_nil, test_false_exec, H1.
  - rewrite replace_loop_nomatch by (apply test_false_exec, H1).
    rewrite IH by exact H2. reflexivity.
Qed.

Lemma replace_no_occurrence r f s :
  occurs r s = false → replace r f s = s.
Proof.
  induction s as [|c s IH]; cbn [occurs]; intros H; apply orb_false_iff in H as [H1 H2].
  - apply replace_nil. unfold test in H1. destruct (exec r []); [discriminate|reflexivity].
  - rewrite replace_nomatch, IH; auto.
    unfold test in H1. destruct (exec r (c :: s)); [discriminate|reflexivity].
Qed.

End RegexFacts.

(** ** Stable sorting *)

Module SortingFacts.
Import Sorting.

Section Facts.
Context {A : Type}.
Variable cmp : A -> A -> Q.

(** The order that the comparator stands for. *)
Variable le : A -> A -> Prop.
Hypothesis cmp_spec : ∀ a b, Qle_bool (cmp a b) 0 = true ↔ le a b.
Hypothesis le_total : ∀ a b, le a b ∨ le b a.
Hypothesis le_trans : ∀ a b c, le a b → le b c → le a c.

Lemma insert_sorted_perm a l : insert_sorted cmp a l ≡ₚ a :: l.
Proof.
  induction l as [|b l IH]; simpl; [reflexivity|].
  destruct (Qle_bool (cmp a b) 0); [reflexivity|].
  rewrite IH. apply Permutation_swap.
Qed.

Lemma sort_perm l : sort cmp l ≡ₚ l.
Proof.
  induction l as [|a l IH]; simpl; [reflexivity|].
  rewrite insert_sorted_perm, IH. reflexivity.
Qed.

Lemma insert_sorted_sorted a l :
  StronglySorted le l → StronglySorted le (insert_sorted cmp a l).
Proof.
  induction 1 as [|b l Hs IH Hb]; simpl.
  - repeat constructor.
  - destruct (Qle_bool (cmp a b) 0) eqn:E.
    + apply cmp_spec in E. constructor; [constructor; assumption|].
      constructor; [exact E|].
      eapply Forall_impl; [exact Hb|]. intros c Hc. eapply le_trans; eassumption.
    + assert (Hba : le b a).
      { destruct (le_total a b) as [H|H]; [|exact H].
        apply cmp_spec in H. congruence. }
      constructor; [exact IH|].
      rewrite (insert_sorted_perm a l). constructor; assumption.
  Qed.

Lemma sort_sorted l : StronglySorted le (sort cmp l).
Proof.
  induction l as [|a l IH]; simpl; [constructor|].
  apply insert_sorted_sorted, IH.
Qed.

(** Stability, for a class [P] of elements that the order does not
    tell apart: two members of the class are never strictly ordered. *)
Variable P : A -> bool.
Hypothesis P_class : ∀ a b, P a = true → P b = true → le a b.

Lemma insert_sorted_stable a l :
  List.filter P (insert_sorted cmp a l) = List.filter P (a :: l).
Proof.
  induction l as [|b l IH]; [reflexivity|].
  cbn [insert_sorted]. destruct (Qle_bool (cmp a b) 0) eqn:E; [reflexivity|].
  cbn [List.filter] in *. rewrite IH.
  destruct (P a) eqn:Ea, (P b) eqn:Eb; try reflexivity.
  exfalso. pose proof (P_class a b Ea Eb) as H. apply cmp_spec in H. congruence.
Qed.

Lemma sort_stable l : List.filter P (sort cmp l) = List.filter P l.
Proof.
  induction l as [|a l IH]; [reflexivity|].
  cbn [sort]. rewrite insert_sorted_stable. cbn [List.filter]. rewrite IH. reflexivity.
Qed.

(** A list that is in order already is left as it is. *)
Lemma sort_sorted_id l : StronglySorted le l → sort cmp l = l.
Proof.
  induction 1 as [|a l Hs IH Ha]; [reflexivity|].
  cbn [sort]. rewrite IH. destruct l as [|b l]; [reflexivity|].
  cbn [insert_sorted]. apply Forall_cons_1 in Ha as [Hab _].
  apply cmp_spec in Hab. rewrite Hab. reflexivity.
Qed.

End Facts.

End SortingFacts.

(** ** Rounding to binary64 *)

Module DoubleFacts.
Import Double.

Local Open Scope Q_scope.

Lemma two_pos (k : Z) : 0 < 2 ^ k.
Proof. apply Qpower_0_lt. reflexivity. Qed.

Lemma two_not_0 : ~ 2 == 0.
Proof. discriminate. Qed.

Lemma two_nat (k : Z) : (0 <= k)%Z -> 2 ^ k == inject_Z (2 ^ k).
Proof. intros H. rewrite Zpower_Qpower by exact H. reflexivity. Qed.

(** The numerator and the denominator between powers of two. *)
Lemma ratio_bounds (q : Q) :
  0 < q ->
  let a := Z.log2 (Qnum q) in
  let b := Z.log2 (Zpos (Qden q)) in
  2 ^ (a - b - 1) <= q /\ q < 2 ^ (a - b + 1).
Proof.
  intros Hq a b. destruct q as [n d]. cbn [Qnum Qden] in *.
  assert (Hn : (0 < n)%Z) by (unfold Qlt in Hq; cbn in Hq; lia).
  destruct (Z.log2_spec n Hn) as [Ha1 Ha2]. fold a in Ha1, Ha2.
  destruct (Z.log2_spec (Zpos d) eq_refl) as [Hb1 Hb2]. fold b in Hb1, Hb2.
  assert (Ha0 : (0 <= a)%Z) by apply Z.log2_nonneg.
  assert (Hb0 : (0 <= b)%Z) by apply Z.log2_nonneg.
  replace (a - b - 1)%Z with (a - (b + 1))%Z by lia.
  replace (a - b + 1)%Z with ((a + 1) - b)%Z by lia.
  rewrite !Qpower_minus by exact two_not_0.
  rewrite !two_nat by lia.
  rewrite <- !Z.add_1_r in *.
  assert (H1 : (0 < 2 ^ (b + 1))%Z) by lia.
  assert (H2 : (0 < 2 ^ b)%Z) by lia.
  split.
  - apply Qle_shift_div_r; [change 0 with (inject_Z 0); rewrite <- Zlt_Qlt; exact H1|].
    unfold Qle, Qmult, inject_Z. cbn [Qnum Qden]. nia.
  - apply Qlt_shift_div_l; [change 0 with (inject_Z 0); rewrite <- Zlt_Qlt; exact H2|].
    unfold Qlt, Qmult, inject_Z. cbn [Qnum Qden]. nia.
Qed.

Lemma ilog2_spec (q : Q) : 0 < q -> 2 ^ ilog2 q <= q /\ q < 2 ^ (ilog2 q + 1).
Proof.
  intros Hq. destruct (ratio_bounds q Hq) as [Hlo Hhi]. cbn zeta in Hlo, Hhi.
  unfold ilog2. set (k := (Z.log2 (Qnum q) - Z.log2 (Z.pos (Qden q)))%Z) in *.
  destruct (Qle_bool (2 ^ k) q) eqn:E.
  - apply Qle_bool_iff in E. split; assumption.
  - split; [exact Hlo|]. replace (k - 1 + 1)%Z with k by lia.
    apply Qnot_le_lt. intros H. apply Qle_bool_iff in H. congruence.
Qed.

(** The binade of a number is unique. *)
Lemma binade_unique (q : Q) (e f : Z) :
  2 ^ e <= q -> q < 2 ^ (e + 1) -> 2 ^ f <= q -> q < 2 ^ (f + 1) -> e = f.
Proof.
  intros He1 He2 Hf1 Hf2.
  assert (H1 : (e < f + 1)%Z).
  { apply (Qpower_lt_compat_l_inv 2); [|reflexivity]. eapply Qle_lt_trans; eassumption. }
  assert (H2 : (f < e + 1)%Z).
  { apply (Qpower_lt_compat_l_inv 2); [|reflexivity]. eapply Qle_lt_trans; eassumption. }
  lia.
Qed.

Lemma ilog2_comp_pos : forall p q, p == q -> 0 < p -> ilog2 p = ilog2 q.
Proof.
  intros p q E Hp. assert (Hq : 0 < q) by (rewrite <- E; exact Hp).
  destruct (ilog2_spec p Hp) as [H1 H2]. destruct (ilog2_spec q Hq) as [H3 H4].
  apply (binade_unique p); [exact H1|exact H2| |].
  - apply (Qle_trans _ q); [exact H3|]. rewrite E. apply Qle_refl.
  - apply (Qle_lt_trans _ q); [|exact H4]. rewrite E. apply Qle_refl.
Qed.

Lemma Qabs_pos_nonzero (q : Q) : ~ q == 0 -> 0 < Qabs q.
Proof.
  intros H. destruct (Qlt_le_dec 0 (Qabs q)) as [Hl|Hl]; [exact Hl|].
  exfalso. apply H. apply Qabs_Qle_condition in Hl. lra.
Qed.

Lemma last_place_comp (p q : Q) : p == q -> ~ p == 0 -> last_place p = last_place q.
Proof.
  intros E Hp. unfold last_place. f_equal. f_equal.
  apply ilog2_comp_pos; [rewrite E; reflexivity|apply Qabs_pos_nonzero, Hp].
Qed.

Lemma nearest_even_comp (p q : Q) : p == q -> nearest_even p = nearest_even q.
Proof.
  intros E. unfold nearest_even. rewrite (Qfloor_comp _ _ E).
  assert (Hc : (p - inject_Z (Qfloor q) ?= 1 # 2) = (q - inject_Z (Qfloor q) ?= 1 # 2))
    by (rewrite E; reflexivity).
  rewrite Hc. reflexivity.
Qed.

(** Rounding sees the value of a rational, not its numerator and denominator. *)
Lemma b64_comp (p q : Q) : p == q -> b64 p = b64 q.
Proof.
  intros E. unfold b64.
  assert (Hz : Qeq_bool p 0 = Qeq_bool q 0).
  { destruct (Qeq_bool q 0) eqn:Eq.
    - apply Qeq_bool_iff in Eq. apply Qeq_bool_iff. rewrite E. exact Eq.
    - destruct (Qeq_bool p 0) eqn:Ep; [|reflexivity].
      apply Qeq_bool_iff in Ep. rewrite E in Ep. apply Qeq_bool_iff in Ep. congruence. }
  rewrite Hz. destruct (Qeq_bool q 0) eqn:Eq; [reflexivity|].
  assert (Hp : ~ p == 0).
  { intros H. rewrite E in H. apply Qeq_bool_iff in H. congruence. }
  cbn zeta. rewrite (last_place_comp p q E Hp).
  rewrite (nearest_even_comp (p / 2 ^ last_place q) (q / 2 ^ last_place q))
    by (rewrite E; reflexivity).
  reflexivity.
Qed.

Lemma nearest_even_Z (q : Q) (z : Z) : q == inject_Z z -> nearest_even q = z.
Proof.
  intros E. rewrite (nearest_even_comp _ _ E). unfold nearest_even.
  rewrite Qfloor_Z.
  assert (H : (inject_Z z - inject_Z z ?= 1 # 2) = Lt).
  { apply Qlt_alt. setoid_replace (inject_Z z - inject_Z z) with 0 using relation Qeq by ring. reflexivity. }
  rewrite H. reflexivity.
Qed.

(** A number with a mantissa below 2^53 at an exponent from -1074 on is
    a double, and rounding leaves it alone. *)
Lemma b64_exact (q : Q) (m k : Z) :
  q == inject_Z m * 2 ^ k -> (Z.abs m < 2 ^ 53)%Z -> (-1074 <= k)%Z -> b64 q == q.
Proof.
  intros E Hm Hk. unfold b64. destruct (Qeq_bool q 0) eqn:Ez.
  { apply Qeq_bool_iff in Ez. rewrite Ez. reflexivity. }
  assert (Hq : ~ q == 0) by (intros H; apply Qeq_bool_iff in H; congruence).
  cbn zeta. rewrite Qred_correct.
  set (u := last_place q).
  assert (Hu : (u <= k)%Z).
  { unfold u, last_place. apply Z.max_lub; [|exact Hk].
    destruct (ilog2_spec (Qabs q) (Qabs_pos_nonzero q Hq)) as [Hlo _].
    assert (Hlt : 2 ^ ilog2 (Qabs q) < 2 ^ (53 + k)).
    { eapply Qle_lt_trans; [exact Hlo|]. rewrite E, Qabs_Qmult.
      rewrite (Qabs_pos (2 ^ k)) by (apply Qlt_le_weak, two_pos).
      rewrite Qpower_plus by exact two_not_0.
      apply Qmult_lt_r; [apply two_pos|].
      rewrite (two_nat 53) by lia. change (Qabs (inject_Z m)) with (inject_Z (Z.abs m)).
      rewrite <- Zlt_Qlt. exact Hm. }
    apply Qpower_lt_compat_l_inv in Hlt; [lia|reflexivity]. }
  assert (Hsplit : 2 ^ k == inject_Z (2 ^ (k - u)) * 2 ^ u).
  { rewrite <- two_nat by lia. rewrite <- Qpower_plus by exact two_not_0.
    replace (k - u + u)%Z with k by lia. reflexivity. }
  assert (Hint : q / 2 ^ u == inject_Z (m * 2 ^ (k - u))).
  { rewrite E, Hsplit, inject_Z_mult. field. intros H.
    pose proof (two_pos u) as Hp. rewrite H in Hp. discriminate. }
  rewrite (nearest_even_Z _ _ Hint). rewrite E, Hsplit, inject_Z_mult. ring.
Qed.

Lemma b64_exact_eq (q : Q) (m k : Z) :
  q == inject_Z m * 2 ^ k -> (Z.abs m < 2 ^ 53)%Z -> (-1074 <= k)%Z -> b64 q = Qred q.
Proof.
  intros E Hm Hk. pose proof (b64_exact q m k E Hm Hk) as H.
  unfold b64 in *. destruct (Qeq_bool q 0).
  - change 0 with (Qred 0). apply Qred_complete, H.
  - cbn zeta in *. rewrite Qred_correct in H. apply Qred_complete, H.
Qed.

Lemma nearest_even_nonneg (q : Q) : 0 <= q -> (0 <= nearest_even q)%Z.
Proof.
  intros H. pose proof (Qfloor_resp_le 0 q H) as Hf. change (Qfloor 0) with 0%Z in Hf.
  unfold nearest_even.
  destruct (q - inject_Z (Qfloor q) ?= 1 # 2); [destruct (Z.even (Qfloor q))| |]; lia.
Qed.

Lemma b64_nonneg (q : Q) : 0 <= q -> 0 <= b64 q.
Proof.
  intros H. unfold b64. destruct (Qeq_bool q 0); [apply Qle_refl|].
  cbn zeta. rewrite Qred_correct. apply Qmult_le_0_compat.
  - change 0 with (inject_Z 0). rewrite <- Zle_Qle. apply nearest_even_nonneg.
    apply Qle_shift_div_l; [apply two_pos|]. lra.
  - apply Qlt_le_weak, two_pos.
Qed.

Lemma b64_0 (q : Q) : q == 0 -> b64 q = 0.
Proof. intros H. unfold b64. apply Qeq_bool_iff in H. rewrite H. reflexivity. Qed.


(** The value of a finite double of the kernel. *)
Definition value_of (f : PrimFloat.float) : option Q :=
  match FloatOps.Prim2SF f with
  | SpecFloat.S754_zero _ => Some 0
  | SpecFloat.S754_finite s m e =>
      Some (Qred ((if s then -1 else 1) * inject_Z (Zpos m) * 2 ^ e))
  | _ => None
  end.

(** The double of an integer. *)
Definition of_Z (n : Z) : PrimFloat.float :=
  FloatOps.SF2Prim (SpecFloat.binary_normalize FloatOps.prec FloatOps.emax n 0 false).

(** The double that a decimal literal with one place denotes. *)
Definition tenths (n : Z) : PrimFloat.float := PrimFloat.div (of_Z n) (of_Z 10).

(** The rounding agrees with the binary64 arithmetic of the kernel's
    floats on sums, differences, products and quotients that round up,
    round down, fall half way between two doubles or end in the
    subnormal range. *)
Lemma b64_agrees_with_binary64 :
  value_of (PrimFloat.add (tenths 1) (tenths 2)) = Some (fadd (b64 (1 # 10)) (b64 (2 # 10)))
  ∧ value_of (PrimFloat.sub (tenths 72) (of_Z 6)) = Some (fsub (b64 (72 # 10)) 6)
  ∧ value_of (PrimFloat.mul (of_Z 6) (tenths 2)) = Some (fmul 6 lit_0_2)
  ∧ value_of (PrimFloat.mul (of_Z 3) (tenths 2)) = Some (fmul 3 lit_0_2)
  ∧ value_of (PrimFloat.sub (tenths 166) (tenths 1)) = Some (fsub (b64 (166 # 10)) (b64 (1 # 10)))
  ∧ value_of (PrimFloat.sub (tenths 31) (tenths 1)) = Some (fsub (b64 (31 # 10)) (b64 (1 # 10)))
  ∧ value_of (PrimFloat.div (of_Z 1) (of_Z 3)) = Some (fdiv 1 3)
  ∧ value_of (PrimFloat.div (of_Z (2 ^ 53 + 1)) (of_Z 1)) = Some (b64 (inject_Z (2 ^ 53 + 1)))
  ∧ value_of (PrimFloat.mul (FloatOps.SF2Prim (SpecFloat.S754_finite false 3 (-1074))) (tenths 5))
    = Some (fmul (3 * 2 ^ (-1074)) (1 # 2))
  ∧ value_of (PrimFloat.mul (FloatOps.SF2Prim (SpecFloat.S754_finite false 1 (-1074))) (tenths 5))
    = Some (fmul (2 ^ (-1074)) (1 # 2)).
Proof. repeat split; vm_compute; reflexivity. Qed.

End DoubleFacts.

(** ** The transform stack *)

Module PdfImagesFacts.
Import Js PdfText PdfImages.

Lemma paint_keeps_stack name s s' :
  paint name s = Some s' → ctmStack s' = ctmStack s.
Proof.
  unfold paint. destruct (last (ctmStack s)) as [top|]; simpl; [|discriminate].
  destruct (_ && _); intros [= <-]; reflexivity.
Qed.

Lemma last_is_Some {A} (l : list A) : (1 <= length l)%nat → is_Some (last l).
Proof.
  destruct l as [|a l] using rev_ind; simpl; [lia|].
  intros _. rewrite last_snoc. eexists; reflexivity.
Qed.

(** A step from a non-empty stack never throws and leaves the stack
    non-empty. *)
Lemma scan_step_nonempty s op :
  (1 <= length (ctmStack s))%nat →
  ∃ s', scan_step s op = Some s' ∧ (1 <= length (ctmStack s'))%nat.
Proof.
  intros Hlen. destruct (last_is_Some _ Hlen) as [top Htop].
  destruct op; simpl.
  - rewrite Htop; simpl. eexists; split; [reflexivity|].
    simpl. rewrite length_app; simpl. lia.
  - destruct (1 <? length (ctmStack s))%nat eqn:E.
    + eexists; split; [reflexivity|]. simpl.
      apply Nat.ltb_lt in E. rewrite removelast_firstn_len, length_take. lia.
    + eexists; split; [reflexivity|]. exact Hlen.
  - rewrite Htop; simpl. eexists; split; [reflexivity|].
    simpl. rewrite length_insert. exact Hlen.
  - unfold paint. rewrite Htop; simpl.
    destruct (_ && _); eexists; (split; [reflexivity|]); exact Hlen.
  - unfold paint. rewrite Htop; simpl.
    destruct (_ && _); eexists; (split; [reflexivity|]); exact Hlen.
  - eexists; split; [reflexivity|]. exact Hlen.
Qed.

Lemma scan_ops_nonempty ops : ∀ s,
  (1 <= length (ctmStack s))%nat →
  ∃ s', scan_ops s ops = Some s' ∧ (1 <= length (ctmStack s'))%nat.
Proof.
  induction ops as [|op ops IH]; intros s Hlen; simpl.
  - eexists; split; [reflexivity|exact Hlen].
  - destruct (scan_step_nonempty s op Hlen) as (s1 & -> & H1). simpl.
    apply IH, H1.
Qed.

(** C8.  Whatever the operator list, well-formed or with more restores
    than saves, the scan runs to its end without throwing and the
    transform stack holds at least one matrix afterwards; as every prefix
    of an operator list is an operator list, this holds at every point
    of the scan.  A restore met when a single matrix is left changes
    nothing. *)
Theorem ctm_stack_never_below_one :
  (∀ ops : list operator,
     ∃ s, scan_ops initial ops = Some s ∧ (1 <= length (ctmStack s))%nat)
  ∧ (∀ (m : matrix) (seen : list imageOp),
       scan_step (Scan [m] seen) OpRestore = Some (Scan [m] seen)).
Proof.
  split.
  - intros ops. apply scan_ops_nonempty. simpl. lia.
  - intros m seen. reflexivity.
Qed.

(** C7.  For save, transform by the translation (0, 100), paint [ref1],
    restore, paint [ref2], from the identity matrix: the scan records
    [ref1] at y = 100 and [ref2] at y = 0, and ends with the identity
    alone on the stack; the sorted positions list them in that order. *)
Theorem transform_stack_walk (ref1 ref2 : str) :
  truthy ref1 = true → truthy ref2 = true → ref1 ≠ ref2 →
  let ops := [OpSave; OpTransform (Matrix 1 0 0 1 0 100); OpPaintImageXObject ref1;
              OpRestore; OpPaintImageXObject ref2] in
  scan_ops initial ops = Some (Scan [identity] [ImageOp ref1 100; ImageOp ref2 0])
  ∧ image_positions ops = Some [ImageOp ref1 100; ImageOp ref2 0].
Proof.
  intros H1 H2 Hne ops.
  assert (Hscan : scan_ops initial ops
                  = Some (Scan [identity] [ImageOp ref1 100; ImageOp ref2 0])).
  { unfold ops, initial. cbn [scan_ops scan_step mbind option_bind ctmStack imageOps last].
    cbn [app length Nat.sub]. cbn [list_insert insert].
    unfold paint. cbn [ctmStack imageOps last mbind option_bind existsb negb andb].
    rewrite H1. cbn [andb].
    cbn [scan_ops scan_step mbind option_bind ctmStack imageOps last length Nat.ltb Nat.leb
         removelast app].
    unfold paint. cbn [ctmStack imageOps last mbind option_bind existsb op_name orb].
    unfold str_eqb. rewrite (bool_decide_eq_false_2 _ Hne). cbn [negb andb orb].
    rewrite H2. cbn [andb app scan_ops]. reflexivity. }
  split; [exact Hscan|].
  unfold image_positions. rewrite Hscan. reflexivity.
Qed.

Lemma transform_stack_walk_witness :
  let ops := [OpSave; OpTransform (Matrix 1 0 0 1 0 100);
              OpPaintImageXObject (lit "ref1"); OpRestore;
              OpPaintImageXObject (lit "ref2")] in
  scan_ops initial ops
    = Some (Scan [identity] [ImageOp (lit "ref1") 100; ImageOp (lit "ref2") 0])
  ∧ image_positions ops = Some [ImageOp (lit "ref1") 100; ImageOp (lit "ref2") 0].
Proof.
  apply (transform_stack_walk (lit "ref1") (lit "ref2")).
  - reflexivity.
  - reflexivity.
  - discriminate.
Defined.

End PdfImagesFacts.

(** ** Page assembly *)

Module PageAssemblyFacts.
Import Js PdfText PdfImages PageAssembly.

Local Open Scope Q_scope.

(** Higher on the page first. *)
Definition above (a b : contentItem) : Prop := item_y b <= item_y a.

Lemma desc_cmp_spec (a b : contentItem) :
  Qle_bool (item_y b - item_y a) 0 = true ↔ above a b.
Proof. unfold above. rewrite Qle_bool_iff. split; intros H; lra. Qed.

Lemma above_total a b : above a b ∨ above b a.
Proof. unfold above. destruct (Qlt_le_dec (item_y a) (item_y b)); [right|left]; lra. Qed.

Lemma above_trans a b c : above a b → above b c → above a c.
Proof. unfold above. intros; lra. Qed.

Lemma render_items_app l1 l2 :
  render_items (l1 ++ l2) = render_items l1 ++ render_items l2.
Proof.
  induction l1 as [|i l1 IH]; [reflexivity|].
  cbn [render_items app]. rewrite IH, app_assoc. reflexivity.
Qed.

(** An item that adds to the page's Markdown: its content is not blank. *)
Definition shown (i : contentItem) : bool :=
  truthy (content i) && truthy (trim (content i)).

(** What a shown item adds: its content and an empty line. *)
Definition item_markdown (i : contentItem) : str := content i ++ [NL; NL].

Lemma render_items_shown l :
  render_items l = concat (map item_markdown (List.filter shown l)).
Proof.
  induction l as [|i l IH]; [reflexivity|].
  cbn [render_items List.filter]. fold (shown i). rewrite IH.
  destruct (shown i); reflexivity.
Qed.

Lemma pages_markdown_document (pages : list page) : ∀ counter,
  pages_markdown counter pages = render_items (document_content counter pages).
Proof.
  induction pages as [|p pages IH]; intros counter; [reflexivity|].
  cbn [pages_markdown document_content]. rewrite render_items_app, IH. reflexivity.
Qed.

(** The entry that stands for a text block: its text at the block's
    [y]. *)
Definition block_entry (b : block) : contentItem :=
  ContentItem TypeText (default 0 (block_y b)) (text b) None.

(** The entry that stands for the [k]-th image of a page: the centered
    image tag at the image's position, numbered from the counter on. *)
Definition image_entry (counter k : nat) (ip : image * Q) : contentItem :=
  ContentItem TypeImage (snd ip) (centeredImage (dataUrl (fst ip)) (counter + k))
              (Some (counter + k)%nat).

Lemma image_items_entries (l : list (image * Q)) : ∀ counter,
  image_items counter l = imap (image_entry counter) l.
Proof.
  induction l as [|[img pos] l IH]; intros counter; [reflexivity|].
  cbn [image_items imap]. rewrite IH. unfold image_entry at 2. cbn [fst snd].
  rewrite Nat.add_0_r. f_equal. apply imap_ext. intros k ip _.
  unfold image_entry, compose. rewrite Nat.add_succ_r. reflexivity.
Qed.

(** C6.  The sequence assembled for a page holds an entry for each of
    the page's text blocks and for each of its images and nothing else:
    it is a rearrangement of the blocks' entries followed by the images'
    entries, in descending order of [y], and the entries of every one
    vertical position stand in the order in which they were appended
    (the sort is stable).  Text
    A at 500, image I at 650, text B at 500, appended in that order, come
    out as I, A, B.  The Markdown of a document is made of the pages'
    sequences put end to end in page order: the content of every entry
    that is not blank, each followed by an empty line, with nothing else
    between two entries or two pages. *)
Theorem page_assembly_order :
  (∀ (counter : nat) (p : page),
     let appended := map block_entry (extractTextBlocks (textContent p))
                     ++ imap (image_entry counter) (page_images counter p) in
     page_content counter p ≡ₚ appended
     ∧ StronglySorted above (page_content counter p)
     ∧ ∀ v : Q,
         List.filter (fun i => Qeq_bool (item_y i) v) (page_content counter p)
         = List.filter (fun i => Qeq_bool (item_y i) v) appended)
  ∧ (∀ (a i b : str) (n : nat),
       sort_content [ContentItem TypeText 500 a None;
                     ContentItem TypeImage 650 i (Some n);
                     ContentItem TypeText 500 b None]
       = [ContentItem TypeImage 650 i (Some n);
          ContentItem TypeText 500 a None;
          ContentItem TypeText 500 b None])
  ∧ (∀ (counter : nat) (p : page) (pages : list page),
       document_content counter [] = []
       ∧ document_content counter (p :: pages)
         = page_content counter p
           ++ document_content (counter + length (page_images counter p)) pages)
  ∧ (∀ (counter : nat) (pages : list page),
       pages_markdown counter pages
       = concat (map item_markdown (List.filter shown (document_content counter pages)))).
Proof.
  split; [|split; [|split]].
  - intros counter p appended. unfold page_content. rewrite image_items_entries.
    change (map text_item) with (map block_entry). fold appended. unfold sort_content.
    split; [|split].
    + apply SortingFacts.sort_perm.
    + apply SortingFacts.sort_sorted.
      * exact desc_cmp_spec.
      * exact above_total.
      * exact above_trans.
    + intros v. apply SortingFacts.sort_stable with (le := above).
      * exact desc_cmp_spec.
      * intros a b Ha Hb. apply Qeq_bool_iff in Ha, Hb. unfold above. lra.
  - intros a i b n. reflexivity.
  - intros counter p pages. split; reflexivity.
  - intros counter pages. rewrite pages_markdown_document. apply render_items_shown.
Qed.

End PageAssemblyFacts.

(** ** DOCX normaliser: merged lists and their numbering *)

Module DocxFacts.
Import Js Regex Docx.

(** A list item element, from its attributes and child nodes. *)
Definition li_of (item : list (string * str) * list node) : node :=
  Element "li" (fst item) (snd item).

(** The lines that an ordered list gives for one item: the numbered line
    of the item's own text, then its nested lists. *)
Definition ordered_item (depth number : nat) (item : list (string * str) * list node) : str :=
  repeat_str (lit "    ") depth ++ decimal number ++ lit ". "
  ++ trim (li_text processNode (snd item)) ++ [NL]
  ++ li_nested processListItems depth (snd item).

Lemma list_items_ordered depth (items : list (list (string * str) * list node)) :
  ∀ itemNumber,
    list_items processNode processListItems "ol" depth itemNumber (map li_of items)
    = concat (imap (fun i item => ordered_item depth (itemNumber + i) item) items).
Proof.
  induction items as [|[a kids] items IH]; intros n; [reflexivity|].
  cbn [map li_of fst snd list_items String.eqb Ascii.eqb Bool.eqb imap concat].
  cbn [String.eqb Ascii.eqb Bool.eqb]. rewrite IH.
  unfold ordered_item at 2, item_line. cbn [fst snd String.eqb Ascii.eqb Bool.eqb].
  rewrite Nat.add_0_r. rewrite <- !app_assoc.
  repeat (apply (f_equal2 (@app N)); [reflexivity|]).
  apply (f_equal (@concat N)), imap_ext. intros i x _. cbn. f_equal. lia.
Qed.

(** A node that [container.children] leaves out. *)
Definition not_element (n : node) : Prop :=
  match n with Element _ _ _ => False | _ => True end.

(** The nodes between two element children are passed over and stay. *)
Lemma merge_from_between between' : ∀ tag attrs kids between rest,
  Forall not_element between' →
  merge_from tag attrs kids between (between' ++ rest)
  = merge_from tag attrs kids (between ++ between') rest.
Proof.
  induction between' as [|n between' IH]; intros tag attrs kids between rest Hb.
  - rewrite app_nil_r. reflexivity.
  - apply Forall_cons_1 in Hb as [Hn Hb]. cbn [app].
    destruct n as [t|? ? ?|]; [|contradiction|]; cbn [merge_from];
      rewrite IH by exact Hb; rewrite <- app_assoc; reflexivity.
Qed.

(** Two ordered lists with only text or comments between them, met by
    the loop in whatever state: the loop goes on as if they were one
    list. *)
Lemma merge_from_pair (a1 a2 : list (string * str)) (kids1 kids2 between post : list node)
    (pre : list node) : ∀ tag attrs kids btw,
  Forall not_element between →
  merge_from tag attrs kids btw
    (pre ++ Element "ol" a1 kids1 :: between ++ Element "ol" a2 kids2 :: post)
  = merge_from tag attrs kids btw
      (pre ++ Element "ol" a1 (kids1 ++ kids2) :: between ++ post).
Proof.
  induction pre as [|n pre IH]; intros tag attrs kids btw Hb.
  - cbn [app merge_from]. destruct (mergeable tag "ol") eqn:E.
    + rewrite !merge_from_between by exact Hb. cbn [merge_from]. rewrite E.
      rewrite <- app_assoc. reflexivity.
    + rewrite !merge_from_between by exact Hb. cbn [merge_from].
      change (mergeable "ol" "ol") with true. cbn iota. reflexivity.
  - cbn [app]. destruct n as [t|tag' attrs' kids'|]; cbn [merge_from].
    + apply IH, Hb.
    + destruct (mergeable tag tag'); [apply IH, Hb|]. rewrite IH by exact Hb. reflexivity.
    + apply IH, Hb.
Qed.

Lemma merge_pair (a1 a2 : list (string * str)) (kids1 kids2 between post : list node)
    (pre : list node) :
  Forall not_element between →
  mergeConsecutiveLists
    (pre ++ Element "ol" a1 kids1 :: between ++ Element "ol" a2 kids2 :: post)
  = mergeConsecutiveLists (pre ++ Element "ol" a1 (kids1 ++ kids2) :: between ++ post).
Proof.
  intros Hb. induction pre as [|n pre IH].
  - cbn [app mergeConsecutiveLists]. rewrite !merge_from_between by exact Hb.
    cbn [merge_from]. change (mergeable "ol" "ol") with true. cbn iota. reflexivity.
  - cbn [app]. destruct n as [t|tag attrs kids|]; cbn [mergeConsecutiveLists].
    + rewrite IH. reflexivity.
    + apply merge_from_pair, Hb.
    + rewrite IH. reflexivity.
Qed.

(** C9, as amended.  Two ordered lists that are children of the
    container handed to the pre-pass, with only text or comments between
    them, are merged wherever they stand among the container's child
    nodes: the pre-pass does what it would do had the first list held
    the child nodes of both from the start and the second not been
    there.  An ordered list whose children are the items [items] renders
    item number k (from 1) with the decimal numeral k, whatever
    attributes the list and its items carry; so the merged list of two
    single-item lists renders as items 1 and 2, in whatever state the
    loop over the top-level nodes meets it.  The last part shows it on a
    list that asks to start at 5 and an item that asks for the value 9,
    between a paragraph and a heading. *)
Theorem merged_lists_renumbered :
  (∀ (pre between post : list node) (a1 a2 : list (string * str)) (kids1 kids2 : list node),
     Forall not_element between →
     mergeConsecutiveLists
       (pre ++ Element "ol" a1 kids1 :: between ++ Element "ol" a2 kids2 :: post)
     = mergeConsecutiveLists (pre ++ Element "ol" a1 (kids1 ++ kids2) :: between ++ post))
  ∧ (∀ (a : list (string * str)) (depth : nat)
       (items : list (list (string * str) * list node)),
       processListItems "ol" depth (Element "ol" a (map li_of items))
       = concat (imap (fun i item => ordered_item depth (S i) item) items))
  ∧ (∀ (b : bool) (a1 : list (string * str)) (item1 item2 : list (string * str) * list node)
       (rest : list node),
       processNodesWithState b (Element "ol" a1 [li_of item1; li_of item2] :: rest)
       = [NL] ++ ordered_item 0 1 item1 ++ ordered_item 0 2 item2 ++ [NL]
         ++ processNodesWithState true rest)
  ∧ htmlToMarkdown
      [Element "p" [] [TextNode (lit "Steps")];
       Element "ol" [("start"%string, lit "5")] [Element "li" [] [TextNode (lit "first")]];
       TextNode [NL];
       Element "ol" [] [Element "li" [("value"%string, lit "9")] [TextNode (lit "second")]];
       Element "h2" [] [TextNode (lit "Next")]]
    = lit "Steps" ++ [NL; NL; NL] ++ lit "1. first" ++ [NL] ++ lit "2. second"
      ++ [NL; NL; NL] ++ lit "## Next".
Proof.
  split; [|split; [|split]].
  - intros pre between post a1 a2 kids1 kids2 Hb. apply merge_pair, Hb.
  - intros a depth items. cbn [processListItems].
    apply (list_items_ordered depth items 1).
  - intros b a1 item1 item2 rest.
    cbn [processNodesWithState String.eqb Ascii.eqb Bool.eqb andb orb].
    unfold processElement.
    change [li_of item1; li_of item2] with (map li_of [item1; item2]).
    cbn [processNode heading_level String.eqb Ascii.eqb Bool.eqb andb orb].
    rewrite (list_items_ordered 0 [item1; item2] 1).
    cbn [imap concat Nat.add]. rewrite app_nil_r, <- !app_assoc. reflexivity.
  - vm_compute. reflexivity.
Qed.

Lemma merged_lists_renumbered_witness :
  mergeConsecutiveLists
    ([TextNode (lit "intro")]
     ++ Element "ol" [] [li_of ([], [TextNode (lit "a")])]
        :: [TextNode [NL]] ++ Element "ol" [] [li_of ([], [TextNode (lit "b")])]
        :: [Element "p" [] []])
  = mergeConsecutiveLists
      ([TextNode (lit "intro")]
       ++ Element "ol" [] ([li_of ([], [TextNode (lit "a")])] ++ [li_of ([], [TextNode (lit "b")])])
          :: [TextNode [NL]] ++ [Element "p" [] []]).
Proof.
  destruct merged_lists_renumbered as [H _]. apply H. repeat constructor.
Defined.

(** C9, counterexample.  Two adjacent single-item ordered lists inside a
    [div]: they are adjacent siblings in the parsed tree, the pre-pass
    leaves them as they are, and each is rendered as a list of its own,
    so that both items carry the number 1. *)
Lemma nested_lists_counterexample :
  mergeConsecutiveLists
    [Element "div" []
       [Element "ol" [] [Element "li" [] [TextNode (lit "first")]];
        Element "ol" [] [Element "li" [] [TextNode (lit "second")]]]]
  = [Element "div" []
       [Element "ol" [] [Element "li" [] [TextNode (lit "first")]];
        Element "ol" [] [Element "li" [] [TextNode (lit "second")]]]]
  ∧ htmlToMarkdown
      [Element "div" []
         [Element "ol" [] [Element "li" [] [TextNode (lit "first")]];
          Element "ol" [] [Element "li" [] [TextNode (lit "second")]]]]
    = lit "1. first" ++ [NL; NL; NL] ++ lit "1. second"
  ∧ htmlToMarkdown
      [Element "div" []
         [Element "ol" [] [Element "li" [] [TextNode (lit "first")]];
          Element "ol" [] [Element "li" [] [TextNode (lit "second")]]]]
    ≠ lit "1. first" ++ [NL] ++ lit "2. second".
Proof.
  split; [reflexivity|]. split; [vm_compute; reflexivity|]. vm_compute. discriminate.
Qed.

End DocxFacts.

(** ** The codec: restoring *)

Module RestoreFacts.
Import Js Regex RegexFacts Codec.

(** An ID as the restore pattern can read it back: not empty and without
    a closing bracket. *)
Definition readable (id : str) : Prop :=
  id ≠ [] ∧ Forall (fun c => not_chr RBRACKET c = true) id.

Lemma take_matched (m t : str) : take (length (m ++ t) - length t) (m ++ t) = m.
Proof.
  rewrite length_app. replace (length m + length t - length t) with (length m) by lia.
  apply take_app_length.
Qed.

(** The restore pattern on a text that starts with a placeholder. *)
Lemma exec_placeholder id rest :
  readable id → exec placeholderPattern (placeholder id ++ rest) = Some (rest, [id]).
Proof.
  intros [Hne Hall]. unfold exec, placeholderPattern, placeholder.
  rewrite <- !app_assoc. cbn [run]. rewrite starts_with_app, drop_app_length.
  unfold Plus. cbn [run]. apply greedy_whole.
  - exact Hall.
  - reflexivity.
  - cbn [app lit map list_ascii_of_string cu]. cbn [run Chr]. unfold Chr. cbn [run].
    change (cu "]") with RBRACKET. rewrite N.eqb_refl.
    rewrite (take_matched id (RBRACKET :: rest)). reflexivity.
  - destruct id; [congruence|simpl; lia].
Qed.

Lemma exec_placeholder_not_prefixed s :
  starts_with placeholder_prefix s = false → exec placeholderPattern s = None.
Proof. intros H. unfold exec, placeholderPattern. cbn [run]. rewrite H. reflexivity. Qed.

Lemma placeholder_min_len : 1 ≤ min_len placeholderPattern.
Proof. vm_compute. lia. Qed.

Lemma restore_nil store : restoreImages store [] = [].
Proof. apply replace_nil, exec_nil_min_len, placeholder_min_len. Qed.

(** A placeholder at the head of the text is replaced by what the store
    gives for its ID, and the scan goes on after it. *)
Lemma restore_placeholder store id rest :
  readable id →
  restoreImages store (placeholder id ++ rest)
  = lookup_or store id (placeholder id) ++ restoreImages store rest.
Proof.
  intros Hid. unfold restoreImages.
  rewrite (replace_match _ _ (placeholder id) rest [id]).
  - reflexivity.
  - apply exec_placeholder, Hid.
  - unfold placeholder, placeholder_prefix. discriminate.
Qed.

(** Where the pattern does not match, one unit is copied. *)
Lemma restore_copy store c s :
  test placeholderPattern (c :: s) = false →
  restoreImages store (c :: s) = c :: restoreImages store s.
Proof.
  intros H. unfold restoreImages. apply replace_nomatch.
  unfold test in H. destruct (exec placeholderPattern (c :: s)); [discriminate|reflexivity].
Qed.

(** [pending store s]: somewhere in [s] the restore pattern finds a
    placeholder for which the store holds a replacement other than the
    placeholder itself. *)
Fixpoint pending (store : gmap str str) (s : str) : bool :=
  match exec placeholderPattern s with
  | Some (rest, caps) =>
      let m := take (length s - length rest) s in
      negb (str_eqb (lookup_or store (cap 1 caps) m) m)
  | None => false
  end
  || match s with
     | [] => false
     | _ :: s' => pending store s'
     end.

Lemma pending_app store m rest :
  pending store (m ++ rest) = false → pending store rest = false.
Proof.
  induction m as [|c m IH]; [auto|].
  cbn [app pending]. intros H. apply orb_false_iff in H as [_ H]. auto.
Qed.

Lemma restore_nothing_pending store s :
  pending store s = false → restoreImages store s = s.
Proof.
  revert s.
  apply (scan_ind placeholderPattern
           (fun s => pending store s = false → restoreImages store s = s));
    [exact placeholder_min_len| |intros c s Hno IH Hp|intros m rest caps Hm Hex IH Hp].
  - intros ?. apply restore_nil.
  - unfold restoreImages in *. rewrite replace_nomatch by exact Hno.
    rewrite IH; [reflexivity|]. apply (pending_app store [c] s), Hp.
  - unfold restoreImages in *. rewrite (replace_match _ _ m rest caps) by assumption.
    rewrite IH by (apply (pending_app store m rest), Hp).
    f_equal. destruct m as [|c m]; [congruence|].
    cbn [app pending] in Hp. cbn [app] in Hex. rewrite Hex in Hp.
    apply orb_false_iff in Hp as [Hp _].
    change (c :: m ++ rest) with ((c :: m) ++ rest) in Hp.
    rewrite take_matched in Hp. apply negb_false_iff in Hp.
    unfold str_eqb in Hp. apply bool_decide_eq_true_1 in Hp. exact Hp.
Qed.

Lemma lookup_or_present store id v fallback :
  store !! id = Some v → v ≠ [] → lookup_or store id fallback = v.
Proof. intros H Hv. unfold lookup_or. rewrite H. destruct v; [congruence|reflexivity]. Qed.

Lemma lookup_or_absent store id fallback :
  store !! id = Some [] ∨ (store !! id = None ∧ id ∉ inherited_names) →
  lookup_or store id fallback = fallback.
Proof.
  unfold lookup_or. intros [->|[-> Hid]]; [reflexivity|].
  rewrite bool_decide_eq_false_2 by exact Hid. reflexivity.
Qed.

(** C3.  A placeholder whose ID is [constructor], a name that no store
    holds as a key of its own: instead of leaving it unchanged, the
    restore replaces it by the text of the function that the store
    object inherits under that name.  So it is in the editor: the user's
    text holds such a placeholder, the images are hidden (there is none,
    and the store stays empty), and the accessor returns the text with
    the function's text in the place of the placeholder; showing the
    images again writes that into the textarea. *)
Theorem restore_inherited_name (random : nat → str) :
  (∅ : gmap str str) !! lit "constructor" = None
  ∧ restoreImages ∅ (placeholder (lit "constructor")) = lit "function Object() { [native code] }"
  ∧ restoreImages ∅ (placeholder (lit "constructor")) ≠ placeholder (lit "constructor")
  ∧ (let ed := toggleImageCollapse random
                 (Editor (Some (lit "see " ++ placeholder (lit "constructor"))) false ∅ 0) in
     imagesCollapsed ed = true
     ∧ imageStore ed = ∅
     ∧ textarea ed = Some (lit "see " ++ placeholder (lit "constructor"))
     ∧ getContent ed = lit "see function Object() { [native code] }"
     ∧ textarea (toggleImageCollapse random ed)
       = Some (lit "see function Object() { [native code] }")).
Proof.
  split; [reflexivity|]. split; [vm_compute; reflexivity|].
  split; [vm_compute; discriminate|].
  assert (H : toggleImageCollapse random
                (Editor (Some (lit "see " ++ placeholder (lit "constructor"))) false ∅ 0)
              = Editor (Some (lit "see " ++ placeholder (lit "constructor"))) true ∅ 0).
  { unfold toggleImageCollapse. cbn [textarea imagesCollapsed draws].
    unfold collapseImages.
    rewrite (replace_loop_no_occurrence htmlImgPattern) by (vm_compute; reflexivity).
    rewrite (replace_loop_no_occurrence mdImgPattern) by (vm_compute; reflexivity).
    reflexivity. }
  cbn zeta. rewrite H. repeat split; vm_compute; reflexivity.
Qed.

(** X30.  What the restore does with one placeholder.  A placeholder
    whose ID is not empty and holds no closing bracket, and that the
    store maps to a non-empty text, is replaced by that text; one whose
    ID the store maps to the empty text, or does not hold and that is no
    name inherited from the prototype, is left as it is; where the
    pattern does not match, one unit is copied.  In each case the rest
    of the text is restored in the same way. *)
Theorem restore_replaces_known_ids :
  (∀ (store : gmap str str) (id rest v : str),
     readable id → store !! id = Some v → v ≠ [] →
     restoreImages store (placeholder id ++ rest) = v ++ restoreImages store rest)
  ∧ (∀ (store : gmap str str) (id rest : str),
       readable id →
       store !! id = Some [] ∨ (store !! id = None ∧ id ∉ inherited_names) →
       restoreImages store (placeholder id ++ rest)
       = placeholder id ++ restoreImages store rest)
  ∧ (∀ (store : gmap str str) (c : N) (s : str),
       test placeholderPattern (c :: s) = false →
       restoreImages store (c :: s) = c :: restoreImages store s).
Proof.
  split; [|split].
  - intros store id rest v Hid Hv Hne.
    rewrite restore_placeholder by exact Hid.
    rewrite (lookup_or_present _ _ v) by assumption. reflexivity.
  - intros store id rest Hid Habs.
    rewrite restore_placeholder by exact Hid.
    rewrite lookup_or_absent by exact Habs. reflexivity.
  - intros store c s. apply restore_copy.
Qed.

(** A store as a collapse leaves it. *)
Definition sample_image : str := lit "![alt](data:image/png;base64,AAAA)".
Definition sample_store : gmap str str := <[lit "img-k3j9x" := sample_image]> ∅.

Lemma readable_literal (id : str) :
  forallb (not_chr RBRACKET) id = true → id ≠ [] → readable id.
Proof.
  intros H Hne. split; [exact Hne|]. apply Forall_forall. intros c Hc.
  rewrite forallb_forall in H. apply H. apply list_elem_of_In. exact Hc.
Qed.

Lemma restore_replaces_known_ids_witness :
  restoreImages sample_store (placeholder (lit "img-k3j9x") ++ lit " and more")
    = sample_image ++ restoreImages sample_store (lit " and more")
  ∧ restoreImages sample_store (placeholder (lit "img-gone") ++ lit ".")
    = placeholder (lit "img-gone") ++ restoreImages sample_store (lit ".")
  ∧ restoreImages sample_store (lit "see ") = 115%N :: restoreImages sample_store (lit "ee ").
Proof.
  destruct restore_replaces_known_ids as (H1 & H2 & H3).
  split; [|split].
  - apply H1.
    + apply readable_literal; [reflexivity|discriminate].
    + reflexivity.
    + discriminate.
  - apply H2.
    + apply readable_literal; [reflexivity|discriminate].
    + right. split; [reflexivity|].
      apply (bool_decide_eq_false_1 (lit "img-gone" ∈ inherited_names)). reflexivity.
  - apply (H3 sample_store 115%N (lit "ee ")). reflexivity.
Defined.

End RestoreFacts.

(** ** The codec: collapsing, and restoring after it *)

Module CollapseFacts.
Import Js Regex RegexFacts Codec RestoreFacts.

(** The units of [Math.random().toString(36)] after the point. *)
Definition is_base36 (c : N) : bool := is_digit c || is_lower c.

(** The ID of the [k]-th draw. *)
Definition id_of (random : nat -> str) (k : nat) : str := lit "img-" ++ random k.

(** An ID as the collapse callback builds it. *)
Definition minted (id : str) : Prop :=
  ∃ suffix, id = lit "img-" ++ suffix ∧ Forall (fun c => is_base36 c = true) suffix.

(** No occurrence of the placeholder prefix. *)
Definition prefix_free (s : str) : bool := negb (includes placeholder_prefix s).

(** Neither the unit that opens an image in HTML form nor the one that
    opens an image in Markdown form. *)
Definition plain (c : N) : bool := negb (N.eqb c 60) && negb (N.eqb c 33).

Lemma Forall_of_forallb (p : N → bool) (l : str) :
  forallb p l = true → Forall (fun c => p c = true) l.
Proof.
  intros H. apply Forall_forall. intros c Hc.
  rewrite forallb_forall in H. apply H, list_elem_of_In, Hc.
Qed.

Lemma base36_facts c :
  is_base36 c = true → plain c = true ∧ not_chr RBRACKET c = true.
Proof.
  unfold is_base36, is_digit, is_lower, between, plain, not_chr, RBRACKET.
  intros H. apply orb_true_iff in H.
  rewrite !andb_true_iff, !N.leb_le in H.
  rewrite andb_true_iff, !negb_true_iff, !N.eqb_neq. lia.
Qed.

Lemma minted_readable id : minted id → readable id.
Proof.
  intros (suffix & -> & Hall). split; [discriminate|].
  apply Forall_app. split.
  - apply Forall_of_forallb. reflexivity.
  - eapply Forall_impl; [exact Hall|]. intros c Hc. apply base36_facts, Hc.
Qed.

Lemma placeholder_plain id :
  minted id → Forall (fun c => plain c = true) (placeholder id).
Proof.
  intros (suffix & -> & Hall). unfold placeholder.
  apply Forall_app; split; [apply Forall_of_forallb; reflexivity|].
  apply Forall_app; split; [|apply Forall_of_forallb; reflexivity].
  apply Forall_app; split; [apply Forall_of_forallb; reflexivity|].
  eapply Forall_impl; [exact Hall|]. intros c Hc. apply base36_facts, Hc.
Qed.

Lemma placeholder_opens id : ∃ t, placeholder id = 91%N :: t.
Proof. eexists. reflexivity. Qed.

(** What the proofs use of the two image patterns. *)
Record image_pattern (r : regex) : Prop := {
  pat_min : 1 ≤ min_len r;
  (* a match starts with an opening unit that is not plain *)
  pat_opens : ∀ c s, plain c = true → exec r (c :: s) = None;
  (* a match ends with a unit that the placeholder prefix does not hold *)
  pat_closes : ∀ m, lang r m → ∃ c, last m = Some c ∧ c ∉ placeholder_prefix
}.

Lemma plain_neq c a : plain c = true → plain a = false → N.eqb a c = false.
Proof.
  intros Hc Ha. apply N.eqb_neq. intros ->. congruence.
Qed.

Lemma html_image_pattern : image_pattern htmlImgPattern.
Proof.
  split.
  - vm_compute. lia.
  - intros c s Hc. unfold exec, htmlImgPattern. cbn [run].
    change (lit "<p") with [60%N; 112%N]. cbn [starts_with].
    rewrite (plain_neq c 60%N Hc eq_refl). reflexivity.
  - intros m Hm. unfold htmlImgPattern in Hm. cbn [lang] in Hm.
    destruct Hm as (m1 & m2 & -> & _ & m3 & m4 & -> & _ & m5 & m6 & -> & _ & m7 & m8 & -> & _
                    & m9 & m10 & -> & _ & m11 & m12 & -> & _ & m13 & m14 & -> & _
                    & m15 & m16 & -> & _ & m17 & m18 & -> & _ & ->).
    exists 62%N. split.
    + change (lit "></p>") with ([62; 60; 47; 112]%N ++ [62%N]).
      rewrite !app_assoc. apply last_snoc.
    + apply (bool_decide_eq_false_1 (62%N ∈ placeholder_prefix)). reflexivity.
Qed.

Lemma md_image_pattern : image_pattern mdImgPattern.
Proof.
  split.
  - vm_compute. lia.
  - intros c s Hc. unfold exec, mdImgPattern. cbn [run].
    change (lit "![") with [33%N; 91%N]. cbn [starts_with].
    rewrite (plain_neq c 33%N Hc eq_refl). reflexivity.
  - intros m Hm. unfold mdImgPattern in Hm. cbn [lang] in Hm.
    destruct Hm as (m1 & m2 & -> & _ & m3 & m4 & -> & _ & m5 & m6 & -> & _ & m7 & m8 & -> & _
                    & c & -> & Hc).
    apply N.eqb_eq in Hc. subst c.
    exists 41%N. split.
    + rewrite !app_assoc. apply last_snoc.
    + apply (bool_decide_eq_false_1 (41%N ∈ placeholder_prefix)). reflexivity.
Qed.

Section Pass.
Variable random : nat -> str.
Variable r : regex.
Hypothesis Hr : image_pattern r.

(** One of the two [replace] calls of [collapseImages]. *)
Definition pass (st : gmap str str * nat) (s : str) : (gmap str str * nat) * str :=
  replace_loop r (collapse_match random) 0 st s.

Lemma pass_nil st : pass st [] = (st, []).
Proof. apply replace_loop_nil, exec_nil_min_len, Hr. Qed.

Lemma pass_nomatch c s st :
  exec r (c :: s) = None →
  pass st (c :: s) = (fst (pass st s), c :: snd (pass st s)).
Proof.
  intros H. unfold pass. rewrite replace_loop_nomatch by exact H.
  destruct (replace_loop _ _ 0 st s). reflexivity.
Qed.

Lemma pass_match m rest caps store n :
  exec r (m ++ rest) = Some (rest, caps) → m ≠ [] →
  pass (store, n) (m ++ rest)
  = (fst (pass (<[id_of random n := m]> store, S n) rest),
     placeholder (id_of random n) ++ snd (pass (<[id_of random n := m]> store, S n) rest)).
Proof.
  intros H Hm. unfold pass. rewrite (replace_loop_match _ _ m rest caps) by assumption.
  cbn [collapse_match]. fold (id_of random n).
  destruct (replace_loop _ _ 0 _ rest). reflexivity.
Qed.

(** Plain units pass through unchanged. *)
Lemma pass_copy t : ∀ st y,
  Forall (fun c => plain c = true) t →
  pass st (t ++ y) = (fst (pass st y), t ++ snd (pass st y)).
Proof.
  induction t as [|c t IH]; intros st y Hall.
  - cbn [app]. destruct (pass st y). reflexivity.
  - apply Forall_cons_1 in Hall as [Hc Hall]. cbn [app].
    rewrite pass_nomatch by (apply Hr, Hc). rewrite IH by exact Hall. reflexivity.
Qed.

(** A stretch without opening bracket at the head of the output stood at
    the head of the input. *)
Lemma pass_prefix q : ∀ s st,
  Forall (fun c => c ≠ 91%N) q →
  starts_with q (snd (pass st s)) = true → starts_with q s = true.
Proof.
  induction q as [|a q IH]; intros s st Hq; [reflexivity|].
  apply Forall_cons_1 in Hq as [Ha Hq].
  destruct s as [|c s].
  - rewrite pass_nil. cbn [snd starts_with]. discriminate.
  - destruct (exec r (c :: s)) as [[rest caps]|] eqn:E.
    + destruct (exec_consumes _ _ _ _ E) as (m & Hs & Hlen).
      rewrite Hs in E |- *. destruct st as [store n].
      rewrite (pass_match m rest caps) by
        (try exact E; intros ->; pose proof (pat_min _ Hr); simpl in Hlen; lia).
      cbn [snd]. destruct (placeholder_opens (id_of random n)) as [t ->].
      cbn [app starts_with]. intros H. apply andb_true_iff in H as [H _].
      apply N.eqb_eq in H. congruence.
    + rewrite pass_nomatch by exact E. cbn [snd starts_with].
      intros H. apply andb_true_iff in H as [H1 H2].
      rewrite H1. cbn [andb]. apply (IH s st Hq H2).
Qed.

(** The store after a pass: the counter only grows, every entry is an
    old one or belongs to a draw of the pass, and with fresh, distinct
    IDs the old entries are all kept. *)
Definition pass_store_spec (s : str) : Prop :=
  ∀ store n st',
    st' = fst (pass (store, n) s) →
    n ≤ snd st'
    ∧ (∀ id, fst st' !! id = store !! id ∨ ∃ k, n ≤ k < snd st' ∧ id = id_of random k)
    ∧ ((∀ k, n ≤ k < snd st' → store !! id_of random k = None) →
       (∀ i j, n ≤ i < j → j < snd st' → random i ≠ random j) →
       store ⊆ fst st').

Lemma pass_store s : pass_store_spec s.
Proof.
  revert s. apply (scan_ind r pass_store_spec); [apply Hr|..]; unfold pass_store_spec.
  - intros store n st' ->. rewrite pass_nil. cbn [fst snd]. repeat split; auto.
  - intros c s Hno IH store n st' ->. rewrite pass_nomatch by exact Hno. cbn [fst].
    apply IH. reflexivity.
  - intros m rest caps Hm Hex IH store n st' ->.
    rewrite (pass_match m rest caps) by assumption. cbn [fst].
    specialize (IH (<[id_of random n := m]> store) (S n) _ eq_refl).
    destruct IH as (Hn & Hdom & Hmono).
    set (st' := fst (pass (<[id_of random n := m]> store, S n) rest)) in *.
    split; [lia|]. split.
    + intros id. destruct (Hdom id) as [H|(k & Hk & ->)].
      * destruct (decide (id = id_of random n)) as [->|Hne].
        -- right. exists n. split; [lia|reflexivity].
        -- left. rewrite H. apply lookup_insert_ne. congruence.
      * right. exists k. split; [lia|reflexivity].
    + intros Hfresh Hdistinct.
      transitivity (<[id_of random n := m]> store).
      * apply insert_subseteq, Hfresh. lia.
      * apply Hmono.
        -- intros k Hk. rewrite lookup_insert_ne; [apply Hfresh; lia|].
           unfold id_of. intros Heq. apply app_inv_head in Heq.
           apply (Hdistinct n k); [lia|lia|exact Heq].
        -- intros i j Hi Hj. apply Hdistinct; lia.
Qed.

End Pass.

(** *** Collapsed text and the text it stands for *)

(** [expands store y x]: [y] is [x] with some stretches replaced by
    placeholders whose minted IDs the store maps to those stretches, and
    the placeholder prefix occurs in [y] only where such a placeholder
    starts. *)
Inductive expands (store : gmap str str) : str → str → Prop :=
| expands_nil : expands store [] []
| expands_unit c y x :
    starts_with placeholder_prefix (c :: y) = false →
    expands store y x → expands store (c :: y) (c :: x)
| expands_placeholder id m y x y0 x0 :
    y0 = placeholder id ++ y → x0 = m ++ x →
    minted id → store !! id = Some m → m ≠ [] →
    expands store y x → expands store y0 x0.

Lemma expands_restore store y x : expands store y x → restoreImages store y = x.
Proof.
  induction 1 as [|c y x Hc _ IH|id m y x y0 x0 -> -> Hid Hm Hne _ IH].
  - apply restore_nil.
  - rewrite restore_copy, IH; [reflexivity|].
    unfold test. rewrite exec_placeholder_not_prefixed by exact Hc. reflexivity.
  - rewrite restore_placeholder by (apply minted_readable, Hid).
    rewrite (lookup_or_present _ _ m), IH by assumption. reflexivity.
Qed.

Lemma expands_mono store store' y x :
  store ⊆ store' → expands store y x → expands store' y x.
Proof.
  intros Hsub. induction 1 as [|c y x Hc _ IH|id m y x y0 x0 -> -> Hid Hm Hne _ IH].
  - constructor.
  - constructor; assumption.
  - eapply expands_placeholder; eauto. eapply lookup_weaken; eassumption.
Qed.

Lemma prefix_free_cons c s :
  prefix_free (c :: s) = true →
  starts_with placeholder_prefix (c :: s) = false ∧ prefix_free s = true.
Proof.
  unfold prefix_free. cbn [includes]. rewrite negb_true_iff, orb_false_iff.
  intros [H1 H2]. rewrite H2. auto.
Qed.

Lemma expands_refl store x : prefix_free x = true → expands store x x.
Proof.
  induction x as [|c x IH]; intros H; [constructor|].
  apply prefix_free_cons in H as [H1 H2]. constructor; auto.
Qed.

Lemma starts_with_app_cases (p m rest : str) :
  starts_with p (m ++ rest) = true → starts_with p m = true ∨ ∃ t, p = m ++ t.
Proof.
  revert m. induction p as [|a p IH]; intros m; [left; reflexivity|].
  destruct m as [|b m]; [right; eexists; reflexivity|].
  cbn [app starts_with]. intros H. apply andb_true_iff in H as [Hab H].
  destruct (IH m H) as [H'|[t ->]].
  - left. rewrite Hab, H'. reflexivity.
  - right. apply N.eqb_eq in Hab as ->. exists t. reflexivity.
Qed.

(** A stretch without the prefix, ending in a unit foreign to the
    prefix, at the head of a collapsed text stands for itself. *)
Lemma expands_split store m : ∀ rest x,
  expands store (m ++ rest) x →
  prefix_free m = true →
  (∀ c, last m = Some c → c ∉ placeholder_prefix) →
  ∃ x', x = m ++ x' ∧ expands store rest x'.
Proof.
  induction m as [|c m IH]; intros rest x H Hfree Hlast; [exists x; auto|].
  apply prefix_free_cons in Hfree as [Hhead Hfree].
  inversion H as [|c' y' x' Hc Hy|id m0 y' x' y0 x0 Hy0 Hx0 Hid Hm0 Hne Hy]; subst.
  - destruct (IH rest x' Hy Hfree) as (x'' & -> & Hx'').
    + intros d Hd. apply Hlast. destruct m; [discriminate|exact Hd].
    + exists x''. auto.
  - exfalso.
    assert (Hp : starts_with placeholder_prefix ((c :: m) ++ rest) = true).
    { rewrite Hy0. unfold placeholder.
      rewrite <- !app_assoc. apply starts_with_app. }
    apply starts_with_app_cases in Hp as [Hp|[t Ht]]; [congruence|].
    destruct (last (c :: m)) as [d|] eqn:Hd.
    + apply (Hlast d eq_refl). rewrite Ht. apply elem_of_app. left.
      apply last_Some in Hd as [l' ->]. apply elem_of_app. right. constructor.
    + apply last_None in Hd. discriminate.
Qed.

Section PassExpands.
Variable random : nat -> str.
Variable r : regex.
Hypothesis Hr : image_pattern r.

Definition pass_expands_spec (y : str) : Prop :=
  ∀ x store n st',
    st' = fst (pass random r (store, n) y) →
    expands store y x →
    (∀ k, n ≤ k < snd st' →
       Forall (fun c => is_base36 c = true) (random k) ∧ store !! id_of random k = None) →
    (∀ i j, n ≤ i < j → j < snd st' → random i ≠ random j) →
    (∀ id v, fst st' !! id = Some v → prefix_free v = true) →
    expands (fst st') (snd (pass random r (store, n) y)) x.

Lemma minted_id_of k :
  Forall (fun c => is_base36 c = true) (random k) → minted (id_of random k).
Proof. intros H. exists (random k). auto. Qed.

Lemma pass_expands y : pass_expands_spec y.
Proof.
  induction y as [y IH] using (induction_ltof1 _ (@length N)). unfold ltof in IH.
  intros x store n st' -> Hex Hids Hdistinct Hfree.
  assert (Hfresh : ∀ k, n ≤ k < snd (fst (pass random r (store, n) y)) →
                        store !! id_of random k = None)
    by (intros k Hk; apply Hids, Hk).
  destruct y as [|c y].
  { rewrite pass_nil by exact Hr. cbn [fst snd].
    inversion Hex as [| |id m0 y' x' y0 x0 Hy0 _ _ _ _ _]; subst; [constructor|].
    destruct (placeholder_opens id) as [t Ht]. rewrite Ht in Hy0. discriminate. }
  destruct (exec r (c :: y)) as [[rest caps]|] eqn:E.
  - (* the pattern matches: a new placeholder *)
    destruct (exec_sound _ _ _ _ E) as (m & Hs & Hlang).
    assert (Hm : m ≠ []).
    { intros ->. apply lang_min_len in Hlang. pose proof (pat_min _ Hr). simpl in Hlang. lia. }
    rewrite Hs in *. clear Hs.
    rewrite (pass_match random r m rest caps) in * by assumption.
    cbn [fst snd] in *.
    set (store1 := <[id_of random n := m]> store) in *.
    destruct (pass_store random r Hr rest store1 (S n) _ eq_refl) as (Hn & _ & Hmono).
    assert (Hsub : store1 ⊆ fst (fst (pass random r (store1, S n) rest))).
    { apply Hmono.
      - intros k Hk. unfold store1. rewrite lookup_insert_ne; [apply Hfresh; lia|].
        unfold id_of. intros Heq. apply app_inv_head in Heq.
        apply (Hdistinct n k); [lia|lia|exact Heq].
      - intros i j Hi Hj. apply Hdistinct; lia. }
    assert (Hstored : fst (fst (pass random r (store1, S n) rest)) !! id_of random n = Some m).
    { eapply lookup_weaken; [|exact Hsub]. apply lookup_insert_eq. }
    destruct (pat_closes _ Hr m Hlang) as (d & Hd & Hdp).
    destruct (expands_split store m rest x Hex) as (x' & -> & Hrest).
    { eapply Hfree, Hstored. }
    { intros d' Hd'. congruence. }
    eapply expands_placeholder; [reflexivity|reflexivity| |exact Hstored|exact Hm|].
    + apply minted_id_of, Hids. lia.
    + apply (IH rest); [rewrite length_app; destruct m; [congruence|simpl; lia]|reflexivity|..].
      * eapply expands_mono; [|exact Hrest]. apply insert_subseteq, Hfresh. lia.
      * intros k Hk. split; [apply Hids; lia|].
        unfold store1. rewrite lookup_insert_ne; [apply Hfresh; lia|].
        unfold id_of. intros Heq. apply app_inv_head in Heq.
        apply (Hdistinct n k); [lia|lia|exact Heq].
      * intros i j Hi Hj. apply Hdistinct; lia.
      * exact Hfree.
  - (* no match here *)
    inversion Hex as [|c' y' x' Hc Hy|id m0 y' x' y0 x0 Hy0 Hx0 Hid Hm0 Hne Hy]; subst.
    + (* a unit of the text *)
      rewrite pass_nomatch in * by assumption. cbn [fst snd] in *.
      constructor.
      * destruct (starts_with placeholder_prefix
                    (c :: snd (pass random r (store, n) y))) eqn:Hp; [|reflexivity].
        exfalso. change placeholder_prefix
          with (91%N :: camera ++ lit " IMAGE-COLLAPSED-") in Hp, Hc.
        cbn [starts_with] in Hp, Hc. apply andb_true_iff in Hp as [Hp1 Hp2].
        rewrite Hp1 in Hc. cbn [andb] in Hc.
        apply (pass_prefix random r Hr) in Hp2; [congruence|].
        apply Forall_forall. intros e He Heq. subst e. revert He.
        apply (bool_decide_eq_false_1 (91%N ∈ camera ++ lit " IMAGE-COLLAPSED-")).
        reflexivity.
      * apply (IH y); [simpl; lia|reflexivity|assumption..].
    + (* a placeholder of an earlier pass *)
      rewrite Hy0 in *.
      rewrite (pass_copy random r Hr (placeholder id)) in * by (apply placeholder_plain, Hid).
      cbn [fst snd] in *.
      destruct (pass_store random r Hr y' store n _ eq_refl) as (_ & _ & Hmono).
      eapply expands_placeholder; [reflexivity|reflexivity|exact Hid| |exact Hne|].
      * eapply lookup_weaken; [exact Hm0|]. apply Hmono; assumption.
      * apply (IH y'); [|reflexivity|assumption..].
        rewrite length_app. destruct (placeholder_opens id) as [t ->]. simpl. lia.
Qed.

End PassExpands.

(** The round trip of one collapse from an empty store. *)
Lemma collapse_then_restore random n x store n' y :
  collapseImages random (∅, n) x = ((store, n'), y) →
  prefix_free x = true →
  (∀ k, n ≤ k < n' → Forall (fun c => is_base36 c = true) (random k)) →
  (∀ i j, n ≤ i < j → j < n' → random i ≠ random j) →
  map_Forall (fun _ v => prefix_free v = true) store →
  restoreImages store y = x.
Proof.
  unfold collapseImages. intros Hc Hx Hids Hdistinct Hfree.
  destruct (replace_loop htmlImgPattern (collapse_match random) 0 (∅, n) x)
    as [[sa na] y1] eqn:E1.
  fold (pass random htmlImgPattern (∅, n) x) in E1.
  fold (pass random mdImgPattern (sa, na) y1) in Hc.
  destruct (pass_store random _ html_image_pattern x ∅ n _ eq_refl) as (Hn1 & Hdom1 & _).
  destruct (pass_store random _ md_image_pattern y1 sa na _ eq_refl) as (Hn2 & _ & Hmono2).
  rewrite E1 in Hn1, Hdom1. rewrite Hc in Hn2, Hmono2. cbn [fst snd] in *.
  assert (Hfresh : ∀ k, na ≤ k < n' → sa !! id_of random k = None).
  { intros k Hk. destruct (Hdom1 (id_of random k)) as [H|(k' & Hk' & Heq)].
    - rewrite H. apply lookup_empty.
    - exfalso. unfold id_of in Heq. apply app_inv_head in Heq.
      apply (Hdistinct k' k); [lia|lia|congruence]. }
  assert (Hsub : sa ⊆ store).
  { apply Hmono2; [exact Hfresh|]. intros i j Hi Hj. apply Hdistinct; lia. }
  apply expands_restore.
  pose proof (pass_expands random _ md_image_pattern y1 x sa na _ eq_refl) as H2.
  rewrite Hc in H2. cbn [fst snd] in H2. apply H2.
  - pose proof (pass_expands random _ html_image_pattern x x ∅ n _ eq_refl) as H1.
    rewrite E1 in H1. cbn [fst snd] in H1. apply H1.
    + apply expands_refl, Hx.
    + intros k Hk. split; [apply Hids; lia|apply lookup_empty].
    + intros i j Hi Hj. apply Hdistinct; lia.
    + intros id v Hv. apply (Hfree id). eapply lookup_weaken; eassumption.
  - intros k Hk. split; [apply Hids; lia|apply Hfresh, Hk].
  - intros i j Hi Hj. apply Hdistinct; lia.
  - exact Hfree.
Qed.

(** C2, as amended.  Collapsing from an empty store and restoring at
    once gives the text back when the text holds no placeholder prefix,
    the IDs drawn are base-36 texts that differ from each other, and no
    stored image holds a placeholder (no image in Markdown form was
    collapsed around an already collapsed image in HTML form).  A text in
    which neither pattern matches anywhere is left as it is, and so is
    the store. *)
Theorem collapse_restore_roundtrip :
  (∀ (random : nat → str) (n : nat) (x : str) (store : gmap str str) (n' : nat) (y : str),
     collapseImages random (∅, n) x = ((store, n'), y) →
     prefix_free x = true →
     (∀ k, n ≤ k < n' → Forall (fun c => is_base36 c = true) (random k)) →
     (∀ i j, n ≤ i < j → j < n' → random i ≠ random j) →
     map_Forall (fun _ v => prefix_free v = true) store →
     restoreImages store y = x)
  ∧ (∀ (random : nat → str) (st : gmap str str * nat) (x : str),
       occurs htmlImgPattern x = false → occurs mdImgPattern x = false →
       collapseImages random st x = (st, x)).
Proof.
  split.
  - apply collapse_then_restore.
  - intros random st x Hh Hm. unfold collapseImages.
    rewrite replace_loop_no_occurrence by exact Hh.
    apply replace_loop_no_occurrence, Hm.
Qed.

(** A draw sequence for the examples: the numerals 0, 1, 2, ... *)
Definition sample_random (k : nat) : str := decimal k.

Definition sample_html_image : str :=
  lit "<p align=" ++ [DQUOTE] ++ lit "center" ++ [DQUOTE] ++ lit "><img src=" ++ [DQUOTE]
  ++ lit "data:image/png;base64,AAAA" ++ [DQUOTE] ++ lit " alt=" ++ [DQUOTE]
  ++ lit "Image 1" ++ [DQUOTE] ++ lit "></p>".

Definition sample_md_image : str := lit "![chart](data:image/png;base64,BBBB)".

Definition sample_document : str :=
  lit "Intro " ++ sample_md_image ++ lit " then " ++ sample_html_image
  ++ lit " and a [link](https://example.org).".

Definition sample_collapsed_store : gmap str str :=
  <[lit "img-1" := sample_md_image]> (<[lit "img-0" := sample_html_image]> ∅).

Definition sample_collapsed : str :=
  lit "Intro " ++ placeholder (lit "img-1") ++ lit " then " ++ placeholder (lit "img-0")
  ++ lit " and a [link](https://example.org).".

Lemma sample_collapse :
  collapseImages sample_random (∅, 0) sample_document
  = ((sample_collapsed_store, 2), sample_collapsed).
Proof. vm_compute. reflexivity. Qed.

Lemma below_two (P : nat → Prop) : P 0 → P 1 → ∀ k, 0 ≤ k < 2 → P k.
Proof. intros H0 H1 k Hk. assert (k = 0 ∨ k = 1) as [->| ->] by lia; assumption. Qed.

Lemma collapse_restore_roundtrip_witness :
  restoreImages sample_collapsed_store sample_collapsed = sample_document
  ∧ collapseImages sample_random (∅, 0) (lit "no image, only [a link](https://example.org)")
    = ((∅, 0), lit "no image, only [a link](https://example.org)").
Proof.
  destruct collapse_restore_roundtrip as [H1 H2]. split.
  - apply (H1 sample_random 0 sample_document sample_collapsed_store 2 sample_collapsed).
    + exact sample_collapse.
    + reflexivity.
    + apply below_two; apply Forall_of_forallb; reflexivity.
    + intros i j Hi Hj. assert (i = 0 ∧ j = 1) as [-> ->] by lia. discriminate.
    + unfold sample_collapsed_store. apply map_Forall_insert_2; [reflexivity|].
      apply map_Forall_insert_2; [reflexivity|]. apply map_Forall_empty.
  - apply H2; reflexivity.
Defined.

(** An image in Markdown form whose payload part holds an image in HTML
    form: both are matched by the collapse patterns, one in each pass. *)
Definition nested_document : str :=
  lit "![a](data:image" ++ sample_html_image ++ lit ")".

(** C2, counterexample.  The nested document collapses to one
    placeholder, both images having been matched (the store holds two
    entries), and restoring at once with that store does not give the
    document back: the inner placeholder stays in the text. *)
Lemma collapse_restore_counterexample :
  snd (collapseImages sample_random (∅, 0) nested_document) = placeholder (lit "img-1")
  ∧ size (fst (fst (collapseImages sample_random (∅, 0) nested_document))) = 2
  ∧ restoreImages (fst (fst (collapseImages sample_random (∅, 0) nested_document)))
      (snd (collapseImages sample_random (∅, 0) nested_document))
    = lit "![a](data:image" ++ placeholder (lit "img-0") ++ lit ")"
  ∧ restoreImages (fst (fst (collapseImages sample_random (∅, 0) nested_document)))
      (snd (collapseImages sample_random (∅, 0) nested_document))
    ≠ nested_document.
Proof.
  split; [vm_compute; reflexivity|]. split; [vm_compute; reflexivity|].
  split; [vm_compute; reflexivity|]. vm_compute. discriminate.
Qed.

End CollapseFacts.

(** ** The content accessor and the export path *)

Module EditorFacts.
Import Js Regex RegexFacts Codec History Session RestoreFacts CollapseFacts.

Definition sample_editor : editor := Editor (Some sample_document) false ∅ 0.

Lemma sample_toggle :
  toggleImageCollapse sample_random sample_editor
  = Editor (Some sample_collapsed) true sample_collapsed_store 2.
Proof. vm_compute. reflexivity. Qed.

(** The sample document is in the textarea, and the user hides the
    images, types a blank and [x], types [y], shows the images again and
    clicks undo. *)
Definition leaking_actions : list action :=
  [ClickImages; Typed (sample_collapsed ++ lit " x"); Typed (sample_collapsed ++ lit " xy");
   ClickImages; ClickUndo].

(** The images are hidden and the user types the placeholder prefix in
    front of the first placeholder. *)
Definition prefixing_actions : list action :=
  [ClickImages; Typed (placeholder_prefix ++ sample_collapsed)].

(** C10.  After the images were hidden, two edits made, the images shown
    again and one edit undone, the textarea holds the collapsed text of
    the first edit while the images count as shown and the store still
    holds their IDs: the accessor returns the textarea's value as it is,
    and the Markdown download and the generated HTML contain the
    placeholder of a stored image in the place of the image.  In the
    collapsed state itself a placeholder prefix typed in front of a
    placeholder hides the placeholder from the restore, which reads both
    as one placeholder with an unknown ID. *)
Theorem export_leaks_placeholder :
  (let s := run sample_random (started sample_document) leaking_actions in
   imagesCollapsed (codec s) = false
   ∧ imageStore (codec s) !! lit "img-1" = Some sample_md_image
   ∧ getContent (codec s) = sample_collapsed ++ lit " x"
   ∧ includes (placeholder (lit "img-1")) (getContent (codec s)) = true
   ∧ includes sample_md_image (getContent (codec s)) = false
   ∧ (∀ frontmatter,
        downloadMarkdown frontmatter (codec s) = frontmatter ++ sample_collapsed ++ lit " x")
   ∧ (∀ marked_parse head tail,
        generateHtml marked_parse head tail (codec s)
        = head ++ marked_parse (sample_collapsed ++ lit " x") ++ tail))
  ∧ (let s := run sample_random (started sample_document) prefixing_actions in
     imagesCollapsed (codec s) = true
     ∧ imageStore (codec s) !! lit "img-1" = Some sample_md_image
     ∧ includes (placeholder (lit "img-1")) (getContent (codec s)) = true
     ∧ includes sample_md_image (getContent (codec s)) = false).
Proof.
  assert (H1 : run sample_random (started sample_document) leaking_actions
               = Session (Editor (Some (sample_collapsed ++ lit " x")) false
                            sample_collapsed_store 2)
                   [sample_collapsed ++ lit " x"; sample_collapsed ++ lit " xy"] 0)
    by (vm_compute; reflexivity).
  assert (H2 : run sample_random (started sample_document) prefixing_actions
               = Session (Editor (Some (placeholder_prefix ++ sample_collapsed)) true
                            sample_collapsed_store 2)
                   [placeholder_prefix ++ sample_collapsed] 0)
    by (vm_compute; reflexivity).
  cbn zeta. rewrite H1, H2. cbn [codec]. split.
  - split; [reflexivity|]. split; [reflexivity|]. split; [reflexivity|].
    split; [vm_compute; reflexivity|]. split; [vm_compute; reflexivity|].
    split; intros; reflexivity.
  - split; [reflexivity|]. split; [reflexivity|].
    split; vm_compute; reflexivity.
Qed.

(** X29.  With the images hidden, the text may be edited at will as long
    as the placeholder prefix stays where the placeholders of stored
    images start and comes nowhere else: whatever such text [y] the
    textarea holds, standing for the text [x] with the images in it, the
    accessor returns [x], so do the Markdown download after its front
    matter and the HTML generation inside its template, and showing the
    images puts [x] in the textarea and leaves the store as it is. *)
Theorem edited_text_exports_images (random : nat → str) (ed : editor) (y x : str) :
  textarea ed = Some y → imagesCollapsed ed = true → expands (imageStore ed) y x →
  getContent ed = x
  ∧ (∀ frontmatter, downloadMarkdown frontmatter ed = frontmatter ++ x)
  ∧ (∀ marked_parse head tail,
       generateHtml marked_parse head tail ed = head ++ marked_parse x ++ tail)
  ∧ toggleImageCollapse random ed = Editor (Some x) false (imageStore ed) (draws ed).
Proof.
  intros Ht Hc Hy. pose proof (expands_restore _ _ _ Hy) as Hr.
  assert (Hget : getContent ed = x) by (unfold getContent; rewrite Ht, Hc; exact Hr).
  split; [exact Hget|]. split; [|split].
  - intros frontmatter. unfold downloadMarkdown. rewrite Hget. reflexivity.
  - intros marked_parse head tail. unfold generateHtml. rewrite Hget. reflexivity.
  - unfold toggleImageCollapse. rewrite Ht, Hc, Hr. reflexivity.
Qed.

Lemma minted_literal (suffix : str) :
  forallb is_base36 suffix = true → minted (lit "img-" ++ suffix).
Proof.
  intros H. exists suffix. split; [reflexivity|]. apply Forall_forall. intros c Hc.
  rewrite forallb_forall in H. apply H, list_elem_of_In, Hc.
Qed.

(** Text without the placeholder prefix stands for itself, whatever
    follows it. *)
Lemma expands_plain store (p : str) : ∀ y x,
  (∀ k, k < length p → starts_with placeholder_prefix (drop k p ++ y) = false) →
  expands store y x → expands store (p ++ y) (p ++ x).
Proof.
  induction p as [|c p IH]; intros y x Hfree Hy; [exact Hy|].
  cbn [app]. apply expands_unit.
  - apply (Hfree 0). cbn [length]. lia.
  - apply IH; [|exact Hy].
    intros k Hk. apply (Hfree (S k)). cbn [length]. lia.
Qed.

Lemma edited_text_exports_images_witness :
  getContent (Editor (Some (lit "Now " ++ placeholder (lit "img-0") ++ lit "!")) true
                sample_collapsed_store 2)
  = lit "Now " ++ sample_html_image ++ lit "!"
  ∧ (∀ frontmatter,
       downloadMarkdown frontmatter
         (Editor (Some (lit "Now " ++ placeholder (lit "img-0") ++ lit "!")) true
            sample_collapsed_store 2)
       = frontmatter ++ lit "Now " ++ sample_html_image ++ lit "!")
  ∧ (∀ marked_parse head tail,
       generateHtml marked_parse head tail
         (Editor (Some (lit "Now " ++ placeholder (lit "img-0") ++ lit "!")) true
            sample_collapsed_store 2)
       = head ++ marked_parse (lit "Now " ++ sample_html_image ++ lit "!") ++ tail)
  ∧ toggleImageCollapse sample_random
      (Editor (Some (lit "Now " ++ placeholder (lit "img-0") ++ lit "!")) true
         sample_collapsed_store 2)
    = Editor (Some (lit "Now " ++ sample_html_image ++ lit "!")) false
        sample_collapsed_store 2.
Proof.
  apply (edited_text_exports_images sample_random
           (Editor (Some (lit "Now " ++ placeholder (lit "img-0") ++ lit "!")) true
              sample_collapsed_store 2)
           (lit "Now " ++ placeholder (lit "img-0") ++ lit "!")
           (lit "Now " ++ sample_html_image ++ lit "!")).
  - reflexivity.
  - reflexivity.
  - cbn [imageStore]. apply expands_plain.
    + intros [|[|[|[|k]]]] Hk; try reflexivity. cbn [length lit] in Hk. cbn in Hk. lia.
    + apply (expands_placeholder _ (lit "img-0") sample_html_image (lit "!") (lit "!"));
        [reflexivity|reflexivity|apply (minted_literal (lit "0")); reflexivity|reflexivity|
         discriminate|].
      apply expands_unit; [reflexivity|]. apply expands_nil.
Defined.

End EditorFacts.

(** ** The post-formatter *)

Module FormatterFacts.
Import Js Regex RegexFacts Formatter.

(** *** Lines *)

Lemma split_nonempty s : split NL s ≠ [].
Proof.
  destruct s as [|c s]; cbn [split]; [discriminate|].
  destruct (N.eqb c NL); [discriminate|]. destruct (split NL s); discriminate.
Qed.

Lemma join_cons l l' ls : join [NL] (l :: l' :: ls) = l ++ NL :: join [NL] (l' :: ls).
Proof. reflexivity. Qed.

Lemma join_split s : join [NL] (split NL s) = s.
Proof.
  induction s as [|c s IH]; [reflexivity|]. cbn [split].
  pose proof (split_nonempty s) as Hne.
  destruct (N.eqb_spec c NL) as [->|Hc]; destruct (split NL s) as [|l ls]; try congruence.
  - rewrite join_cons, IH. reflexivity.
  - destruct ls as [|l' ls].
    + cbn [join] in *. congruence.
    + rewrite join_cons in *. cbn [app]. congruence.
Qed.

Lemma split_no_sep l : NL ∉ l → split NL l = [l].
Proof.
  induction l as [|c l IH]; intros H; [reflexivity|].
  apply not_elem_of_cons in H as [Hc Hl]. cbn [split].
  destruct (N.eqb_spec c NL); [congruence|]. rewrite IH by exact Hl. reflexivity.
Qed.

Lemma split_app_sep l t : NL ∉ l → split NL (l ++ NL :: t) = l :: split NL t.
Proof.
  induction l as [|c l IH]; intros H.
  - cbn [app split]. rewrite N.eqb_refl. reflexivity.
  - apply not_elem_of_cons in H as [Hc Hl]. cbn [app split].
    destruct (N.eqb_spec c NL); [congruence|]. rewrite IH by exact Hl. reflexivity.
Qed.

Lemma split_join ls :
  ls ≠ [] → Forall (fun l => NL ∉ l) ls → split NL (join [NL] ls) = ls.
Proof.
  induction ls as [|l ls IH]; intros Hne Hall; [congruence|].
  apply Forall_cons_1 in Hall as [Hl Hall]. destruct ls as [|l' ls].
  - apply split_no_sep, Hl.
  - rewrite join_cons, split_app_sep by exact Hl. rewrite IH; auto.
Qed.

Lemma split_elems s : Forall (fun l => NL ∉ l) (split NL s).
Proof.
  induction s as [|c s IH]; cbn [split].
  - repeat constructor. apply not_elem_of_nil.
  - destruct (N.eqb_spec c NL) as [->|Hc].
    + constructor; [apply not_elem_of_nil|exact IH].
    + pose proof (split_nonempty s) as Hne.
      destruct (split NL s) as [|l ls]; [congruence|].
      apply Forall_cons_1 in IH as [Hl Hls]. constructor; [|exact Hls].
      apply not_elem_of_cons. auto.
Qed.

Lemma join_snoc ls l : ls ≠ [] → join [NL] (ls ++ [l]) = join [NL] ls ++ NL :: l.
Proof.
  induction ls as [|l0 ls IH]; intros Hne; [congruence|].
  destruct ls as [|l1 ls]; [reflexivity|].
  change ((l0 :: l1 :: ls) ++ [l]) with (l0 :: (l1 :: ls) ++ [l]).
  cbn [app]. rewrite !join_cons. change (l1 :: ls ++ [l]) with ((l1 :: ls) ++ [l]).
  rewrite IH by discriminate. rewrite <- app_assoc. reflexivity.
Qed.

Lemma join_rev ls : join [NL] (rev (map (@rev N) ls)) = rev (join [NL] ls).
Proof.
  induction ls as [|l ls IH]; [reflexivity|]. cbn [map rev].
  destruct ls as [|l' ls]; [reflexivity|].
  rewrite join_snoc.
  - rewrite IH, join_cons, rev_app_distr. cbn [rev]. rewrite <- app_assoc. reflexivity.
  - cbn [map rev]. intros H. apply app_eq_nil in H as [_ H]. discriminate.
Qed.

Lemma split_rev s : split NL (rev s) = rev (map (@rev N) (split NL s)).
Proof.
  rewrite <- (join_split s) at 1. rewrite <- join_rev. apply split_join.
  - pose proof (split_nonempty s). destruct (split NL s); [congruence|].
    cbn [map rev]. intros H'. apply app_eq_nil in H' as [_ H']. discriminate.
  - apply Forall_rev, Forall_map. eapply Forall_impl; [apply split_elems|].
    intros l Hl Hin. apply Hl, list_elem_of_In, in_rev, list_elem_of_In, Hin.
Qed.

(** *** Trimming *)

Definition ltrimmed (l : str) : Prop := trimStart l = l.
Definition rtrimmed (l : str) : Prop := trimStart (rev l) = rev l.

Lemma trimStart_suffix s : ∃ a, s = a ++ trimStart s.
Proof.
  induction s as [|c s [a IH]]; [exists []; reflexivity|]. cbn [trimStart].
  destruct (is_space c); [|exists []; reflexivity].
  exists (c :: a). cbn [app]. congruence.
Qed.

Lemma trimStart_head s c t : trimStart s = c :: t → is_space c = false.
Proof.
  induction s as [|d s IH]; cbn [trimStart]; [discriminate|].
  destruct (is_space d) eqn:E; [exact IH|]. intros [= -> _]. exact E.
Qed.

Lemma ltrimmed_spec l :
  ltrimmed l ↔ match l with [] => True | c :: _ => is_space c = false end.
Proof.
  unfold ltrimmed. destruct l as [|c l]; [tauto|]. split.
  - apply trimStart_head.
  - intros H. cbn [trimStart]. rewrite H. reflexivity.
Qed.

Lemma trimStart_ltrimmed s : ltrimmed (trimStart s).
Proof.
  apply ltrimmed_spec. destruct (trimStart s) as [|c t] eqn:E; [exact I|].
  eapply trimStart_head, E.
Qed.

Lemma trimEnd_prefix s : ∃ b, s = trimEnd s ++ b.
Proof.
  unfold trimEnd. destruct (trimStart_suffix (rev s)) as [a Ha].
  exists (rev a). rewrite <- rev_app_distr, <- Ha, rev_involutive. reflexivity.
Qed.

Lemma ltrimmed_prefix p b : ltrimmed (p ++ b) → ltrimmed p.
Proof. rewrite !ltrimmed_spec. destruct p; [tauto|exact id]. Qed.

Lemma trim_ltrimmed s : ltrimmed (trim s).
Proof.
  unfold trim. destruct (trimEnd_prefix (trimStart s)) as [b Hb].
  apply (ltrimmed_prefix _ b). rewrite <- Hb. apply trimStart_ltrimmed.
Qed.

Lemma trim_rtrimmed s : rtrimmed (trim s).
Proof.
  unfold rtrimmed, trim, trimEnd. rewrite rev_involutive. apply trimStart_ltrimmed.
Qed.

Lemma trim_fixed l : ltrimmed l → rtrimmed l → trim l = l.
Proof.
  unfold ltrimmed, rtrimmed, trim, trimEnd. intros -> ->. apply rev_involutive.
Qed.

Lemma trim_infix s : ∃ a b, s = a ++ trim s ++ b.
Proof.
  unfold trim. destruct (trimStart_suffix s) as [a Ha].
  destruct (trimEnd_prefix (trimStart s)) as [b Hb].
  exists a, b. congruence.
Qed.

(** *** The lines of a trimmed text *)

Lemma split_cons_inv c s :
  split NL (c :: s) = (if N.eqb c NL then [] :: split NL s
                       else match split NL s with
                            | l :: ls => (c :: l) :: ls
                            | [] => [[c]]
                            end).
Proof. reflexivity. Qed.

Lemma lines_trimStart_l s :
  Forall ltrimmed (split NL s) → Forall ltrimmed (split NL (trimStart s)).
Proof.
  induction s as [|c s IH]; intros H; [exact H|].
  cbn [trimStart]. destruct (is_space c) eqn:Ec; [|exact H]. apply IH.
  rewrite split_cons_inv in H. pose proof (split_nonempty s) as Hne.
  destruct (N.eqb c NL); [apply Forall_cons_1 in H; tauto|].
  destruct (split NL s) as [|l ls]; [congruence|].
  apply Forall_cons_1 in H as [H _]. apply ltrimmed_spec in H. congruence.
Qed.

Lemma rtrimmed_spec l :
  rtrimmed l ↔ match last l with None => True | Some c => is_space c = false end.
Proof.
  unfold rtrimmed. fold (ltrimmed (rev l)). rewrite ltrimmed_spec.
  destruct l as [|c l _] using rev_ind; [reflexivity|].
  rewrite rev_app_distr, last_snoc. reflexivity.
Qed.

Lemma lines_trimStart_r s :
  Forall rtrimmed (split NL s) → Forall rtrimmed (split NL (trimStart s)).
Proof.
  induction s as [|c s IH]; intros H; [exact H|].
  cbn [trimStart]. destruct (is_space c) eqn:Ec; [|exact H]. apply IH.
  rewrite split_cons_inv in H. pose proof (split_nonempty s) as Hne.
  destruct (N.eqb c NL); [apply Forall_cons_1 in H; tauto|].
  destruct (split NL s) as [|l ls]; [congruence|].
  apply Forall_cons_1 in H as [H Hls]. constructor; [|exact Hls].
  apply rtrimmed_spec in H. apply rtrimmed_spec.
  destruct l as [|d l]; [cbn in H; congruence|exact H].
Qed.

Lemma lines_rev_l s :
  Forall rtrimmed (split NL s) → Forall ltrimmed (split NL (rev s)).
Proof.
  intros H. rewrite split_rev. apply Forall_rev, Forall_map.
  eapply Forall_impl; [exact H|]. intros l Hl. exact Hl.
Qed.

Lemma lines_rev_r s :
  Forall ltrimmed (split NL s) → Forall rtrimmed (split NL (rev s)).
Proof.
  intros H. rewrite split_rev. apply Forall_rev, Forall_map.
  eapply Forall_impl; [exact H|]. intros l Hl. cbn. unfold rtrimmed.
  rewrite rev_involutive. exact Hl.
Qed.

(** Trimming a text whose lines are trimmed leaves its lines trimmed. *)
Lemma lines_trim w :
  Forall ltrimmed (split NL w) → Forall rtrimmed (split NL w) →
  Forall ltrimmed (split NL (trim w)) ∧ Forall rtrimmed (split NL (trim w)).
Proof.
  intros Hl Hr. unfold trim, trimEnd.
  apply lines_trimStart_l in Hl. apply lines_trimStart_r in Hr.
  pose proof (lines_rev_l _ Hr) as Hl'. pose proof (lines_rev_r _ Hl) as Hr'.
  apply lines_trimStart_l in Hl'. apply lines_trimStart_r in Hr'.
  split; [apply lines_rev_l, Hr'|apply lines_rev_r, Hl'].
Qed.

(** *** Spacing *)

(** No tab, and no blank next to a blank. *)
Fixpoint tidy (s : str) : bool :=
  match s with
  | [] => true
  | a :: s' =>
      negb (N.eqb a TAB)
      && negb (is_blank a && match s' with b :: _ => is_blank b | [] => false end)
      && tidy s'
  end.

Lemma tidy_app_r a b : tidy (a ++ b) = true → tidy b = true.
Proof.
  induction a as [|x a IH]; [auto|]. cbn [app tidy].
  rewrite !andb_true_iff. intros [_ H]. auto.
Qed.

Lemma tidy_app_l a b : tidy (a ++ b) = true → tidy a = true.
Proof.
  induction a as [|x a IH]; [reflexivity|]. cbn [app tidy].
  rewrite !andb_true_iff. intros [[H1 H2] H3]. repeat split; auto.
  destruct a as [|x' a]; [|exact H2].
  rewrite andb_false_r. reflexivity.
Qed.

Lemma tidy_app_nl l t : tidy l = true → tidy t = true → tidy (l ++ NL :: t) = true.
Proof.
  intros Hl Ht. induction l as [|x l IH].
  - cbn [app tidy]. rewrite Ht. reflexivity.
  - cbn [app tidy] in *. rewrite !andb_true_iff in *. destruct Hl as [[H1 H2] H3].
    repeat split; auto. destruct l as [|x' l]; [|exact H2].
    cbn [app]. change (is_blank NL) with false. rewrite andb_false_r. reflexivity.
Qed.

Lemma tidy_join ls : Forall (fun l => tidy l = true) ls → tidy (join [NL] ls) = true.
Proof.
  induction 1 as [|l ls Hl _ IH]; [reflexivity|].
  destruct ls as [|l' ls]; [exact Hl|]. rewrite join_cons. apply tidy_app_nl; auto.
Qed.

Lemma tidy_lines ls : tidy (join [NL] ls) = true → Forall (fun l => tidy l = true) ls.
Proof.
  induction ls as [|l ls IH]; intros H; [constructor|].
  destruct ls as [|l' ls]; [repeat constructor; exact H|].
  rewrite join_cons in H. constructor.
  - eapply tidy_app_l, H.
  - apply IH. apply (tidy_app_r [NL]). eapply tidy_app_r, H.
Qed.

Lemma tidy_trim s : tidy s = true → tidy (trim s) = true.
Proof.
  intros H. destruct (trim_infix s) as (a & b & Hs). rewrite Hs in H.
  eapply tidy_app_l, tidy_app_r, H.
Qed.

Fixpoint skip_blanks (s : str) : str :=
  match s with
  | c :: s' => if is_blank c then skip_blanks s' else s
  | [] => []
  end.

Lemma greedy_blanks s :
  greedy is_blank 0 None (fun s' => Some (s', [])) s = Some (skip_blanks s, []).
Proof.
  induction s as [|c s IH]; [reflexivity|]. cbn [greedy skip_blanks room dec Nat.pred].
  destruct (is_blank c); cbn [andb]; [rewrite IH|]; reflexivity.
Qed.

Lemma exec_spacing_blank c s :
  is_blank c = true → exec re_spacing (c :: s) = Some (skip_blanks s, []).
Proof.
  intros H. unfold exec, re_spacing, Plus. cbn [run greedy room dec Nat.pred].
  rewrite H. cbn [andb]. rewrite greedy_blanks. reflexivity.
Qed.

Lemma exec_spacing_other c s : is_blank c = false → exec re_spacing (c :: s) = None.
Proof.
  intros H. unfold exec, re_spacing, Plus. cbn [run greedy]. rewrite H. reflexivity.
Qed.

Lemma spacing_min_len : 1 ≤ min_len re_spacing.
Proof. reflexivity. Qed.

Definition head_blank (s : str) : bool :=
  match s with b :: _ => is_blank b | [] => false end.

Lemma skip_blanks_head s : head_blank (skip_blanks s) = false.
Proof.
  induction s as [|c s IH]; [reflexivity|]. cbn [skip_blanks].
  destruct (is_blank c) eqn:E; [exact IH|]. exact E.
Qed.

Lemma skip_blanks_id s : head_blank s = false → skip_blanks s = s.
Proof. destruct s as [|c s]; [reflexivity|]. cbn. intros ->. reflexivity. Qed.

Definition spacing (s : str) : str := replace re_spacing (fun _ _ => [SP]) s.

Lemma spacing_head s : head_blank s = false → head_blank (spacing s) = false.
Proof.
  destruct s as [|c s]; intros H.
  - unfold spacing. rewrite replace_nil; [reflexivity|]. apply exec_nil_min_len, spacing_min_len.
  - unfold spacing. rewrite replace_nomatch by (apply exec_spacing_other, H). exact H.
Qed.

(** What a match of the spacing pattern looks like. *)
Lemma exec_spacing_inv m rest caps :
  m ≠ [] → exec re_spacing (m ++ rest) = Some (rest, caps) →
  ∃ c s0, m ++ rest = c :: s0 ∧ is_blank c = true ∧ rest = skip_blanks s0.
Proof.
  intros Hm H. destruct m as [|c m]; [congruence|]. cbn [app] in *.
  destruct (is_blank c) eqn:E.
  - rewrite exec_spacing_blank in H by exact E. injection H as H _.
    exists c, (m ++ rest). auto.
  - rewrite exec_spacing_other in H by exact E. discriminate.
Qed.

Lemma spacing_tidy s : tidy (spacing s) = true.
Proof.
  revert s. apply (scan_ind re_spacing); [exact spacing_min_len|..].
  - unfold spacing. rewrite replace_nil; [reflexivity|].
    apply exec_nil_min_len, spacing_min_len.
  - intros c s Hno IH. unfold spacing in *. rewrite replace_nomatch by exact Hno.
    assert (Hc : is_blank c = false).
    { destruct (is_blank c) eqn:E; [|reflexivity].
      rewrite exec_spacing_blank in Hno by exact E. discriminate. }
    cbn [tidy]. rewrite IH, Hc. cbn [andb negb]. rewrite !andb_true_r.
    apply negb_true_iff, N.eqb_neq. intros ->. discriminate.
  - intros m rest caps Hm Hex IH.
    destruct (exec_spacing_inv m rest caps Hm Hex) as (c & s0 & _ & _ & Hrest).
    unfold spacing in *. rewrite (replace_match _ _ m rest caps) by assumption.
    cbn [app tidy]. rewrite IH.
    fold (head_blank (replace re_spacing (fun _ _ => [SP]) rest)).
    fold (spacing rest). rewrite spacing_head by (rewrite Hrest; apply skip_blanks_head).
    reflexivity.
Qed.

Lemma tidy_spacing s : tidy s = true → spacing s = s.
Proof.
  revert s.
  apply (scan_ind re_spacing (fun s => tidy s = true → spacing s = s));
    [exact spacing_min_len|..].
  - intros _. unfold spacing. apply replace_nil, exec_nil_min_len, spacing_min_len.
  - intros c s Hno IH H. unfold spacing in *. rewrite replace_nomatch by exact Hno.
    rewrite IH; [reflexivity|]. apply (tidy_app_r [c]), H.
  - intros m rest caps Hm Hex IH H.
    destruct (exec_spacing_inv m rest caps Hm Hex) as (c & s0 & Hs & Hc & Hrest).
    unfold spacing in *. rewrite (replace_match _ _ m rest caps) by assumption.
    rewrite IH by (eapply tidy_app_r, H). rewrite Hs in H |- *.
    cbn [tidy] in H. rewrite !andb_true_iff, !negb_true_iff in H.
    destruct H as [[Htab Hadj] _]. rewrite Hc in Hadj. cbn [andb] in Hadj.
    fold (head_blank s0) in Hadj. rewrite (skip_blanks_id s0 Hadj) in Hrest. subst rest.
    cbn [app]. f_equal. unfold is_blank in Hc. rewrite Htab, orb_false_r in Hc.
    apply N.eqb_eq in Hc. congruence.
Qed.

(** *** The formatter on its own output *)

Lemma map_trim_fixed ls :
  Forall ltrimmed ls → Forall rtrimmed ls → map trim ls = ls.
Proof.
  induction 1 as [|l ls Hl _ IH]; intros Hr; [reflexivity|].
  apply Forall_cons_1 in Hr as [Hr Hrs]. cbn [map].
  rewrite trim_fixed, IH by assumption. reflexivity.
Qed.

(** The shape of every output of the formatter. *)
Lemma format_shape x :
  let y := formatMarkdown x in
  tidy y = true
  ∧ Forall ltrimmed (split NL y) ∧ Forall rtrimmed (split NL y)
  ∧ ltrimmed y ∧ rtrimmed y.
Proof.
  unfold formatMarkdown.
  set (t3 := replace re_spacing _ _).
  set (lines := map trim (split NL t3)).
  assert (Hne : lines ≠ []).
  { unfold lines. pose proof (split_nonempty t3). destruct (split NL t3); [congruence|].
    discriminate. }
  assert (Hfree : Forall (fun l => NL ∉ l) lines).
  { unfold lines. apply Forall_map. eapply Forall_impl; [apply split_elems|].
    intros l Hl Hin. apply Hl. destruct (trim_infix l) as (a & b & ->).
    apply elem_of_app. right. apply elem_of_app. left. exact Hin. }
  assert (Htidy : Forall (fun l => tidy l = true) lines).
  { unfold lines. apply Forall_map. eapply Forall_impl.
    - apply tidy_lines. rewrite join_split. apply (spacing_tidy _).
    - intros l Hl. apply tidy_trim, Hl. }
  assert (Hl : Forall ltrimmed lines)
    by (unfold lines; apply Forall_map, Forall_forall; intros l _; apply trim_ltrimmed).
  assert (Hr : Forall rtrimmed lines)
    by (unfold lines; apply Forall_map, Forall_forall; intros l _; apply trim_rtrimmed).
  cbn zeta. split; [|split; [|split; [|split]]].
  - apply tidy_trim, tidy_join, Htidy.
  - apply lines_trim; rewrite split_join; assumption.
  - apply lines_trim; rewrite split_join; assumption.
  - apply trim_ltrimmed.
  - apply trim_rtrimmed.
Qed.

End FormatterFacts.

(** ** The post-formatter run twice *)

Module FormatterTwiceFacts.
Import Js Regex Formatter PdfText PdfImages PageAssembly.

(** Three runs at font size 10, one below the other by 10 units: the
    three lines [a-], [b-] and [c] of one block. *)
Definition hyphen_page : page :=
  Page [GlyphRun (lit "a-") (Matrix 1 0 0 1 50 700) 10 (lit "Times");
        GlyphRun (lit "b-") (Matrix 1 0 0 1 50 690) 10 (lit "Times");
        GlyphRun (lit "c") (Matrix 1 0 0 1 50 680) 10 (lit "Times")]
       [] (fun _ => None).

(** C1.  The formatter run on its own output changes it again.  The
    repair of broken words passes over the text once: in the three lines
    [a-], [b-], [c] it joins [a] and [b], and the second run joins [c] as
    well.  The blank lines are reduced before the lines are trimmed: two
    lines that hold a blank only, between [a] and [b], leave three
    newlines in a row, of which the second run removes one.  The first
    text is what the conversion of a page with the three runs [a-], [b-]
    and [c] hands to the formatter, so that the Markdown returned by the
    conversion is itself changed by the formatter. *)
Theorem format_twice_differs :
  formatMarkdown (lit "a-" ++ [NL] ++ lit "b-" ++ [NL] ++ lit "c") = lit "ab-" ++ [NL] ++ lit "c"
  ∧ formatMarkdown (formatMarkdown (lit "a-" ++ [NL] ++ lit "b-" ++ [NL] ++ lit "c")) = lit "abc"
  ∧ formatMarkdown (lit "a" ++ [NL; SP; NL; SP; NL] ++ lit "b") = lit "a" ++ [NL; NL; NL] ++ lit "b"
  ∧ formatMarkdown (formatMarkdown (lit "a" ++ [NL; SP; NL; SP; NL] ++ lit "b"))
    = lit "a" ++ [NL; NL] ++ lit "b"
  ∧ trim (pages_markdown 1 [hyphen_page]) = lit "a-" ++ [NL] ++ lit "b-" ++ [NL] ++ lit "c"
  ∧ convertPdfToMarkdown [hyphen_page] = lit "ab-" ++ [NL] ++ lit "c"
  ∧ formatMarkdown (convertPdfToMarkdown [hyphen_page]) ≠ convertPdfToMarkdown [hyphen_page].
Proof.
  repeat split; try (vm_compute; reflexivity). vm_compute. discriminate.
Qed.

End FormatterTwiceFacts.

(** ** PDF text: gaps between runs, blocks and headings *)

Module PdfTextFacts.
Import Js Regex RegexFacts Double PdfText.

Local Open Scope Q_scope.

(** *** Word gaps on synthetic runs *)

(** Modelled from the spec: the synthetic glyph runs of the testable
    property (the repository holds no test that builds them).  A line is
    a list of words in reading order, and a word is set as one run or as
    several runs that follow each other without a gap.  Positions lie on
    the grid of half units: [pen] counts half units and a run starts at
    [pen / 2].  A unit of text advances the pen by [fs] half units, which
    is the width [fontSize * 0.5] that the code assumes, and the single
    space between two words advances it by [sp] half units. *)
Fixpoint set_word (fs : Z) (ypos : Q) (font : str) (pen : Z) (chunks : list str)
    : list textItem :=
  match chunks with
  | [] => []
  | c :: chunks' =>
      TextItem c (pen # 2) ypos fs font
      :: set_word fs ypos font (pen + Z.of_nat (length c) * fs) chunks'
  end.

(** The half units by which a word advances the pen. *)
Definition advance (fs : Z) (chunks : list str) : Z :=
  Z.of_nat (length (concat chunks)) * fs.

Fixpoint render_words (fs sp : Z) (ypos : Q) (font : str) (pen : Z) (ws : list (list str))
    : list textItem :=
  match ws with
  | [] => []
  | w :: ws' =>
      set_word fs ypos font pen w
      ++ render_words fs sp ypos font (pen + advance fs w + sp) ws'
  end.

(** The half units that a line takes, a space counted after each word. *)
Definition extent (fs sp : Z) (ws : list (list str)) : Z :=
  fold_right (fun w acc => advance fs w + sp + acc)%Z 0%Z ws.

(** A word: not empty and without white space. *)
Definition word (w : str) : Prop := w ≠ [] ∧ Forall (fun c => is_space c = false) w.

(** The runs of a word: at least one, each of them a word by itself. *)
Definition word_runs (chunks : list str) : Prop := chunks ≠ [] ∧ Forall word chunks.

(** The threshold of the gap test at a font size, as the code computes
    it: [avgCharWidth * 0.2] with [avgCharWidth = fontSize * 0.5]. *)
Definition gap_threshold (fs : Z) : Q := fmul (fmul (inject_Z fs) (1 # 2)) lit_0_2.

Definition left_of (a b : textItem) : Prop := x a <= x b.

Lemma asc_cmp_spec (a b : textItem) : Qle_bool (x a - x b) 0 = true ↔ left_of a b.
Proof. unfold left_of. rewrite Qle_bool_iff. split; intros H; lra. Qed.

Lemma left_of_total a b : left_of a b ∨ left_of b a.
Proof. unfold left_of. destruct (Qlt_le_dec (x a) (x b)); [left; lra|right; assumption]. Qed.

Lemma left_of_trans a b c : left_of a b → left_of b c → left_of a c.
Proof. unfold left_of. intros. lra. Qed.

Lemma qgt_true a b : b < a → qgt a b = true.
Proof.
  intros H. unfold qgt. destruct (Qle_bool a b) eqn:E; [|reflexivity].
  apply Qle_bool_iff in E. lra.
Qed.

Lemma qgt_false a b : a <= b → qgt a b = false.
Proof. intros H. unfold qgt. apply Qle_bool_iff in H. rewrite H. reflexivity. Qed.

Lemma half_le (a b : Z) : a # 2 <= b # 2 ↔ (a <= b)%Z.
Proof. unfold Qle. cbn [Qnum Qden]. lia. Qed.

Lemma half_lt (a b : Z) : a # 2 < b # 2 ↔ (a < b)%Z.
Proof. unfold Qlt. cbn [Qnum Qden]. lia. Qed.

(** A multiple of one half below 2^52 in size is a double. *)
Lemma half_exact (q : Q) (n : Z) :
  q == n # 2 → (Z.abs n < 2 ^ 53)%Z → b64 q = b64 (n # 2) ∧ b64 (n # 2) == n # 2.
Proof.
  intros E Hn. split; [apply DoubleFacts.b64_comp, E|].
  apply (DoubleFacts.b64_exact _ n (-1)); [|exact Hn|lia].
  unfold Qeq. cbn. lia.
Qed.

(** The gap test reads the value of [lastEndX] only. *)
Lemma join_runs_comp l : ∀ first a b, a == b → join_runs first a l = join_runs first b l.
Proof.
  destruct l as [|it l]; intros first a b E; [reflexivity|].
  cbn [join_runs]. unfold fsub.
  rewrite (DoubleFacts.b64_comp (x it - a) (x it - b)) by (rewrite E; reflexivity).
  reflexivity.
Qed.

Lemma chunk_length (c : str) : word c → (1 <= Z.of_nat (length c))%Z.
Proof. intros [Hne _]. destruct c; [congruence|]. cbn [length]. lia. Qed.

Lemma advance_cons fs c w :
  advance fs (c :: w) = (Z.of_nat (length c) * fs + advance fs w)%Z.
Proof. unfold advance. cbn [concat]. rewrite length_app. lia. Qed.

Lemma advance_nonneg fs w : (0 < fs)%Z → (0 <= advance fs w)%Z.
Proof. intros H. unfold advance. nia. Qed.

Lemma extent_nonneg fs sp ws : (0 < fs)%Z → (0 <= sp)%Z → (0 <= extent fs sp ws)%Z.
Proof.
  intros Hfs Hsp. induction ws as [|w ws IH]; cbn [extent fold_right]; [lia|].
  fold (extent fs sp ws). pose proof (advance_nonneg fs w Hfs). lia.
Qed.

Section Render.
Variables (fs sp : Z) (ypos : Q) (font : str).
Hypothesis fs_pos : (0 < fs)%Z.
Hypothesis sp_wide : gap_threshold fs < sp # 2.

Lemma threshold_nonneg : 0 <= gap_threshold fs.
Proof.
  unfold gap_threshold, fmul. apply DoubleFacts.b64_nonneg, Qmult_le_0_compat.
  - apply DoubleFacts.b64_nonneg, Qmult_le_0_compat; [|discriminate].
    change 0 with (inject_Z 0). rewrite <- Zle_Qle. lia.
  - unfold lit_0_2. apply DoubleFacts.b64_nonneg. discriminate.
Qed.

Lemma sp_pos : (0 < sp)%Z.
Proof.
  pose proof threshold_nonneg as H. apply half_lt.
  apply (Qle_lt_trans _ (gap_threshold fs)); [|exact sp_wide].
  apply (Qle_trans _ 0); [discriminate|exact H].
Qed.

(** One run of the line: where the code puts the end of the run, and
    what the gap test in front of it sees. *)
Lemma join_runs_chunk first lastEndX (last_pen pen : Z) (c : str) (rest : list textItem) :
  lastEndX == last_pen # 2 →
  (0 <= last_pen <= pen)%Z → (pen + Z.of_nat (length c) * fs < 2 ^ 53)%Z →
  word c →
  join_runs first lastEndX (TextItem c (pen # 2) ypos fs font :: rest)
  = (if negb first && qgt ((pen - last_pen) # 2) (gap_threshold fs) then [SP] else [])
    ++ c ++ join_runs false ((pen + Z.of_nat (length c) * fs) # 2) rest.
Proof.
  intros Elast Hpen Hend Hc. pose proof (chunk_length c Hc) as Hlen.
  cbn [join_runs x str_ fontSize]. fold (gap_threshold fs).
  assert (Hgap : fsub (pen # 2) lastEndX == (pen - last_pen) # 2).
  { unfold fsub.
    destruct (half_exact ((pen # 2) - lastEndX) (pen - last_pen)) as [-> ->]; [|lia|reflexivity].
    rewrite Elast. unfold Qeq. cbn. lia. }
  assert (Hw : fmul (inject_Z fs) (1 # 2) == fs # 2).
  { unfold fmul. destruct (half_exact (inject_Z fs * (1 # 2)) fs) as [-> ->]; [|nia|reflexivity].
    unfold Qeq. cbn. lia. }
  assert (Hadv : fmul (inject_Z (Z.of_nat (length c))) (fmul (inject_Z fs) (1 # 2))
                 == (Z.of_nat (length c) * fs) # 2).
  { unfold fmul at 1.
    destruct (half_exact (inject_Z (Z.of_nat (length c)) * fmul (inject_Z fs) (1 # 2))
                (Z.of_nat (length c) * fs)) as [-> ->]; [|nia|reflexivity].
    rewrite Hw. unfold Qeq. cbn. lia. }
  assert (Hend' : fadd (pen # 2)
                    (fmul (inject_Z (Z.of_nat (length c))) (fmul (inject_Z fs) (1 # 2)))
                  == (pen + Z.of_nat (length c) * fs) # 2).
  { unfold fadd.
    destruct (half_exact ((pen # 2) + fmul (inject_Z (Z.of_nat (length c)))
                                      (fmul (inject_Z fs) (1 # 2)))
                (pen + Z.of_nat (length c) * fs)) as [-> ->]; [|nia|reflexivity].
    rewrite Hadv. unfold Qeq. cbn. lia. }
  rewrite (join_runs_comp rest false _ _ Hend').
  assert (Hq : qgt (fsub (pen # 2) lastEndX) (gap_threshold fs)
               = qgt ((pen - last_pen) # 2) (gap_threshold fs)).
  { unfold qgt. rewrite Hgap. reflexivity. }
  rewrite Hq. reflexivity.
Qed.

(** The further runs of a word follow without a gap and get no space. *)
Lemma join_runs_word (w : list str) : ∀ (pen : Z) (rest : list textItem),
  (0 <= pen)%Z → (pen + advance fs w < 2 ^ 53)%Z → Forall word w →
  join_runs false (pen # 2) (set_word fs ypos font pen w ++ rest)
  = concat w ++ join_runs false ((pen + advance fs w) # 2) rest.
Proof.
  induction w as [|c w IH]; intros pen rest Hpen Hend Hall.
  - cbn [set_word app concat]. unfold advance. cbn [concat length].
    replace (pen + Z.of_nat 0 * fs)%Z with pen by lia. reflexivity.
  - apply Forall_cons_1 in Hall as [Hc Hall]. pose proof (chunk_length c Hc) as Hlen.
    rewrite advance_cons in Hend |- *. pose proof (advance_nonneg fs w fs_pos) as Hadv.
    cbn [set_word app concat].
    rewrite (join_runs_chunk false (pen # 2) pen pen c); [|reflexivity|lia|nia|exact Hc].
    cbn [negb andb]. replace (pen - pen)%Z with 0%Z by lia.
    rewrite (qgt_false (0 # 2) (gap_threshold fs))
      by (eapply Qle_trans; [|apply threshold_nonneg]; discriminate).
    cbn [app]. rewrite IH; [|nia|nia|exact Hall].
    rewrite <- app_assoc, Z.add_assoc. reflexivity.
Qed.

(** A word set after the space: its first run gets the space. *)
Lemma join_runs_next_word (w : list str) (last_pen : Z) (rest : list textItem) :
  (0 <= last_pen)%Z → (last_pen + sp + advance fs w < 2 ^ 53)%Z → word_runs w →
  join_runs false (last_pen # 2) (set_word fs ypos font (last_pen + sp) w ++ rest)
  = [SP] ++ concat w ++ join_runs false ((last_pen + sp + advance fs w) # 2) rest.
Proof.
  intros Hpen Hend [Hne Hall]. destruct w as [|c w]; [congruence|].
  apply Forall_cons_1 in Hall as [Hc Hall]. pose proof (chunk_length c Hc) as Hlen.
  rewrite advance_cons in Hend |- *. pose proof (advance_nonneg fs w fs_pos) as Hadv.
  pose proof sp_pos as Hsp.
  cbn [set_word app concat].
  rewrite (join_runs_chunk false (last_pen # 2) last_pen (last_pen + sp) c);
    [|reflexivity|lia|nia|exact Hc].
  cbn [negb andb]. replace (last_pen + sp - last_pen)%Z with sp by lia.
  rewrite (qgt_true _ _ sp_wide). f_equal.
  rewrite join_runs_word; [|nia|nia|exact Hall].
  rewrite <- app_assoc, !Z.add_assoc. reflexivity.
Qed.

Lemma join_sp_cons (w w' : str) ws : join [SP] (w :: w' :: ws) = w ++ SP :: join [SP] (w' :: ws).
Proof. reflexivity. Qed.

(** The words that follow the first one. *)
Lemma join_runs_more (ws : list (list str)) : ∀ last_pen : Z,
  (0 <= last_pen)%Z → (last_pen + sp + extent fs sp ws < 2 ^ 53)%Z → Forall word_runs ws →
  join_runs false (last_pen # 2) (render_words fs sp ypos font (last_pen + sp) ws)
  = concat (map (fun w => SP :: concat w) ws).
Proof.
  induction ws as [|w ws IH]; intros last_pen Hpen Hend Hall; [reflexivity|].
  apply Forall_cons_1 in Hall as [Hw Hall]. cbn [extent fold_right] in Hend.
  fold (extent fs sp ws) in Hend. pose proof sp_pos as Hsp.
  pose proof (advance_nonneg fs w fs_pos) as Hadv.
  pose proof (extent_nonneg fs sp ws fs_pos ltac:(lia)) as Hext.
  cbn [render_words map concat].
  rewrite join_runs_next_word; [|lia|lia|exact Hw].
  rewrite IH; [|lia|lia|exact Hall]. reflexivity.
Qed.

Lemma join_words (w : str) (ws : list str) :
  join [SP] (w :: ws) = w ++ concat (map (fun v => SP :: v) ws).
Proof.
  revert w. induction ws as [|v ws IH]; intros w; [cbn; rewrite app_nil_r; reflexivity|].
  rewrite join_sp_cons, IH. reflexivity.
Qed.

(** The whole line, from its first run on. *)
Lemma join_runs_line (w : list str) (ws : list (list str)) (pen : Z) :
  (0 <= pen)%Z → (pen + extent fs sp (w :: ws) < 2 ^ 53)%Z → Forall word_runs (w :: ws) →
  join_runs true (pen # 2) (render_words fs sp ypos font pen (w :: ws))
  = join [SP] (map (@concat N) (w :: ws)).
Proof.
  intros Hpen Hend Hall. apply Forall_cons_1 in Hall as [[Hne Hw] Hall].
  cbn [extent fold_right] in Hend. fold (extent fs sp ws) in Hend.
  pose proof sp_pos as Hsp. pose proof (advance_nonneg fs w fs_pos) as Hadv.
  pose proof (extent_nonneg fs sp ws fs_pos ltac:(lia)) as Hext.
  destruct w as [|c w]; [congruence|]. apply Forall_cons_1 in Hw as [Hc Hw].
  pose proof (chunk_length c Hc) as Hlen. rewrite advance_cons in Hend, Hadv.
  pose proof (advance_nonneg fs w fs_pos) as Hadv'.
  cbn [render_words set_word app map]. rewrite advance_cons.
  rewrite (join_runs_chunk true (pen # 2) pen pen c); [|reflexivity|lia|nia|exact Hc].
  cbn [negb andb app].
  rewrite join_runs_word; [|nia|nia|exact Hw].
  rewrite Z.add_assoc.
  rewrite (join_runs_more ws (pen + Z.of_nat (length c) * fs + advance fs w));
    [|nia|lia|exact Hall].
  rewrite join_words. cbn [concat]. rewrite <- !app_assoc. do 2 f_equal.
  rewrite map_map. reflexivity.
Qed.

(** Every run of a word, and of the words after it, starts at the pen or
    to its right. *)
Lemma set_word_from (w : list str) : ∀ pen,
  Forall word w → Forall (fun it => pen # 2 <= x it) (set_word fs ypos font pen w).
Proof.
  induction w as [|c w IH]; intros pen Hall; cbn [set_word]; [constructor|].
  apply Forall_cons_1 in Hall as [Hc Hall]. pose proof (chunk_length c Hc) as Hlen.
  constructor; [cbn [x]; apply half_le; lia|].
  eapply Forall_impl; [apply IH, Hall|]. intros it Hit. cbn beta in Hit.
  eapply Qle_trans; [|exact Hit]. apply half_le. nia.
Qed.

(** The runs of a word start before the pen has passed the word. *)
Lemma set_word_before (w : list str) : ∀ pen,
  Forall word w →
  Forall (fun it => x it < (pen + advance fs w) # 2) (set_word fs ypos font pen w).
Proof.
  induction w as [|c w IH]; intros pen Hall; cbn [set_word]; [constructor|].
  apply Forall_cons_1 in Hall as [Hc Hall]. pose proof (chunk_length c Hc) as Hlen.
  rewrite advance_cons. pose proof (advance_nonneg fs w fs_pos) as Hadv.
  constructor; [cbn [x]; apply half_lt; nia|].
  eapply Forall_impl; [apply IH, Hall|]. intros it Hit. cbn beta in Hit.
  eapply Qlt_le_trans; [exact Hit|]. apply half_le. lia.
Qed.

Lemma set_word_sorted (w : list str) : ∀ pen,
  Forall word w → StronglySorted (fun a b => x a < x b) (set_word fs ypos font pen w).
Proof.
  induction w as [|c w IH]; intros pen Hall; cbn [set_word]; constructor.
  - apply Forall_cons_1 in Hall as [_ Hall]. apply IH, Hall.
  - apply Forall_cons_1 in Hall as [Hc Hall]. pose proof (chunk_length c Hc) as Hlen.
    eapply Forall_impl; [apply set_word_from, Hall|]. intros it Hit. cbn [x]. cbn beta in Hit.
    eapply Qlt_le_trans; [|exact Hit]. apply half_lt. nia.
Qed.

Lemma render_from (ws : list (list str)) : ∀ pen,
  Forall word_runs ws →
  Forall (fun it => pen # 2 <= x it) (render_words fs sp ypos font pen ws).
Proof.
  induction ws as [|w ws IH]; intros pen Hall; cbn [render_words]; [constructor|].
  apply Forall_cons_1 in Hall as [[_ Hw] Hall]. apply Forall_app. split.
  - apply set_word_from, Hw.
  - eapply Forall_impl; [apply IH, Hall|]. intros it Hit. cbn beta in Hit.
    eapply Qle_trans; [|exact Hit]. apply half_le.
    pose proof (advance_nonneg fs w fs_pos). pose proof sp_pos. lia.
Qed.

Lemma render_sorted (ws : list (list str)) : ∀ pen,
  Forall word_runs ws →
  StronglySorted (fun a b => x a < x b) (render_words fs sp ypos font pen ws).
Proof.
  induction ws as [|w ws IH]; intros pen Hall; cbn [render_words]; [constructor|].
  apply Forall_cons_1 in Hall as [[Hne Hw] Hall].
  apply StronglySorted_app. split; [|split; [apply set_word_sorted, Hw|apply IH, Hall]].
  intros a b Ha Hb.
  pose proof (set_word_before w pen Hw) as Hbefore.
  pose proof (render_from ws (pen + advance fs w + sp) Hall) as Hfrom.
  rewrite Forall_forall in Hbefore, Hfrom.
  pose proof (Hbefore a Ha) as Hlt. specialize (Hfrom b Hb). cbn beta in Hlt, Hfrom.
  eapply Qlt_le_trans; [exact Hlt|]. eapply Qle_trans; [|exact Hfrom].
  apply half_le. pose proof sp_pos. lia.
Qed.

End Render.

(** Runs that start at different places, given from left to right: no
    two of them are the same, and the order is the one of the sort. *)
Lemma strict_apart (l : list textItem) :
  StronglySorted (fun a b => x a < x b) l →
  ∀ a b, a ∈ l → b ∈ l → left_of a b → left_of b a → a = b.
Proof.
  induction 1 as [|c l Hs IH Hc]; intros a b Ha Hb Hab Hba.
  { apply elem_of_nil in Ha. contradiction. }
  rewrite Forall_forall in Hc. unfold left_of in Hab, Hba.
  apply elem_of_cons in Ha as [->|Ha]; apply elem_of_cons in Hb as [->|Hb].
  - reflexivity.
  - specialize (Hc b Hb). cbn beta in Hc. lra.
  - specialize (Hc a Ha). cbn beta in Hc. lra.
  - apply IH; assumption.
Qed.

Lemma strict_sorted (l : list textItem) :
  StronglySorted (fun a b => x a < x b) l → StronglySorted left_of l.
Proof.
  induction 1 as [|c l Hs IH Hc]; constructor; [exact IH|].
  eapply Forall_impl; [exact Hc|]. intros b Hb. apply Qlt_le_weak, Hb.
Qed.

Lemma join_words_head ws :
  ws ≠ [] → Forall word ws → FormatterFacts.ltrimmed (join [SP] ws).
Proof.
  intros Hne Hall. apply FormatterFacts.ltrimmed_spec.
  destruct ws as [|w ws]; [congruence|]. apply Forall_cons_1 in Hall as [[Hw Hc] _].
  destruct w as [|c w]; [congruence|]. apply Forall_cons_1 in Hc as [Hc _].
  destruct ws; exact Hc.
Qed.

Lemma join_words_last ws :
  ws ≠ [] → Forall word ws → ∃ c, last (join [SP] ws) = Some c ∧ is_space c = false.
Proof.
  induction ws as [|w ws IH]; intros Hne Hall; [congruence|].
  apply Forall_cons_1 in Hall as [[Hw Hc] Hall]. destruct ws as [|w' ws].
  - cbn [join]. destruct (last w) as [c|] eqn:E.
    + exists c. split; [reflexivity|]. apply last_Some in E as [l' ->].
      apply Forall_app in Hc as [_ Hc]. apply Forall_cons_1 in Hc as [Hc _]. exact Hc.
    + apply last_None in E. congruence.
  - destruct IH as (c & Hlast & Hc'); [discriminate|exact Hall|].
    exists c. split; [|exact Hc']. rewrite join_sp_cons, last_app, last_cons, Hlast.
    reflexivity.
Qed.

Lemma trim_join_words ws : ws ≠ [] → Forall word ws → trim (join [SP] ws) = join [SP] ws.
Proof.
  intros Hne Hall. apply FormatterFacts.trim_fixed.
  - apply join_words_head; assumption.
  - apply FormatterFacts.rtrimmed_spec.
    destruct (join_words_last ws Hne Hall) as (c & -> & Hc). exact Hc.
Qed.

(** The runs of a word, put together, are a word. *)
Lemma word_of_runs (w : list str) : word_runs w → word (concat w).
Proof.
  intros [Hne Hall]. split.
  - destruct w as [|c w]; [congruence|]. apply Forall_cons_1 in Hall as [[Hc _] _].
    cbn [concat]. destruct c; [congruence|discriminate].
  - apply Forall_concat. eapply Forall_impl; [exact Hall|]. intros c [_ Hc]. exact Hc.
Qed.

(** C4.  Words separated by single spaces are set as synthetic runs
    with a known spacing, on the grid of half units and below 2^52: a
    word is one run or several runs that follow each other without a
    gap, every unit is as wide as the code assumes (half the font size),
    and the space between two words is wider than the threshold of the
    gap test as the code computes it in binary64 (the rounded product
    of half the font size and 0.2).  In whatever order the runs arrive,
    sorting them by X puts them in reading order, and the gap
    reconstruction followed by the trim gives back the words joined by
    single spaces: a space where one was set and none inside a word. *)
Theorem word_gaps_reconstructed (fs sp pen : Z) (ypos : Q) (font : str)
    (ws : list (list str)) (runs : list textItem) :
  (0 < fs)%Z → gap_threshold fs < sp # 2 →
  (0 <= pen)%Z → (pen + extent fs sp ws < 2 ^ 53)%Z →
  ws ≠ [] → Forall word_runs ws →
  runs ≡ₚ render_words fs sp ypos font pen ws →
  sort_by_x runs = render_words fs sp ypos font pen ws
  ∧ line_text (sort_by_x runs) = join [SP] (map (@concat N) ws).
Proof.
  intros Hfs Hsp Hpen Hend Hne Hall Hperm.
  pose proof (render_sorted fs sp ypos font Hfs Hsp ws pen Hall) as Hsorted.
  assert (Hsort : sort_by_x runs = render_words fs sp ypos font pen ws).
  { assert (Hs : sort_by_x runs ≡ₚ render_words fs sp ypos font pen ws).
    { rewrite <- Hperm. apply SortingFacts.sort_perm. }
    apply (StronglySorted_unique_strong left_of); [| |apply strict_sorted, Hsorted|exact Hs].
    - intros a b Ha Hb. rewrite Hs in Ha. apply (strict_apart _ Hsorted); assumption.
    - apply SortingFacts.sort_sorted.
      + exact asc_cmp_spec.
      + exact left_of_total.
      + exact left_of_trans. }
  rewrite Hsort. split; [reflexivity|].
  destruct ws as [|w ws]; [congruence|].
  pose proof Hall as Hall0. apply Forall_cons_1 in Hall as [[Hw _] _].
  destruct w as [|c w]; [congruence|].
  unfold line_text.
  assert (Hfirst : ∃ rest, render_words fs sp ypos font pen ((c :: w) :: ws)
                           = TextItem c (pen # 2) ypos fs font :: rest)
    by (eexists; reflexivity).
  destruct Hfirst as [rest Hfirst]. rewrite Hfirst. cbn [x]. rewrite <- Hfirst.
  rewrite (join_runs_line fs sp ypos font Hfs Hsp (c :: w) ws pen Hpen Hend Hall0).
  apply trim_join_words; [discriminate|].
  apply Forall_map. eapply Forall_impl; [exact Hall0|]. intros v Hv. apply word_of_runs, Hv.
Qed.

Lemma word_literal (w : str) :
  forallb (fun c => negb (is_space c)) w = true → w ≠ [] → word w.
Proof.
  intros H Hne. split; [exact Hne|]. apply Forall_forall. intros c Hc.
  rewrite forallb_forall in H. apply negb_true_iff, H, list_elem_of_In, Hc.
Qed.

(** A line of four words at font size 12 from X = 72, the space 3 wide;
    the first and the last word are set as two runs each. *)
Definition sample_line : list (list str) :=
  [[lit "Hel"; lit "lo,"]; [lit "world!"]; [lit "(it's"]; [lit "fi"; lit "ne)."]].

Lemma word_gaps_reconstructed_witness :
  sort_by_x (rev (render_words 12 6 700 (lit "Helvetica") 144 sample_line))
  = render_words 12 6 700 (lit "Helvetica") 144 sample_line
  ∧ line_text (sort_by_x (rev (render_words 12 6 700 (lit "Helvetica") 144 sample_line)))
    = join [SP] (map (@concat N) sample_line).
Proof.
  apply word_gaps_reconstructed.
  - reflexivity.
  - vm_compute. reflexivity.
  - discriminate.
  - vm_compute. reflexivity.
  - discriminate.
  - repeat constructor; try discriminate; apply word_literal; try reflexivity; discriminate.
  - symmetry. apply Permutation_rev.
Defined.

(** *** Text that is not blank *)

(** Some unit is not white space. *)
Definition has_ink (s : str) : bool := existsb (fun c => negb (is_space c)) s.

Lemma has_ink_app a b : has_ink (a ++ b) = has_ink a || has_ink b.
Proof. apply existsb_app. Qed.

Lemma has_ink_trimStart s : has_ink (trimStart s) = has_ink s.
Proof.
  induction s as [|c s IH]; [reflexivity|]. cbn [trimStart].
  destruct (is_space c) eqn:E; [|reflexivity].
  rewrite IH. cbn [has_ink existsb]. rewrite E. reflexivity.
Qed.

Lemma has_ink_rev s : has_ink (rev s) = has_ink s.
Proof.
  induction s as [|c s IH]; [reflexivity|]. cbn [rev].
  rewrite has_ink_app, IH. cbn [has_ink existsb]. rewrite orb_false_r. apply orb_comm.
Qed.

Lemma has_ink_trim s : has_ink (trim s) = has_ink s.
Proof.
  unfold trim, trimEnd.
  rewrite has_ink_rev, has_ink_trimStart, has_ink_rev, has_ink_trimStart. reflexivity.
Qed.

Lemma truthy_ink s : has_ink s = true → truthy s = true.
Proof. destruct s; [discriminate|reflexivity]. Qed.

Lemma ink_trim_truthy s : has_ink s = true → truthy (trim s) = true.
Proof. intros H. apply truthy_ink. rewrite has_ink_trim. exact H. Qed.

Lemma truthy_trim_ink s : truthy (trim s) = true → has_ink s = true.
Proof.
  intros H. rewrite <- has_ink_trim. pose proof (FormatterFacts.trim_ltrimmed s) as Hl.
  apply FormatterFacts.ltrimmed_spec in Hl. destruct (trim s) as [|c t]; [discriminate|].
  cbn [has_ink existsb]. rewrite Hl. reflexivity.
Qed.

Lemma space_range c : is_space c = true → (c < 48 ∨ 122 < c)%N.
Proof.
  unfold is_space, is_line_terminator, between.
  rewrite !orb_true_iff, !andb_true_iff, !N.eqb_eq, !N.leb_le. lia.
Qed.

Lemma lower_ink c : is_lower c = true → negb (is_space c) = true.
Proof.
  unfold is_lower, between. rewrite andb_true_iff, !N.leb_le. intros H.
  destruct (is_space c) eqn:E; [|reflexivity]. apply space_range in E. lia.
Qed.

Lemma digit_ink c : is_digit c = true → negb (is_space c) = true.
Proof.
  unfold is_digit, between. rewrite andb_true_iff, !N.leb_le. intros H.
  destruct (is_space c) eqn:E; [|reflexivity]. apply space_range in E. lia.
Qed.

(** A replacement that always holds ink keeps a text that holds ink in
    that state. *)
Lemma replace_ink r f :
  (1 ≤ min_len r)%nat →
  (∀ m rest caps, exec r (m ++ rest) = Some (rest, caps) → has_ink (f m caps) = true) →
  ∀ s, has_ink s = true → has_ink (replace r f s) = true.
Proof.
  intros Hmin Hf.
  apply (scan_ind r (fun s => has_ink s = true → has_ink (replace r f s) = true));
    [exact Hmin|..].
  - discriminate.
  - intros c s Hno IH H. rewrite replace_nomatch by exact Hno.
    cbn [has_ink existsb] in *. apply orb_true_iff in H as [H|H].
    + rewrite H. reflexivity.
    + fold (has_ink s) in H. fold (has_ink (replace r f s)). rewrite IH by exact H.
      apply orb_true_r.
  - intros m rest caps Hm Hex _ _. rewrite (replace_match _ _ m rest caps) by assumption.
    rewrite has_ink_app, (Hf m rest caps Hex). reflexivity.
Qed.

(** The first capture of a pattern that opens with a group of one unit. *)
Lemma exec_first_group p r2 s rest caps :
  exec (Cat (Grp (Cls p)) r2) s = Some (rest, caps) →
  ∃ a ext, caps = [a] :: ext ∧ p a = true.
Proof.
  unfold exec. cbn [run]. destruct s as [|a s]; [discriminate|].
  destruct (p a) eqn:E; [|discriminate].
  replace (length (a :: s) - length s)%nat with 1%nat by (cbn [length]; lia).
  cbn [take app]. intros H.
  apply run_sound in H as (m & s' & ext & _ & _ & [= _ <-]).
  exists a, ext. auto.
Qed.

Lemma g1_sp_g2_ink p r2 :
  (∀ c, p c = true → negb (is_space c) = true) →
  ∀ m rest caps, exec (Cat (Grp (Cls p)) r2) (m ++ rest) = Some (rest, caps) →
                 has_ink (g1_sp_g2 m caps) = true.
Proof.
  intros Hp m rest caps H. apply exec_first_group in H as (a & ext & -> & Ha).
  unfold g1_sp_g2, cap. cbn [Nat.pred nth app has_ink existsb].
  rewrite (Hp a Ha). reflexivity.
Qed.

Lemma after_ink (p : str) r :
  has_ink p = true →
  ∀ m rest caps, exec r (m ++ rest) = Some (rest, caps) → has_ink (after p m caps) = true.
Proof. intros Hp m rest caps _. unfold after. rewrite has_ink_app, Hp. reflexivity. Qed.

Lemma fix_spacing_ink s : has_ink s = true → has_ink (fix_spacing s) = true.
Proof.
  intros H. unfold fix_spacing.
  apply replace_ink; [cbn; lia|apply after_ink; reflexivity|].
  apply replace_ink; [cbn; lia|apply after_ink; reflexivity|].
  apply replace_ink; [cbn; lia|apply g1_sp_g2_ink, lower_ink|].
  apply replace_ink; [cbn; lia|apply g1_sp_g2_ink, lower_ink|].
  apply replace_ink; [cbn; lia|apply g1_sp_g2_ink, digit_ink|].
  apply replace_ink; [cbn; lia|apply after_ink; reflexivity|].
  apply replace_ink; [cbn; lia|apply after_ink; reflexivity|].
  apply replace_ink; [cbn; lia|apply after_ink; reflexivity|].
  apply replace_ink; [cbn; lia|apply after_ink; reflexivity|].
  apply replace_ink; [cbn; lia|apply g1_sp_g2_ink, lower_ink|].
  exact H.
Qed.

Lemma ink_prefixed (p s : str) : has_ink p = true → has_ink (p ++ s) = true.
Proof. intros H. rewrite has_ink_app, H. reflexivity. Qed.

Lemma ink_suffixed (p s : str) : has_ink s = true → has_ink (p ++ s) = true.
Proof. intros H. rewrite has_ink_app, H. apply orb_true_r. Qed.

Lemma classify_list_ink indentPrefix text :
  has_ink text = true → has_ink (classify_list indentPrefix text) = true.
Proof.
  intros H. unfold classify_list.
  repeat match goal with
         | |- context [if ?b then _ else _] => destruct b
         | |- context [match match_ ?r ?t with _ => _ end] => destruct (match_ r t)
         end;
    try exact H;
    try (apply ink_suffixed; exact H);
    try (apply ink_suffixed, ink_prefixed; reflexivity);
    try (apply ink_suffixed, ink_suffixed, ink_prefixed; reflexivity).
Qed.

Lemma classify_ink lineItems text :
  has_ink text = true → has_ink (classify lineItems text) = true.
Proof.
  intros H. unfold classify.
  repeat match goal with
         | |- context [if ?b then _ else _] => destruct b
         end;
    try (apply ink_prefixed; reflexivity).
  all: apply classify_list_ink, H.
Qed.

Definition inked (it : textItem) : Prop := has_ink (str_ it) = true.

Lemma join_runs_ink l : ∀ first lastEndX,
  l ≠ [] → Forall inked l → has_ink (join_runs first lastEndX l) = true.
Proof.
  destruct l as [|it l]; intros first lastEndX Hne Hall; [congruence|].
  apply Forall_cons_1 in Hall as [Hit _]. cbn [join_runs].
  apply ink_suffixed, ink_prefixed, Hit.
Qed.

Lemma process_line_ink line :
  line ≠ [] → Forall inked line → has_ink (process_line line) = true.
Proof.
  intros Hne Hall. unfold process_line.
  assert (Hperm : sort_by_x line ≡ₚ line) by apply SortingFacts.sort_perm.
  assert (Hall' : Forall inked (sort_by_x line)) by (rewrite Hperm; exact Hall).
  assert (Hne' : sort_by_x line ≠ []).
  { intros E. rewrite E in Hperm. symmetry in Hperm.
    apply Permutation_nil_r in Hperm. congruence. }
  apply classify_ink, fix_spacing_ink. unfold line_text.
  destruct (sort_by_x line) as [|first rest] eqn:E; [congruence|].
  rewrite has_ink_trim. apply join_runs_ink; [discriminate|exact Hall'].
Qed.

Lemma group_lines_spec l : ∀ lastY cur,
  Forall inked cur → Forall inked l → cur ≠ [] ∨ l ≠ [] →
  group_lines lastY cur l ≠ []
  ∧ Forall (fun line => line ≠ [] ∧ Forall inked line) (group_lines lastY cur l).
Proof.
  induction l as [|it l IH]; intros lastY cur Hcur Hl Hne; cbn [group_lines].
  - destruct cur as [|c cur]; [destruct Hne; congruence|].
    split; [discriminate|]. constructor; [split; [discriminate|exact Hcur]|constructor].
  - apply Forall_cons_1 in Hl as [Hit Hl].
    destruct (qgt (Qabs (fsub (y it) lastY)) 3).
    + destruct (IH (y it) [it]) as [H1 H2]; [repeat constructor; exact Hit|exact Hl|
                                              left; discriminate|].
      destruct cur as [|c cur]; [split; assumption|].
      split; [discriminate|]. constructor; [|exact H2]. split; [discriminate|exact Hcur].
    + apply IH; [|exact Hl|].
      * apply Forall_app. split; [exact Hcur|repeat constructor; exact Hit].
      * left. intros E. apply app_eq_nil in E as [_ E]. discriminate.
Qed.

Lemma join_nl_ink (ls : list str) :
  match ls with l :: _ => has_ink l = true | [] => False end →
  has_ink (join [NL] ls) = true.
Proof.
  destruct ls as [|l ls]; [tauto|]. intros H. destruct ls; [exact H|].
  rewrite FormatterFacts.join_cons. apply ink_prefixed, H.
Qed.

(** A block whose runs are not blank has a text that is not blank. *)
Lemma processTextBlock_ink items :
  items ≠ [] → Forall inked items → truthy (trim (processTextBlock items)) = true.
Proof.
  intros Hne Hall. apply ink_trim_truthy. unfold processTextBlock.
  destruct items as [|first rest] eqn:E; [congruence|]. rewrite <- E in *.
  destruct (group_lines_spec items (y first) [] (Forall_nil_2 _) Hall) as [H1 H2];
    [right; exact Hne|].
  apply join_nl_ink. destruct (group_lines (y first) [] items) as [|line lines];
    [congruence|].
  apply Forall_cons_1 in H2 as [[Hl1 Hl2] _]. cbn [map].
  apply process_line_ink; assumption.
Qed.

(** *** Blocks: a heading and the paragraph after it *)

(** The item that the segmentation loop makes of a glyph run. *)
Definition item_of (p : glyphRun) : textItem :=
  TextItem (run_str p) (m4 (run_transform p)) (m5 (run_transform p))
           (round (run_height p)) (run_fontName p).

Definition run_y (p : glyphRun) : Q := m5 (run_transform p).

(** A run of the paragraph: not blank, at font size 11. *)
Definition paragraph_run (p : glyphRun) : Prop :=
  truthy (trim (run_str p)) = true ∧ round (run_height p) = 11%Z.

(** Each run lies within one and a half font sizes of the one before,
    the distance being the one that the code measures: the difference
    of the two positions as the subtraction of doubles gives it. *)
Fixpoint chained (ly : Q) (ps : list glyphRun) : Prop :=
  match ps with
  | [] => True
  | p :: ps' => Qabs (fsub (run_y p) ly) <= fmul 11 (15 # 10) ∧ chained (run_y p) ps'
  end.

Lemma truthy_trim s : truthy (trim s) = true → truthy s = true.
Proof. destruct s; [discriminate|reflexivity]. Qed.

Lemma not_blank_run p :
  truthy (trim (run_str p)) = true →
  negb (truthy (run_str p)) || negb (truthy (trim (run_str p))) = false.
Proof. intros H. rewrite (truthy_trim _ H), H. reflexivity. Qed.

Lemma segment_step_first s p :
  truthy (trim (run_str p)) = true → lastY s = None →
  segment_step s p
  = Segmenter (blocks s) (cur_items s ++ [item_of p])
      (min_with (cur_minY s) (run_y p)) (max_with (cur_maxY s) (run_y p)) (Some (run_y p)).
Proof.
  intros Hp Hl. unfold segment_step. rewrite (not_blank_run p Hp), Hl. reflexivity.
Qed.

Lemma segment_step_append s p ly :
  truthy (trim (run_str p)) = true → lastY s = Some ly →
  Qabs (fsub (run_y p) ly) <= fmul (inject_Z (round (run_height p))) (15 # 10) →
  segment_step s p
  = Segmenter (blocks s) (cur_items s ++ [item_of p])
      (min_with (cur_minY s) (run_y p)) (max_with (cur_maxY s) (run_y p)) (Some (run_y p)).
Proof.
  intros Hp Hl Hgap. unfold segment_step. rewrite (not_blank_run p Hp), Hl.
  fold (run_y p). rewrite (qgt_false _ _ Hgap). reflexivity.
Qed.

Lemma segment_step_split s p ly :
  truthy (trim (run_str p)) = true → lastY s = Some ly →
  fmul (inject_Z (round (run_height p))) (15 # 10) < Qabs (fsub (run_y p) ly) →
  segment_step s p
  = Segmenter (close_block s) [item_of p] (Some (run_y p)) (Some (run_y p))
      (Some (run_y p)).
Proof.
  intros Hp Hl Hgap. unfold segment_step. rewrite (not_blank_run p Hp), Hl.
  fold (run_y p). rewrite (qgt_true _ _ Hgap). reflexivity.
Qed.

(** Chained paragraph runs all join the current block. *)
Lemma fold_paragraph ps : ∀ s ly,
  lastY s = Some ly → Forall paragraph_run ps → chained ly ps →
  ∃ mn mx ly',
    fold_left segment_step ps s
    = Segmenter (blocks s) (cur_items s ++ map item_of ps) mn mx (Some ly').
Proof.
  induction ps as [|p ps IH]; intros s ly Hl Hall Hch.
  - exists (cur_minY s), (cur_maxY s), ly. cbn [fold_left map].
    rewrite app_nil_r, <- Hl. destruct s; reflexivity.
  - apply Forall_cons_1 in Hall as [[Hp Hfs] Hall]. destruct Hch as [Hgap Hch].
    cbn [fold_left]. rewrite (segment_step_append s p ly Hp Hl) by (rewrite Hfs; exact Hgap).
    match goal with |- context [fold_left segment_step ps ?s1] =>
      destruct (IH s1 (run_y p) eq_refl Hall Hch) as (mn & mx & ly' & ->) end.
    exists mn, mx, ly'. cbn [blocks cur_items map]. rewrite <- app_assoc. reflexivity.
Qed.

Lemma same_line (q : Q) : qgt (Qabs (fsub q q)) 3 = false.
Proof.
  unfold fsub. rewrite (DoubleFacts.b64_0 (q - q)) by ring. reflexivity.
Qed.

(** The block of the heading run alone. *)
Lemma heading_text (xh yh : Q) (font : str) :
  processTextBlock [TextItem (lit "Introduction") xh yh 24 font] = lit "# Introduction".
Proof.
  unfold processTextBlock. cbn [group_lines y]. rewrite same_line.
  cbn [app group_lines map join]. unfold process_line.
  change (sort_by_x [TextItem (lit "Introduction") xh yh 24 font])
    with [TextItem (lit "Introduction") xh yh 24 font].
  unfold line_text. cbn [join_runs negb andb x str_ app].
  unfold classify. cbn [sum_fontSize fold_left fontSize length].
  replace (Qle_bool 20 (fdiv (fadd 0 (inject_Z 24)) (inject_Z (Z.of_nat 1)))) with true
    by (vm_compute; reflexivity).
  cbn iota. vm_compute. reflexivity.
Qed.

(** C5.  A run "Introduction" at font size 24, then paragraph runs at
    font size 11 (none of them blank), the first more than one and a half
    times 11 away in Y from the heading and each next one within that
    distance of the one before, the distance being the one the code
    measures (the magnitude of the binary64 difference of the two Y
    positions): the segmentation yields exactly two
    blocks, the first holding the heading run alone with the text
    [# Introduction], the second holding all paragraph runs. *)
Theorem heading_and_paragraph_blocks (h p1 : glyphRun) (ps : list glyphRun) :
  run_str h = lit "Introduction" → round (run_height h) = 24%Z →
  Forall paragraph_run (p1 :: ps) →
  fmul 11 (15 # 10) < Qabs (fsub (run_y p1) (run_y h)) →
  chained (run_y p1) ps →
  ∃ (mn mx : option Q) (t2 : str),
    extractTextBlocks (h :: p1 :: ps)
    = [Block [item_of h] (Some (run_y h)) (Some (run_y h)) (Some (run_y h))
             (lit "# Introduction");
       Block (map item_of (p1 :: ps)) mx mn mx t2]
    ∧ processTextBlock [item_of h] = lit "# Introduction".
Proof.
  intros Hstr Hfs Hall Hsep Hch.
  assert (Hhead : processTextBlock [item_of h] = lit "# Introduction").
  { unfold item_of. rewrite Hstr, Hfs. apply heading_text. }
  pose proof Hall as Hall0. apply Forall_cons_1 in Hall as [[Hp1 Hfs1] Hall].
  unfold extractTextBlocks. cbn [fold_left].
  rewrite (segment_step_first (Segmenter [] [] None None None) h);
    [|rewrite Hstr; reflexivity|reflexivity].
  cbn [blocks cur_items cur_minY cur_maxY app min_with max_with].
  match goal with |- context [segment_step ?s1 p1] =>
    rewrite (segment_step_split s1 p1 (run_y h) Hp1 eq_refl) by (rewrite Hfs1; exact Hsep) end.
  unfold close_block at 2. cbn [cur_items blocks cur_minY cur_maxY].
  rewrite Hhead. change (truthy (trim (lit "# Introduction"))) with true. cbn [app].
  match goal with |- context [fold_left segment_step ps ?s1] =>
    destruct (fold_paragraph ps s1 (run_y p1) eq_refl Hall Hch) as (mn & mx & ly' & ->) end.
  cbn [blocks cur_items]. unfold close_block. cbn [cur_items blocks cur_minY cur_maxY app].
  rewrite processTextBlock_ink.
  - exists mn, mx, (processTextBlock (item_of p1 :: map item_of ps)).
    split; reflexivity.
  - discriminate.
  - change (item_of p1 :: map item_of ps) with (map item_of (p1 :: ps)).
    apply Forall_map. eapply Forall_impl; [exact Hall0|].
    intros p [Hp _]. apply truthy_trim_ink, Hp.
Qed.

Definition sample_run (s : string) (xpos ypos height : Q) : glyphRun :=
  GlyphRun (lit s) (Matrix 1 0 0 1 xpos ypos) height (lit "Helvetica").

Lemma heading_and_paragraph_blocks_witness :
  ∃ (mn mx : option Q) (t2 : str),
    extractTextBlocks [sample_run "Introduction" 72 700 24;
                       sample_run "This document describes" 72 660 11;
                       sample_run "the pipeline." 72 647 11]
    = [Block [item_of (sample_run "Introduction" 72 700 24)] (Some 700) (Some 700) (Some 700)
             (lit "# Introduction");
       Block (map item_of [sample_run "This document describes" 72 660 11;
                           sample_run "the pipeline." 72 647 11]) mx mn mx t2]
    ∧ processTextBlock [item_of (sample_run "Introduction" 72 700 24)]
      = lit "# Introduction".
Proof.
  apply (heading_and_paragraph_blocks (sample_run "Introduction" 72 700 24)
           (sample_run "This document describes" 72 660 11)
           [sample_run "the pipeline." 72 647 11]).
  - reflexivity.
  - reflexivity.
  - repeat constructor.
  - vm_compute. reflexivity.
  - split; [|exact I]. vm_compute. discriminate.
Defined.

(** Three places where the rounding decides.  At font size 12 a run [b]
    at 7.2 after a run [a] at 0: the gap 7.2 - 6 and the threshold
    6 * 0.2 round to the same double, and no space is set.  A heading at
    16.6 and a paragraph run at 0.1, at font size 11: the distance rounds
    to 16.5, which does not exceed 1.5 * 11, and one block is made.  Two
    items at 0.1 and 3.1: the distance rounds to 3 and they share a
    line. *)
Lemma rounding_decides :
  line_text [TextItem (lit "a") 0 700 12 []; TextItem (lit "b") (b64 (72 # 10)) 700 12 []]
  = lit "ab"
  ∧ length (extractTextBlocks
              [GlyphRun (lit "Introduction") (Matrix 1 0 0 1 72 (b64 (166 # 10))) 24 [];
               GlyphRun (lit "text") (Matrix 1 0 0 1 72 (b64 (1 # 10))) 11 []]) = 1%nat
  ∧ length (group_lines (b64 (1 # 10)) []
              [TextItem (lit "a") 0 (b64 (1 # 10)) 11 [];
               TextItem (lit "b") 0 (b64 (31 # 10)) 11 []]) = 1%nat.
Proof. repeat split; vm_compute; reflexivity. Qed.

End PdfTextFacts.

(** ** Undo and redo history *)

Module HistoryFacts.
Import Js History.

(** The history is empty with the index at -1, or the index points into
    it; it never holds more than [MAX_HISTORY] entries. *)
Definition bounded (s : state) : Prop :=
  (history s = [] ∧ historyIndex s = (-1)%Z)
  ∨ ((0 <= historyIndex s < Z.of_nat (length (history s)))%Z
     ∧ length (history s) ≤ MAX_HISTORY).

(** The entry under the index is the text of the textarea. *)
Definition in_step (s : state) : Prop :=
  entry (history s) (historyIndex s) = Some (value s).

Lemma entry_lookup (h : list str) (i : Z) :
  (0 <= i)%Z → entry h i = h !! Z.to_nat i.
Proof. intros H. unfold entry. destruct (Z.ltb_spec i 0); [lia|reflexivity]. Qed.

Lemma assigned_entry (h : list str) (i : Z) (v : str) :
  entry h i = Some v → assigned h i = v.
Proof. intros H. unfold assigned. rewrite H. reflexivity. Qed.

Lemma tail_length (h : list str) : length (tail h) = pred (length h).
Proof. destruct h; reflexivity. Qed.

(** The entries that a save keeps in front of the new one. *)
Definition kept (s : state) : list str := take (Z.to_nat (historyIndex s + 1)) (history s).

Lemma kept_length s : bounded s → length (kept s) = Z.to_nat (historyIndex s + 1).
Proof.
  intros [[Hh Hi]|[Hi Hlen]]; unfold kept; rewrite length_take.
  - rewrite Hh, Hi. reflexivity.
  - lia.
Qed.

(** A save of a text that differs from the current entry. *)
Lemma save_changed s :
  bounded s → ¬ in_step s →
  saveToHistory s
  = if (MAX_HISTORY <? length (kept s ++ [value s]))%nat
    then State (value s) (tail (kept s ++ [value s])) (historyIndex s)
    else State (value s) (kept s ++ [value s]) (historyIndex s + 1).
Proof.
  intros Hb Hne. unfold saveToHistory, in_step in *.
  rewrite (bool_decide_eq_false_2 _ Hne).
  assert (Hk : (if (historyIndex s <? Z.of_nat (length (history s)) - 1)%Z
                then slice0 (history s) (historyIndex s + 1) else history s) = kept s).
  { unfold kept, slice0. destruct Hb as [[Hh Hi]|[Hi Hlen]].
    - rewrite Hh, Hi. reflexivity.
    - destruct (Z.ltb_spec (historyIndex s) (Z.of_nat (length (history s)) - 1)).
      + destruct (Z.ltb_spec (historyIndex s + 1) 0); [lia|reflexivity].
      + rewrite take_ge; [reflexivity|lia]. }
  rewrite Hk. reflexivity.
Qed.

Lemma save_bounded s : bounded s → bounded (saveToHistory s) ∧ in_step (saveToHistory s).
Proof.
  intros Hb. destruct (decide (in_step s)) as [Hs|Hs].
  - unfold saveToHistory. unfold in_step in Hs. rewrite (bool_decide_eq_true_2 _ Hs).
    split; assumption.
  - rewrite (save_changed s Hb Hs). pose proof (kept_length s Hb) as Hk.
    assert (Hi : (-1 <= historyIndex s)%Z) by (destruct Hb as [[_ ->]|[? _]]; lia).
    assert (Hmax : Z.to_nat (historyIndex s + 1) ≤ MAX_HISTORY).
    { destruct Hb as [[_ ->]|[? ?]]; unfold MAX_HISTORY in *; lia. }
    rewrite length_app, Hk. cbn [length].
    destruct (Nat.ltb_spec MAX_HISTORY (Z.to_nat (historyIndex s + 1) + 1)).
    + assert (Hidx : historyIndex s = 49%Z) by (unfold MAX_HISTORY in *; lia).
      split.
      * right. cbn [history historyIndex]. rewrite tail_length, length_app, Hk. cbn [length].
        unfold MAX_HISTORY. lia.
      * unfold in_step. cbn [history historyIndex value]. rewrite entry_lookup by lia.
        rewrite lookup_tail, lookup_app_r by lia.
        replace (S (Z.to_nat (historyIndex s)) - length (kept s)) with 0 by lia.
        reflexivity.
    + split.
      * right. cbn [history historyIndex]. rewrite length_app, Hk. cbn [length]. lia.
      * unfold in_step. cbn [history historyIndex value]. rewrite entry_lookup by lia.
        rewrite lookup_app_r by lia.
        replace (Z.to_nat (historyIndex s + 1) - length (kept s)) with 0 by lia.
        reflexivity.
Qed.

Lemma step_bounded s e : bounded s → bounded (step s e).
Proof.
  intros Hb. destruct e as [v|v| | |]; cbn [step].
  - apply save_bounded. exact Hb.
  - exact Hb.
  - unfold undo. destruct (Z.ltb_spec 0 (historyIndex s)); [|exact Hb].
    destruct Hb as [[_ Hi]|[Hi Hlen]]; [lia|]. right. cbn [history historyIndex].
    split; [lia|exact Hlen].
  - unfold redo.
    destruct (Z.ltb_spec (historyIndex s) (Z.of_nat (length (history s)) - 1)); [|exact Hb].
    destruct Hb as [[Hh Hi]|[Hi Hlen]].
    + rewrite Hh, Hi in *. cbn in *. lia.
    + right. cbn [history historyIndex]. split; [lia|exact Hlen].
  - left. split; reflexivity.
Qed.

(** X1.  Whatever happens to the editor, in whatever order, the history
    stays within its bounds: it is empty with the index at -1, or the
    index points at one of its entries, of which there are never more
    than fifty. *)
Theorem history_stays_bounded (v0 : str) (events : list event) :
  let s := fold_left step events (loaded v0) in
  (history s = [] ∧ historyIndex s = (-1)%Z)
  ∨ ((0 <= historyIndex s < Z.of_nat (length (history s)))%Z
     ∧ length (history s) ≤ 50).
Proof.
  cbn zeta. change 50 with MAX_HISTORY. fold (bounded (fold_left step events (loaded v0))).
  assert (H0 : bounded (loaded v0)) by (left; split; reflexivity).
  revert H0. generalize (loaded v0).
  induction events as [|e events IH]; intros s Hs; [exact Hs|].
  cbn [fold_left]. apply IH, step_bounded, Hs.
Qed.

(** X2.  When the textarea shows the entry under the index, an undo that
    has an entry to go back to is taken back by the redo that follows,
    and a redo by the undo that follows: text, history and index are as
    they were. *)
Theorem undo_redo_round_trip (s : state) :
  entry (history s) (historyIndex s) = Some (value s) →
  ((0 < historyIndex s)%Z → redo (undo s) = s)
  ∧ ((historyIndex s < Z.of_nat (length (history s)) - 1)%Z → undo (redo s) = s).
Proof.
  intros Hs. destruct s as [v h i]. cbn [history historyIndex value] in *.
  assert (Hi : (0 <= i < Z.of_nat (length h))%Z).
  { unfold entry in Hs. destruct (Z.ltb_spec i 0); [discriminate|].
    apply lookup_lt_Some in Hs. lia. }
  split; intros Hgo.
  - unfold undo. cbn [history historyIndex]. destruct (Z.ltb_spec 0 i); [|lia].
    unfold redo. cbn [history historyIndex].
    destruct (Z.ltb_spec (i - 1) (Z.of_nat (length h) - 1)); [|lia].
    replace (i - 1 + 1)%Z with i by lia. rewrite (assigned_entry h i v Hs). reflexivity.
  - unfold redo. cbn [history historyIndex].
    destruct (Z.ltb_spec i (Z.of_nat (length h) - 1)); [|lia].
    unfold undo. cbn [history historyIndex]. destruct (Z.ltb_spec 0 (i + 1)); [|lia].
    replace (i + 1 - 1)%Z with i by lia. rewrite (assigned_entry h i v Hs). reflexivity.
Qed.

Definition sample_state : state :=
  State (lit "ab") [lit "a"; lit "ab"; lit "abc"] 1.

Lemma undo_redo_round_trip_witness :
  ((0 < historyIndex sample_state)%Z → redo (undo sample_state) = sample_state)
  ∧ ((historyIndex sample_state < Z.of_nat (length (history sample_state)) - 1)%Z
     → undo (redo sample_state) = sample_state).
Proof. apply undo_redo_round_trip. reflexivity. Defined.

(** X3.  An input whose text differs from the entry under the index cuts the
    history off behind that entry and puts the new text last (dropping
    the oldest entry when that makes fifty-one): whatever could be redone
    before is gone, and a redo changes nothing. *)
Theorem input_discards_redo (s : state) (v : str) :
  ((history s = [] ∧ historyIndex s = (-1)%Z)
   ∨ ((0 <= historyIndex s < Z.of_nat (length (history s)))%Z
      ∧ length (history s) ≤ 50)) →
  entry (history s) (historyIndex s) ≠ Some v →
  let s' := step s (Input v) in
  history s'
  = drop (if (48 <? historyIndex s)%Z then 1 else 0)
      (take (Z.to_nat (historyIndex s + 1)) (history s) ++ [v])
  ∧ historyIndex s' = (Z.of_nat (length (history s')) - 1)%Z
  ∧ value s' = v
  ∧ redo s' = s'.
Proof.
  intros Hb Hne. cbn zeta. cbn [step].
  set (s0 := State v (history s) (historyIndex s)).
  assert (Hb0 : bounded s0) by exact Hb.
  assert (Hne0 : ¬ in_step s0) by exact Hne.
  rewrite (save_changed s0 Hb0 Hne0). pose proof (kept_length s0 Hb0) as Hk.
  clear Hb0 Hne0. subst s0. unfold kept in *. cbn [history historyIndex value] in *.
  assert (Hi : (-1 <= historyIndex s)%Z) by (destruct Hb as [[_ ->]|[? _]]; lia).
  assert (Hmax : (historyIndex s < 50)%Z).
  { destruct Hb as [[_ ->]|[? ?]]; lia. }
  rewrite length_app, Hk. cbn [length]. unfold MAX_HISTORY.
  assert (Htail : ∀ l : list str, tail l = drop 1 l) by (intros [|? ?]; reflexivity).
  destruct (Nat.ltb_spec 50 (Z.to_nat (historyIndex s + 1) + 1)).
  - destruct (Z.ltb_spec 48 (historyIndex s)); [|lia].
    cbn [history historyIndex value]. rewrite tail_length, length_app, Hk. cbn [length].
    split; [apply Htail|]. split; [lia|]. split; [reflexivity|].
    unfold redo. cbn [history historyIndex]. rewrite tail_length, length_app, Hk.
    cbn [length].
    destruct (Z.ltb_spec (historyIndex s)
                (Z.of_nat (pred (Z.to_nat (historyIndex s + 1) + 1)) - 1)); [lia|reflexivity].
  - destruct (Z.ltb_spec 48 (historyIndex s)); [lia|].
    cbn [history historyIndex value drop]. rewrite length_app, Hk. cbn [length].
    split; [reflexivity|]. split; [lia|]. split; [reflexivity|].
    unfold redo. cbn [history historyIndex]. rewrite length_app, Hk. cbn [length].
    destruct (Z.ltb_spec (historyIndex s + 1)
                (Z.of_nat (Z.to_nat (historyIndex s + 1) + 1) - 1)); [lia|reflexivity].
Qed.

Lemma input_discards_redo_witness :
  let s := State (lit "a") [lit "a"; lit "ab"; lit "abc"] 0 in
  let s' := step s (Input (lit "ax")) in
  history s'
  = drop (if (48 <? historyIndex s)%Z then 1 else 0)
      (take (Z.to_nat (historyIndex s + 1)) (history s) ++ [lit "ax"])
  ∧ historyIndex s' = (Z.of_nat (length (history s')) - 1)%Z
  ∧ value s' = lit "ax"
  ∧ redo s' = s'.
Proof.
  apply (input_discards_redo (State (lit "a") [lit "a"; lit "ab"; lit "abc"] 0) (lit "ax")).
  - right. cbn. lia.
  - vm_compute. discriminate.
Defined.

(** No two texts in a row are the same. *)
Definition changing (vs : list str) : Prop :=
  ∀ i a, vs !! i = Some a → vs !! S i ≠ Some a.

Lemma changing_snoc vs v :
  changing (vs ++ [v]) → changing vs ∧ last vs ≠ Some v.
Proof.
  intros H. split.
  - intros i a Hi Hn. apply (H i a).
    + rewrite lookup_app_l; [exact Hi|]. apply lookup_lt_Some in Hi. exact Hi.
    + rewrite lookup_app_l; [exact Hn|]. apply lookup_lt_Some in Hn. exact Hn.
  - intros Hl. destruct vs as [|w vs _] using rev_ind; [discriminate|].
    rewrite last_snoc in Hl. injection Hl as ->.
    apply (H (length vs) v).
    + rewrite <- app_assoc. apply list_lookup_middle. reflexivity.
    + rewrite lookup_app_r; rewrite length_app; cbn [length]; [|lia].
      replace (S (length vs) - (length vs + 1)) with 0 by lia. reflexivity.
Qed.

Lemma last_drop (vs : list str) n : n < length vs → last (drop n vs) = last vs.
Proof.
  intros H. rewrite !last_lookup, length_drop, lookup_drop. f_equal. lia.
Qed.

(** X4.  A series of inputs, each different from the one before, from the
    freshly loaded editor: the history holds the last fifty of them, in
    order, with the index at the last one, which the textarea shows. *)
Theorem history_keeps_last_fifty (v0 : str) (vs : list str) :
  (∀ i a, vs !! i = Some a → vs !! S i ≠ Some a) →
  fold_left step (map Input vs) (loaded v0)
  = State (default v0 (last vs)) (drop (length vs - 50) vs)
      (Z.of_nat (Nat.min (length vs) 50) - 1).
Proof.
  induction vs as [|v vs IH] using rev_ind; intros Hch; [reflexivity|].
  apply changing_snoc in Hch as [Hch Hlast].
  rewrite map_app, fold_left_app, (IH Hch). cbn [map fold_left step history historyIndex].
  set (s0 := State v (drop (length vs - 50) vs) (Z.of_nat (Nat.min (length vs) 50) - 1)).
  assert (Hlen : length (drop (length vs - 50) vs) = Nat.min (length vs) 50)
    by (rewrite length_drop; lia).
  assert (Hb0 : bounded s0).
  { destruct vs as [|w vs]; [left; split; reflexivity|]. right.
    unfold s0. cbn [history historyIndex]. rewrite Hlen. cbn [length]. unfold MAX_HISTORY.
    lia. }
  assert (Hne0 : ¬ in_step s0).
  { unfold in_step, s0. cbn [history historyIndex value]. intros E. apply Hlast.
    destruct vs as [|w vs]; [discriminate|].
    rewrite entry_lookup in E by (cbn [length]; lia). rewrite <- E.
    rewrite <- (last_drop (w :: vs) (length (w :: vs) - 50)) by (cbn [length]; lia).
    rewrite last_lookup, Hlen. f_equal. lia. }
  rewrite (save_changed s0 Hb0 Hne0). unfold kept, s0. cbn [history historyIndex value].
  rewrite take_ge by lia. rewrite length_app, Hlen, last_snoc. cbn [length default].
  rewrite length_app. cbn [length]. unfold MAX_HISTORY.
  assert (Htail : ∀ l : list str, tail l = drop 1 l) by (intros [|? ?]; reflexivity).
  destruct (Nat.ltb_spec 50 (Nat.min (length vs) 50 + 1)).
  - f_equal; [|lia].
    rewrite Htail, drop_app_le by lia. rewrite drop_drop.
    rewrite drop_app_le by lia. f_equal. f_equal. lia.
  - f_equal; [|lia].
    replace (length vs - 50) with 0 by lia. replace (length vs + 1 - 50) with 0 by lia.
    reflexivity.
Qed.

Lemma history_keeps_last_fifty_witness :
  fold_left step (map Input [lit "a"; lit "ab"; lit "a"]) (loaded [])
  = State (default [] (last [lit "a"; lit "ab"; lit "a"]))
      (drop (length [lit "a"; lit "ab"; lit "a"] - 50) [lit "a"; lit "ab"; lit "a"])
      (Z.of_nat (Nat.min (length [lit "a"; lit "ab"; lit "a"]) 50) - 1).
Proof.
  apply history_keeps_last_fifty.
  intros [|[|[|i]]] a; cbn; intros [= <-]; discriminate.
Defined.

End HistoryFacts.

(** ** Transform matrices, the scan and the extracted images *)

Module PdfScanFacts.
Import Js Double PdfText PdfImages PageAssembly PdfResult.

Local Open Scope Q_scope.

(** A matrix whose slots are doubles. *)
Definition of_doubles (m : matrix) : Prop :=
  b64 (m0 m) = m0 m ∧ b64 (m1 m) = m1 m ∧ b64 (m2 m) = m2 m
  ∧ b64 (m3 m) = m3 m ∧ b64 (m4 m) = m4 m ∧ b64 (m5 m) = m5 m.

Lemma fmul_1_l a : b64 a = a → fmul 1 a = a.
Proof. intros H. unfold fmul. rewrite (DoubleFacts.b64_comp (1 * a) a) by ring. exact H. Qed.

Lemma fmul_1_r a : b64 a = a → fmul a 1 = a.
Proof. intros H. unfold fmul. rewrite (DoubleFacts.b64_comp (a * 1) a) by ring. exact H. Qed.

Lemma fmul_0_l a : fmul 0 a = 0.
Proof. unfold fmul. apply DoubleFacts.b64_0. ring. Qed.

Lemma fmul_0_r a : fmul a 0 = 0.
Proof. unfold fmul. apply DoubleFacts.b64_0. ring. Qed.

Lemma fadd_0_l a : b64 a = a → fadd 0 a = a.
Proof. intros H. unfold fadd. rewrite (DoubleFacts.b64_comp (0 + a) a) by ring. exact H. Qed.

Lemma fadd_0_r a : b64 a = a → fadd a 0 = a.
Proof. intros H. unfold fadd. rewrite (DoubleFacts.b64_comp (a + 0) a) by ring. exact H. Qed.

Ltac neutral :=
  repeat match goal with
         | |- context [fadd 0 0] => rewrite (fadd_0_l 0 eq_refl)
         | H : b64 ?a = ?a |- context [fadd ?a 0] => rewrite (fadd_0_r a H)
         | H : b64 ?a = ?a |- context [fadd 0 ?a] => rewrite (fadd_0_l a H)
         end.

(** The scalings by 0.1, by 0.2 and by 0.3. *)
Definition scaling (tenths : Z) : matrix :=
  Matrix (b64 (tenths # 10)) 0 0 (b64 (tenths # 10)) 0 0.

(** X17.  In the arithmetic of doubles the identity matrix is neutral
    for [multiplyMatrices] on both sides; composing a translation into a
    current matrix that is a translation adds the offsets, each sum
    rounded once, so that the recorded position of an image under
    nested translations is the rounded sum of their Y offsets; and the
    product is not associative: the three scalings by 0.1, 0.2 and 0.3
    give different matrices in the two groupings. *)
Theorem matrices_compose :
  (∀ a : matrix,
     of_doubles a → multiplyMatrices identity a = a ∧ multiplyMatrices a identity = a)
  ∧ (∀ e f e' f' : Q,
       b64 e' = e' → b64 f' = f' →
       multiplyMatrices (Matrix 1 0 0 1 e f) (Matrix 1 0 0 1 e' f')
       = Matrix 1 0 0 1 (fadd e' e) (fadd f' f))
  ∧ multiplyMatrices (multiplyMatrices (scaling 1) (scaling 2)) (scaling 3)
    ≠ multiplyMatrices (scaling 1) (multiplyMatrices (scaling 2) (scaling 3)).
Proof.
  split; [|split].
  - intros [a0 a1 a2 a3 a4 a5] (H0 & H1 & H2 & H3 & H4 & H5). cbn [m0 m1 m2 m3 m4 m5] in *.
    unfold multiplyMatrices, identity. cbn [m0 m1 m2 m3 m4 m5].
    rewrite !fmul_0_l, !fmul_0_r, !fmul_1_l, !fmul_1_r by assumption.
    neutral. split; reflexivity.
  - intros e f e' f' He Hf. unfold multiplyMatrices. cbn [m0 m1 m2 m3 m4 m5].
    rewrite !fmul_0_l, !fmul_0_r.
    rewrite !fmul_1_l by (assumption || reflexivity).
    neutral. rewrite (fadd_0_r 1 eq_refl). reflexivity.
  - vm_compute. discriminate.
Qed.

(** *** Saves and restores that match *)

(** The depth at which a run of operators ends when it starts at depth
    [d]; [None] when a restore comes at depth 0, that is without a save
    of the run to undo. *)
Fixpoint nesting (d : nat) (ops : list operator) : option nat :=
  match ops with
  | [] => Some d
  | OpSave :: ops' => nesting (S d) ops'
  | OpRestore :: ops' =>
      match d with
      | O => None
      | S d' => nesting d' ops'
      end
  | _ :: ops' => nesting d ops'
  end.

Lemma scan_ops_app ops1 ops2 s :
  scan_ops s (ops1 ++ ops2) = s1 ← scan_ops s ops1; scan_ops s1 ops2.
Proof.
  revert s. induction ops1 as [|op ops1 IH]; intros s; [reflexivity|].
  cbn [app scan_ops]. destruct (scan_step s op) as [s1|]; [|reflexivity].
  cbn [mbind option_bind]. apply IH.
Qed.

Lemma last_app_nonempty {A} (l1 l2 : list A) : l2 ≠ [] → last (l1 ++ l2) = last l2.
Proof.
  intros H. rewrite last_app. destruct (last l2) eqn:E; [reflexivity|].
  apply last_None in E. congruence.
Qed.

Lemma removelast_app_nonempty {A} (l1 l2 : list A) :
  l2 ≠ [] → removelast (l1 ++ l2) = l1 ++ removelast l2.
Proof. apply removelast_app. Qed.

(** The matrices below those that a run of operators has pushed itself
    are out of its reach. *)
Lemma scan_ops_above ops : ∀ d d' base extra seen,
  nesting d ops = Some d' → length extra = S d →
  ∃ extra' seen',
    scan_ops (Scan (base ++ extra) seen) ops = Some (Scan (base ++ extra') seen')
    ∧ length extra' = S d'.
Proof.
  induction ops as [|op ops IH]; intros d d' base extra seen Hn Hlen.
  - injection Hn as <-. exists extra, seen. split; [reflexivity|exact Hlen].
  - assert (Hne : extra ≠ []) by (intros ->; discriminate).
    assert (Htop : ∃ top, last (base ++ extra) = Some top).
    { rewrite (last_app_nonempty _ _ Hne). destruct (last extra) eqn:E; [eauto|].
      apply last_None in E. congruence. }
    destruct Htop as [top Htop]. cbn [scan_ops].
    destruct op; cbn [scan_step nesting ctmStack imageOps] in *.
    + rewrite Htop. cbn [mbind option_bind]. rewrite <- app_assoc.
      apply (IH (S d) d'); [exact Hn|]. rewrite length_app. cbn [length]. lia.
    + destruct d as [|d0]; [discriminate|]. cbn [mbind option_bind].
      rewrite length_app, Hlen.
      destruct (Nat.ltb_spec 1 (length base + S (S d0))); [|lia].
      rewrite (removelast_app_nonempty _ _ Hne).
      apply (IH d0 d'); [exact Hn|]. rewrite removelast_firstn_len, length_take. lia.
    + rewrite Htop. cbn [mbind option_bind].
      rewrite insert_app_r_alt by (rewrite length_app; lia).
      apply (IH d d'); [exact Hn|]. rewrite length_insert. exact Hlen.
    + unfold paint. cbn [ctmStack imageOps]. rewrite Htop. cbn [mbind option_bind].
      destruct (_ && _); cbn [mbind option_bind]; apply (IH d d'); assumption.
    + unfold paint. cbn [ctmStack imageOps]. rewrite Htop. cbn [mbind option_bind].
      destruct (_ && _); cbn [mbind option_bind]; apply (IH d d'); assumption.
    + cbn [mbind option_bind]. apply (IH d d'); assumption.
Qed.

(** X18.  A save, operators whose own saves and restores match, and a
    restore: the transform stack is afterwards what it was before, so
    that whatever is painted next is placed by the matrix that was
    current before the save; nothing is thrown. *)
Theorem save_restore_block (ops : list operator) (stack : list matrix) (seen : list imageOp) :
  nesting 0 ops = Some 0%nat → stack ≠ [] →
  ∃ seen',
    scan_ops (Scan stack seen) (OpSave :: ops ++ [OpRestore]) = Some (Scan stack seen').
Proof.
  intros Hn Hne.
  assert (Htop : ∃ top, last stack = Some top).
  { destruct (last stack) eqn:E; [eauto|]. apply last_None in E. congruence. }
  destruct Htop as [top Htop].
  cbn [scan_ops scan_step ctmStack imageOps]. rewrite Htop. cbn [mbind option_bind].
  rewrite scan_ops_app.
  destruct (scan_ops_above ops 0 0 stack [top] seen Hn eq_refl) as (extra' & seen' & -> & Hlen).
  cbn [mbind option_bind scan_ops scan_step ctmStack imageOps].
  exists seen'. rewrite length_app, Hlen.
  destruct (Nat.ltb_spec 1 (length stack + 1)).
  - rewrite removelast_app_nonempty by (intros ->; discriminate).
    destruct extra' as [|m [|? ?]]; try discriminate. cbn [removelast].
    rewrite app_nil_r. reflexivity.
  - destruct stack; [congruence|cbn [length] in *; lia].
Qed.

Lemma save_restore_block_witness :
  ∃ seen',
    scan_ops (Scan [identity] [])
      (OpSave :: [OpTransform (Matrix 1 0 0 1 0 100); OpSave;
                  OpPaintImageXObject (lit "Im1"); OpRestore; OpOther]
              ++ [OpRestore])
    = Some (Scan [identity] seen').
Proof. apply save_restore_block; [reflexivity|discriminate]. Defined.

(** *** The recorded references *)

(** No name twice, and no empty name. *)
Definition distinct_names (seen : list imageOp) : Prop :=
  NoDup (map op_name seen) ∧ Forall (fun io => op_name io ≠ []) seen.

Lemma paint_distinct name s s' :
  paint name s = Some s' → distinct_names (imageOps s) → distinct_names (imageOps s').
Proof.
  unfold paint. destruct (last (ctmStack s)) as [top|]; [|discriminate].
  cbn [mbind option_bind].
  destruct (truthy name) eqn:Ht; cbn [andb]; [|intros [= <-]; auto].
  destruct (existsb _ _) eqn:Ex; cbn [negb]; intros [= <-]; [auto|].
  intros [Hnd Hne]. cbn [imageOps]. split.
  - rewrite map_app. cbn [map op_name]. apply NoDup_app. split; [exact Hnd|]. split.
    + intros x Hx Hin. apply list_elem_of_singleton in Hin as ->.
      apply list_elem_of_fmap in Hx as (io & -> & Hio).
      assert (existsb (fun io0 => str_eqb (op_name io0) (op_name io)) (imageOps s) = true).
      { apply existsb_exists. exists io. split; [apply list_elem_of_In, Hio|].
        unfold str_eqb. apply bool_decide_eq_true_2. reflexivity. }
      congruence.
    + apply NoDup_singleton.
  - apply Forall_app. split; [exact Hne|]. constructor; [|constructor].
    cbn [op_name]. intros ->. discriminate.
Qed.

Lemma scan_ops_distinct ops : ∀ s s',
  scan_ops s ops = Some s' → distinct_names (imageOps s) → distinct_names (imageOps s').
Proof.
  induction ops as [|op ops IH]; intros s s' Hs Hd; cbn [scan_ops] in Hs.
  - injection Hs as <-. exact Hd.
  - destruct (scan_step s op) as [s1|] eqn:E; [|discriminate]. cbn [mbind option_bind] in Hs.
    apply (IH s1 s' Hs). destruct op; cbn [scan_step] in E.
    + destruct (last (ctmStack s)); [|discriminate]. injection E as <-. exact Hd.
    + injection E as <-. destruct (_ <? _)%nat; exact Hd.
    + destruct (last (ctmStack s)); [|discriminate]. injection E as <-. exact Hd.
    + exact (paint_distinct _ _ _ E Hd).
    + exact (paint_distinct _ _ _ E Hd).
    + injection E as <-. exact Hd.
Qed.

Definition higher (a b : imageOp) : Prop := op_y b <= op_y a.

Lemma higher_cmp_spec (a b : imageOp) : Qle_bool (op_y b - op_y a) 0 = true ↔ higher a b.
Proof. unfold higher. rewrite Qle_bool_iff. split; intros H; lra. Qed.

Lemma higher_total a b : higher a b ∨ higher b a.
Proof. unfold higher. destruct (Qlt_le_dec (op_y a) (op_y b)); [right|left]; lra. Qed.

Lemma higher_trans a b c : higher a b → higher b c → higher a c.
Proof. unfold higher. intros; lra. Qed.

Lemma image_positions_spec (ops : list operator) :
  ∃ l, image_positions ops = Some l
       ∧ distinct_names l ∧ StronglySorted higher l.
Proof.
  destruct (PdfImagesFacts.scan_ops_nonempty ops initial) as (s & Hs & _);
    [cbn; lia|].
  unfold image_positions. rewrite Hs. cbn [mbind option_bind]. eexists. split; [reflexivity|].
  destruct (scan_ops_distinct ops initial s Hs) as [Hnd Hne].
  { split; [constructor|constructor]. }
  set (cmp := fun a b : imageOp => op_y b - op_y a).
  assert (Hp : Sorting.sort cmp (imageOps s) ≡ₚ imageOps s) by apply SortingFacts.sort_perm.
  split; [split; rewrite Hp; assumption|].
  apply (SortingFacts.sort_sorted cmp higher).
  - exact higher_cmp_spec.
  - exact higher_total.
  - exact higher_trans.
Qed.

(** X19.  Whatever the operator list, the scan yields its list of image
    references: every name in it is non-empty and occurs once, however
    often the image is painted, and the list runs from the highest
    position to the lowest. *)
Theorem image_references_distinct_and_sorted (ops : list operator) :
  ∃ l, image_positions ops = Some l
       ∧ NoDup (map op_name l)
       ∧ Forall (fun io => op_name io ≠ []) l
       ∧ StronglySorted (fun a b => op_y b <= op_y a) l.
Proof.
  destruct (image_positions_spec ops) as (l & Hl & [Hnd Hne] & Hs).
  exists l. repeat split; assumption.
Qed.

(** *** The extracted images *)

Section Extraction.
Variable objs : str -> option imgData.
Variable startIndex : nat.

(** The image at place [i] carries the index [startIndex + i] and is at
    least 20 wide and high. *)
Definition numbered (out : list (image * Q)) : Prop :=
  ∀ i img ypos, out !! i = Some (img, ypos) →
    index img = (startIndex + i)%nat ∧ (20 <= width img)%Z ∧ (20 <= height img)%Z.

Definition descending (out : list (image * Q)) : Prop :=
  StronglySorted (fun a b : image * Q => snd b <= snd a) out.

Lemma extract_loop_numbered l : ∀ acc,
  numbered acc → numbered (extract_loop objs startIndex acc l).
Proof.
  induction l as [|io l IH]; intros acc Hacc; [exact Hacc|].
  cbn [extract_loop]. apply IH.
  destruct (objs (op_name io)) as [d|]; [|exact Hacc].
  destruct (_ || _); [exact Hacc|].
  destruct ((img_width d <? 20)%Z || (img_height d <? 20)%Z) eqn:E; [exact Hacc|].
  apply orb_false_iff in E as [Hw Hh]. apply Z.ltb_ge in Hw, Hh.
  destruct (img_url d) as [url|]; [|exact Hacc].
  intros i img ypos Hi. destruct (decide (i < length acc)%nat) as [Hlt|Hge].
  - rewrite lookup_app_l in Hi by exact Hlt. exact (Hacc i img ypos Hi).
  - rewrite lookup_app_r in Hi by lia.
    destruct (i - length acc)%nat as [|k] eqn:Ek; [|destruct k; discriminate].
    injection Hi as <- <-. cbn [index width height]. split; [lia|]. split; assumption.
Qed.

Lemma extract_loop_descending l : ∀ acc,
  StronglySorted higher l → descending acc →
  (∀ p io, p ∈ acc → io ∈ l → op_y io <= snd p) →
  descending (extract_loop objs startIndex acc l).
Proof.
  induction l as [|io l IH]; intros acc Hl Hacc Hrel; [exact Hacc|].
  apply StronglySorted_cons in Hl as [Hio Hl]. cbn [extract_loop].
  assert (Hkeep : ∀ p io', p ∈ acc → io' ∈ l → op_y io' <= snd p).
  { intros p io' Hp Hio'. apply Hrel; [exact Hp|]. right. exact Hio'. }
  destruct (objs (op_name io)) as [d|]; [|apply IH; assumption].
  destruct (_ || _); [apply IH; assumption|].
  destruct (_ || _); [apply IH; assumption|].
  destruct (img_url d) as [url|]; [|apply IH; assumption].
  apply IH; [exact Hl| |].
  - apply StronglySorted_app. split; [|split; [exact Hacc|repeat constructor]].
    intros p q Hp Hq. apply list_elem_of_singleton in Hq as ->. cbn [snd].
    apply Hrel; [exact Hp|left].
  - intros p io' Hp Hio'. apply elem_of_app in Hp as [Hp|Hp]; [exact (Hkeep p io' Hp Hio')|].
    apply list_elem_of_singleton in Hp as ->. cbn [snd].
    rewrite Forall_forall in Hio. exact (Hio io' Hio').
Qed.

End Extraction.

(** X20.  The images extracted from a page come numbered in sequence from
    [startIndex], none is less than 20 wide or high, and they are
    listed from the highest position on the page to the lowest. *)
Theorem extracted_images_numbered_and_sorted (ops : list operator)
    (objs : str -> option imgData) (startIndex : nat) :
  let out := extractImagesWithPositions ops objs startIndex in
  (∀ i img ypos, out !! i = Some (img, ypos) →
     index img = (startIndex + i)%nat ∧ (20 <= width img)%Z ∧ (20 <= height img)%Z)
  ∧ StronglySorted (fun a b : image * Q => snd b <= snd a) out.
Proof.
  cbn zeta. unfold extractImagesWithPositions.
  destruct (image_positions_spec ops) as (l & -> & _ & Hs).
  split.
  - apply (extract_loop_numbered objs startIndex l []). intros i img ypos Hi. discriminate.
  - apply (extract_loop_descending objs startIndex l []); [exact Hs|constructor|].
    intros p io Hp. apply elem_of_nil in Hp. contradiction.
Qed.

Lemma page_images_numbered (counter : nat) (p : page) :
  numbered counter (page_images counter p).
Proof.
  unfold page_images, extractImagesWithPositions.
  destruct (image_positions_spec (operatorList p)) as (l & -> & _).
  apply (extract_loop_numbered (objs p) counter l []). intros i img ypos Hi. discriminate.
Qed.

(** The fragment that page assembly writes for an image. *)
Definition fragment (entry : image * Q) : contentItem :=
  ContentItem TypeImage (snd entry)
    (centeredImage (dataUrl (fst entry)) (index (fst entry))) (Some (index (fst entry))).

Lemma image_items_numbered (l : list (image * Q)) : ∀ counter,
  numbered counter l → image_items counter l = map fragment l.
Proof.
  induction l as [|[img ypos] l IH]; intros counter Hn; [reflexivity|].
  cbn [image_items map]. destruct (Hn 0%nat img ypos eq_refl) as [Hi _].
  unfold fragment at 1. cbn [fst snd]. rewrite Hi, Nat.add_0_r. f_equal.
  apply IH. intros i img' ypos' Hl. destruct (Hn (S i) img' ypos' Hl) as (H1 & H2 & H3).
  split; [lia|]. split; assumption.
Qed.

(** X21.  The two counts of a conversion agree.  The number that page
    assembly writes into an image fragment (the alternative text
    [Image N] and [imageIndex]) is the index that the extraction gave
    the image; and the images that the conversion returns are numbered
    in sequence across the pages, from the counter's first value (1 in
    [convertPdfToMarkdown]). *)
Theorem image_numbering_consistent (counter : nat) (pages : list page) :
  (∀ p : page,
     image_items counter (page_images counter p)
     = map (fun entry : image * Q =>
              ContentItem TypeImage (snd entry)
                (centeredImage (dataUrl (fst entry)) (index (fst entry)))
                (Some (index (fst entry))))
           (page_images counter p))
  ∧ (∀ i img, allImages counter pages !! i = Some img → index img = (counter + i)%nat).
Proof.
  split.
  - intros p. apply image_items_numbered, page_images_numbered.
  - revert counter. induction pages as [|p pages IH]; intros counter i img Hi;
      [discriminate|].
    cbn [allImages] in Hi.
    destruct (decide (i < length (page_images counter p))%nat) as [Hlt|Hge].
    + rewrite lookup_app_l in Hi by (rewrite length_map; exact Hlt).
      rewrite list_lookup_fmap in Hi.
      destruct (page_images counter p !! i) as [[img' ypos]|] eqn:E; [|discriminate].
      injection Hi as <-. exact (proj1 (page_images_numbered counter p i img' ypos E)).
    + rewrite lookup_app_r in Hi by (rewrite length_map; lia).
      rewrite length_map in Hi. apply IH in Hi. lia.
Qed.

End PdfScanFacts.

(** ** Block segmentation keeps every run *)

Module PdfBlocksFacts.
Import Js Regex RegexFacts PdfText PdfTextFacts.

Local Open Scope Q_scope.

(** The runs that the segmentation loop does not skip. *)
Definition not_blank (p : glyphRun) : bool :=
  truthy (run_str p) && truthy (trim (run_str p)).

(** [lo] and [hi] bound the vertical positions of the items. *)
Definition spans (lo hi : Q) (its : list textItem) : Prop :=
  Forall (fun it => lo <= y it ∧ y it <= hi) its.

(** What holds of every block that the segmentation emits. *)
Definition well_formed (b : block) : Prop :=
  items b ≠ []
  ∧ text b = processTextBlock (items b)
  ∧ truthy (trim (text b)) = true
  ∧ block_y b = maxY b
  ∧ ∃ lo hi, minY b = Some lo ∧ maxY b = Some hi ∧ spans lo hi (items b).

Definition open_block (s : segmenter) : Prop :=
  match cur_items s with
  | [] => cur_minY s = None ∧ cur_maxY s = None
  | _ => ∃ lo hi, cur_minY s = Some lo ∧ cur_maxY s = Some hi ∧ spans lo hi (cur_items s)
  end.

(** The loop invariant, [done] being the runs read so far. *)
Definition segmented (done : list glyphRun) (s : segmenter) : Prop :=
  concat (map items (blocks s)) ++ cur_items s = map item_of (List.filter not_blank done)
  ∧ Forall inked (cur_items s)
  ∧ Forall well_formed (blocks s)
  ∧ open_block s.

Lemma spans_widen lo hi lo' hi' its :
  lo' <= lo → hi <= hi' → spans lo hi its → spans lo' hi' its.
Proof.
  intros Hlo Hhi H. eapply Forall_impl; [exact H|]. intros it [H1 H2]. split; lra.
Qed.

Lemma close_block_spec s :
  Forall inked (cur_items s) → Forall well_formed (blocks s) → open_block s →
  concat (map items (close_block s)) = concat (map items (blocks s)) ++ cur_items s
  ∧ Forall well_formed (close_block s).
Proof.
  intros Hink Hwf Hopen. unfold close_block, open_block in *.
  destruct (cur_items s) as [|it its] eqn:E.
  - rewrite app_nil_r. split; [reflexivity|exact Hwf].
  - rewrite <- E in *. assert (Hne : cur_items s ≠ []) by (rewrite E; discriminate).
    rewrite (processTextBlock_ink (cur_items s) Hne Hink).
    rewrite E in Hopen. destruct Hopen as (lo & hi & Hlo & Hhi & Hsp). rewrite <- E in Hsp.
    split.
    + rewrite map_app, concat_app. cbn [map concat items]. rewrite app_nil_r. reflexivity.
    + apply Forall_app. split; [exact Hwf|]. constructor; [|constructor].
      unfold well_formed. cbn [items text block_y minY maxY].
      split; [exact Hne|]. split; [reflexivity|].
      split; [exact (processTextBlock_ink (cur_items s) Hne Hink)|].
      split; [reflexivity|]. exists lo, hi. repeat split; assumption.
Qed.

Lemma not_blank_inked p : not_blank p = true → inked (item_of p).
Proof.
  unfold not_blank, inked. intros H. apply andb_true_iff in H as [_ H].
  cbn [item_of str_]. apply truthy_trim_ink, H.
Qed.

(** Adding an item to the open block. *)
Lemma push_item (bs : list block) (its : list textItem) (mn mx : option Q) (it : textItem) :
  match its with
  | [] => mn = None ∧ mx = None
  | _ => ∃ lo hi, mn = Some lo ∧ mx = Some hi ∧ spans lo hi its
  end →
  ∃ lo hi, min_with mn (y it) = Some lo ∧ max_with mx (y it) = Some hi
           ∧ spans lo hi (its ++ [it]).
Proof.
  destruct its as [|i0 its].
  - intros [-> ->]. exists (y it), (y it). cbn [min_with max_with app].
    repeat split; try reflexivity. constructor; [split; lra|constructor].
  - intros (lo & hi & -> & -> & Hsp). exists (Qmin lo (y it)), (Qmax hi (y it)).
    cbn [min_with max_with]. repeat split; try reflexivity.
    pose proof (Q.le_min_l lo (y it)). pose proof (Q.le_min_r lo (y it)).
    pose proof (Q.le_max_l hi (y it)). pose proof (Q.le_max_r hi (y it)).
    apply Forall_app. split.
    + apply (spans_widen lo hi); assumption.
    + constructor; [split; assumption|constructor].
Qed.

Lemma segment_step_spec done s p :
  segmented done s → segmented (done ++ [p]) (segment_step s p).
Proof.
  intros (Hcat & Hink & Hwf & Hopen). unfold segmented.
  rewrite List.filter_app. cbn [List.filter]. unfold segment_step.
  rewrite <- negb_andb. fold (not_blank p).
  destruct (not_blank p) eqn:Hp; cbn [negb].
  - set (s1 := match lastY s with
               | Some ly =>
                   if qgt (Qabs (Double.fsub (m5 (run_transform p)) ly))
                        (Double.fmul (inject_Z (round (run_height p))) (15 # 10))
                   then Segmenter (close_block s) [] None None (lastY s)
                   else s
               | None => s
               end).
    assert (H1 : concat (map items (blocks s1)) ++ cur_items s1
                 = map item_of (List.filter not_blank done)
                 ∧ Forall inked (cur_items s1) ∧ Forall well_formed (blocks s1)
                 ∧ open_block s1).
    { unfold s1. destruct (lastY s) as [ly|]; [|repeat split; assumption].
      destruct (qgt _ _); [|repeat split; assumption].
      destruct (close_block_spec s Hink Hwf Hopen) as [Hc Hw].
      cbn [blocks cur_items]. rewrite app_nil_r, Hc.
      split; [exact Hcat|]. split; [constructor|]. split; [exact Hw|].
      unfold open_block. cbn [cur_items cur_minY cur_maxY]. split; reflexivity. }
    destruct H1 as (Hcat1 & Hink1 & Hwf1 & Hopen1).
    cbn [blocks cur_items cur_minY cur_maxY]. fold (item_of p).
    split; [|split; [|split]].
    + rewrite app_assoc, Hcat1, map_app. reflexivity.
    + apply Forall_app. split; [exact Hink1|].
      constructor; [apply not_blank_inked, Hp|constructor].
    + exact Hwf1.
    + unfold open_block in *. cbn [cur_items cur_minY cur_maxY].
      destruct (push_item (blocks s1) (cur_items s1) (cur_minY s1) (cur_maxY s1)
                  (item_of p) Hopen1) as (lo & hi & Hlo & Hhi & Hsp).
      cbn [item_of y] in Hlo, Hhi. rewrite Hlo, Hhi.
      destruct (cur_items s1 ++ [item_of p]) eqn:E.
      * destruct (cur_items s1); discriminate.
      * exists lo, hi. repeat split; try reflexivity. exact Hsp.
  - rewrite app_nil_r. repeat split; assumption.
Qed.

Lemma fold_segmented runs : ∀ done s,
  segmented done s → segmented (done ++ runs) (fold_left segment_step runs s).
Proof.
  induction runs as [|p runs IH]; intros done s Hs.
  - rewrite app_nil_r. exact Hs.
  - cbn [fold_left]. replace (done ++ p :: runs) with ((done ++ [p]) ++ runs)
      by (rewrite <- app_assoc; reflexivity).
    apply IH, segment_step_spec, Hs.
Qed.

(** X15.  Segmentation loses nothing and invents nothing: the items of the
    blocks, read block after block, are the runs that are not blank, in
    the order in which they came, each with its text, position, rounded
    height and font.  Every block holds at least one item, carries the
    Markdown of its items, which is never blank, and is placed at its
    highest vertical position; its lowest and highest position bound the
    positions of its items. *)
Theorem blocks_keep_every_run (runs : list glyphRun) :
  concat (map items (extractTextBlocks runs))
  = map (fun p => TextItem (run_str p) (m4 (run_transform p)) (m5 (run_transform p))
                    (round (run_height p)) (run_fontName p))
        (List.filter (fun p => truthy (run_str p) && truthy (trim (run_str p))) runs)
  ∧ Forall (fun b =>
      items b ≠ []
      ∧ text b = processTextBlock (items b)
      ∧ truthy (trim (text b)) = true
      ∧ block_y b = maxY b
      ∧ ∃ lo hi, minY b = Some lo ∧ maxY b = Some hi
                 ∧ Forall (fun it => lo <= y it ∧ y it <= hi) (items b))
      (extractTextBlocks runs).
Proof.
  unfold extractTextBlocks.
  destruct (fold_segmented runs [] (Segmenter [] [] None None None))
    as (Hcat & Hink & Hwf & Hopen).
  { repeat split; constructor. }
  destruct (close_block_spec _ Hink Hwf Hopen) as [Hc Hw].
  split; [rewrite Hc; exact Hcat|exact Hw].
Qed.

End PdfBlocksFacts.

(** ** The typographic repairs only add spaces *)

Module PdfSpacingFacts.
Import Js Regex RegexFacts PdfText.

(** The text without its spaces. *)
Definition unspaced (s : str) : str := List.filter (fun c => negb (N.eqb c SP)) s.

Lemma unspaced_app a b : unspaced (a ++ b) = unspaced a ++ unspaced b.
Proof. apply List.filter_app. Qed.

(** A global replace whose callback gives back the text of each match,
    spaces apart, gives back the text of its subject, spaces apart. *)
Lemma replace_unspaced r f :
  1 ≤ min_len r →
  (∀ m rest caps, exec r (m ++ rest) = Some (rest, caps) → unspaced (f m caps) = unspaced m) →
  ∀ s, unspaced (replace r f s) = unspaced s.
Proof.
  intros Hmin Hf.
  apply (scan_ind r (fun s => unspaced (replace r f s) = unspaced s)); [exact Hmin|..].
  - rewrite replace_nil; [reflexivity|]. apply exec_nil_min_len, Hmin.
  - intros c s Hex IH. rewrite (replace_nomatch r f c s Hex).
    change (c :: replace r f s) with ([c] ++ replace r f s).
    change (c :: s) with ([c] ++ s). rewrite !unspaced_app, IH. reflexivity.
  - intros m rest caps Hne Hex IH. rewrite (replace_match r f m rest caps Hex Hne).
    rewrite !unspaced_app, IH, (Hf m rest caps Hex). reflexivity.
Qed.

Lemma take_one (a : N) (s : str) : take (length (a :: s) - length s) (a :: s) = [a].
Proof.
  replace (length (a :: s) - length s) with 1 by (cbn [length]; lia). reflexivity.
Qed.

Lemma take_two (a b : N) (s : str) :
  take (length (a :: b :: s) - length s) (a :: b :: s) = [a; b].
Proof.
  replace (length (a :: b :: s) - length s) with 2 by (cbn [length]; lia). reflexivity.
Qed.

(** The shapes of the matches of the ten patterns. *)
Lemma exec_two_groups p1 p2 m rest caps :
  exec (Cat (Grp (Cls p1)) (Grp (Cls p2))) (m ++ rest) = Some (rest, caps) →
  ∃ a b, m = [a; b] ∧ caps = [[a]; [b]].
Proof.
  unfold exec. cbn [run]. destruct (m ++ rest) as [|a [|b s]] eqn:E; try discriminate.
  - destruct (p1 a); discriminate.
  - destruct (p1 a); [|discriminate]. destruct (p2 b); [|discriminate].
    rewrite take_one, (take_one b s). cbn [app]. intros [= <- <-].
    exists a, b. split; [|reflexivity].
    change (a :: b :: s) with ([a; b] ++ s) in E. apply app_inv_tail in E. exact E.
Qed.

Lemma exec_mark_group c p m rest caps :
  exec (Cat (Chr c) (Grp (Cls p))) (m ++ rest) = Some (rest, caps) →
  ∃ b, m = [c; b] ∧ caps = [[b]].
Proof.
  unfold exec, Chr. cbn [run]. destruct (m ++ rest) as [|a [|b s]] eqn:E; try discriminate.
  - destruct (N.eqb c a); discriminate.
  - destruct (N.eqb_spec c a) as [->|]; [|discriminate]. destruct (p b); [|discriminate].
    rewrite (take_one b s). cbn [app]. intros [= <- <-].
    exists b. split; [|reflexivity].
    change (a :: b :: s) with ([a; b] ++ s) in E. apply app_inv_tail in E. exact E.
Qed.

Lemma exec_group_pair p1 p2 p3 m rest caps :
  exec (Cat (Grp (Cls p1)) (Grp (Cat (Cls p2) (Cls p3)))) (m ++ rest) = Some (rest, caps) →
  ∃ a b c, m = [a; b; c] ∧ caps = [[a]; [b; c]].
Proof.
  unfold exec. cbn [run]. destruct (m ++ rest) as [|a [|b [|c s]]] eqn:E; try discriminate.
  - destruct (p1 a); discriminate.
  - destruct (p1 a); [|discriminate]. destruct (p2 b); discriminate.
  - destruct (p1 a); [|discriminate]. destruct (p2 b); [|discriminate].
    destruct (p3 c); [|discriminate].
    rewrite take_one, (take_two b c s). cbn [app]. intros [= <- <-].
    exists a, b, c. split; [|reflexivity].
    change (a :: b :: c :: s) with ([a; b; c] ++ s) in E. apply app_inv_tail in E. exact E.
Qed.

Lemma two_groups_unspaced p1 p2 m rest caps :
  exec (Cat (Grp (Cls p1)) (Grp (Cls p2))) (m ++ rest) = Some (rest, caps) →
  unspaced (g1_sp_g2 m caps) = unspaced m.
Proof.
  intros H. apply exec_two_groups in H as (a & b & -> & ->).
  unfold g1_sp_g2, cap. cbn [Nat.pred nth]. change [a; b] with ([a] ++ [b]).
  rewrite !unspaced_app. reflexivity.
Qed.

Lemma group_pair_unspaced p1 p2 p3 m rest caps :
  exec (Cat (Grp (Cls p1)) (Grp (Cat (Cls p2) (Cls p3)))) (m ++ rest) = Some (rest, caps) →
  unspaced (g1_sp_g2 m caps) = unspaced m.
Proof.
  intros H. apply exec_group_pair in H as (a & b & c & -> & ->).
  unfold g1_sp_g2, cap. cbn [Nat.pred nth]. change [a; b; c] with ([a] ++ [b; c]).
  rewrite !unspaced_app. reflexivity.
Qed.

Lemma mark_group_unspaced c p m rest caps :
  exec (Cat (Chr c) (Grp (Cls p))) (m ++ rest) = Some (rest, caps) →
  unspaced (after [c] m caps) = unspaced m.
Proof.
  intros H. apply exec_mark_group in H as (b & -> & ->).
  unfold after, cap. cbn [Nat.pred nth]. change [c; b] with ([c] ++ [b]).
  rewrite !unspaced_app. reflexivity.
Qed.

(** X16.  The chain of typographic repairs changes a line by adding spaces
    and in no other way: once the spaces are taken out, the repaired
    line and the line as reconstructed are the same text. *)
Theorem repairs_only_add_spaces (text : str) :
  List.filter (fun c => negb (N.eqb c SP)) (fix_spacing text)
  = List.filter (fun c => negb (N.eqb c SP)) text.
Proof.
  fold (unspaced (fix_spacing text)). fold (unspaced text). unfold fix_spacing.
  rewrite replace_unspaced; [|cbn; lia|apply (mark_group_unspaced 93)].
  rewrite replace_unspaced; [|cbn; lia|apply (mark_group_unspaced 41)].
  rewrite replace_unspaced; [|cbn; lia|apply group_pair_unspaced].
  rewrite replace_unspaced; [|cbn; lia|apply two_groups_unspaced].
  rewrite replace_unspaced; [|cbn; lia|apply two_groups_unspaced].
  rewrite replace_unspaced; [|cbn; lia|apply (mark_group_unspaced 59)].
  rewrite replace_unspaced; [|cbn; lia|apply (mark_group_unspaced 44)].
  rewrite replace_unspaced; [|cbn; lia|apply (mark_group_unspaced 58)].
  rewrite replace_unspaced; [|cbn; lia|apply (mark_group_unspaced 46)].
  rewrite replace_unspaced; [|cbn; lia|apply two_groups_unspaced].
  reflexivity.
Qed.

End PdfSpacingFacts.

(** ** DOCX normaliser: the pre-pass and the lists in general *)

Module DocxListFacts.
Import Js Regex Docx DocxFacts.

(** No two element children in a row, whatever text lies between them,
    are both ordered or both unordered lists; [prev] is the tag of the
    element child met last. *)
Fixpoint settled (prev : option string) (l : list node) : bool :=
  match l with
  | [] => true
  | Element t _ _ :: l' =>
      match prev with Some t0 => negb (mergeable t0 t) | None => true end
      && settled (Some t) l'
  | _ :: l' => settled prev l'
  end.

Lemma settled_skip prev between l :
  Forall not_element between → settled prev (between ++ l) = settled prev l.
Proof.
  induction 1 as [|n between Hn _ IH]; [reflexivity|].
  destruct n; [exact IH|contradiction|exact IH].
Qed.

Lemma merge_from_settled rest : ∀ tag attrs kids between prev,
  Forall not_element between →
  match prev with Some t0 => negb (mergeable t0 tag) | None => true end = true →
  settled prev (merge_from tag attrs kids between rest) = true.
Proof.
  induction rest as [|n rest IH]; intros tag attrs kids between prev Hb Hp.
  - cbn [merge_from settled]. rewrite Hp. cbn [andb].
    rewrite <- (app_nil_r between), (settled_skip _ between [] Hb). reflexivity.
  - destruct n as [t|tag' attrs' kids'|]; cbn [merge_from].
    + apply IH; [|exact Hp]. apply Forall_app. split; [exact Hb|repeat constructor].
    + destruct (mergeable tag tag') eqn:E.
      * apply IH; assumption.
      * cbn [settled]. rewrite Hp, (settled_skip _ between _ Hb). cbn [andb].
        apply IH; [constructor|]. rewrite E. reflexivity.
    + apply IH; [|exact Hp]. apply Forall_app. split; [exact Hb|repeat constructor].
Qed.

Lemma merge_settled l : settled None (mergeConsecutiveLists l) = true.
Proof.
  induction l as [|n l IH]; [reflexivity|].
  destruct n as [t|tag attrs kids|]; cbn [mergeConsecutiveLists settled].
  - exact IH.
  - apply merge_from_settled; [constructor|reflexivity].
  - exact IH.
Qed.

Lemma merge_from_fixed rest : ∀ tag attrs kids between,
  settled (Some tag) rest = true →
  merge_from tag attrs kids between rest = Element tag attrs kids :: between ++ rest.
Proof.
  induction rest as [|n rest IH]; intros tag attrs kids between Hs.
  - cbn [merge_from]. rewrite app_nil_r. reflexivity.
  - destruct n as [t|tag' attrs' kids'|]; cbn [merge_from settled] in *.
    + rewrite IH by exact Hs. rewrite <- app_assoc. reflexivity.
    + apply andb_true_iff in Hs as [Hm Hs]. apply negb_true_iff in Hm. rewrite Hm.
      rewrite IH by exact Hs. reflexivity.
    + rewrite IH by exact Hs. rewrite <- app_assoc. reflexivity.
Qed.

Lemma settled_weaken prev l : settled prev l = true → settled None l = true.
Proof.
  revert prev. induction l as [|n l IH]; intros prev H; [reflexivity|].
  destruct n as [t|tag attrs kids|]; cbn [settled] in *.
  - exact (IH prev H).
  - apply andb_true_iff in H as [_ H]. exact H.
  - exact (IH prev H).
Qed.

Lemma merge_fixed l : settled None l = true → mergeConsecutiveLists l = l.
Proof.
  induction l as [|n l IH]; intros H; [reflexivity|].
  destruct n as [t|tag attrs kids|]; cbn [mergeConsecutiveLists settled] in *.
  - rewrite IH by exact H. reflexivity.
  - apply merge_from_fixed, H.
  - rewrite IH by exact H. reflexivity.
Qed.

(** X22.  After the pre-pass no two element children in a row are lists of
    the same kind, whatever text lies between them; a container in that
    state is left as it is, so that the pre-pass done twice is the
    pre-pass done once. *)
Theorem pre_pass_merges_all (childNodes : list node) :
  settled None (mergeConsecutiveLists childNodes) = true
  ∧ (settled None childNodes = true → mergeConsecutiveLists childNodes = childNodes)
  ∧ mergeConsecutiveLists (mergeConsecutiveLists childNodes)
    = mergeConsecutiveLists childNodes.
Proof.
  split; [apply merge_settled|]. split; [apply merge_fixed|].
  apply merge_fixed, merge_settled.
Qed.

(** *** Runs of lists *)

Lemma merge_from_skip between' : ∀ tag attrs kids between rest,
  Forall not_element between' →
  merge_from tag attrs kids between (between' ++ rest)
  = merge_from tag attrs kids (between ++ between') rest.
Proof.
  induction between' as [|n between' IH]; intros tag attrs kids between rest Hb.
  - rewrite app_nil_r. reflexivity.
  - apply Forall_cons_1 in Hb as [Hn Hb]. cbn [app].
    destruct n as [t|? ? ?|]; [|contradiction|]; cbn [merge_from];
      rewrite IH by exact Hb; rewrite <- app_assoc; reflexivity.
Qed.

(** A further list of a run: the nodes in front of it and the list's
    attributes and child nodes. *)
Definition follower : Type := list node * (list (string * str) * list node).

Definition run_of (tag : string) (more : list follower) : list node :=
  concat (map (fun e : follower => fst e ++ [Element tag (fst (snd e)) (snd (snd e))]) more).

Lemma merge_from_run tag (more : list follower) : ∀ attrs kids between,
  mergeable tag tag = true →
  Forall (fun e : follower => Forall not_element (fst e)) more →
  merge_from tag attrs kids between (run_of tag more)
  = Element tag attrs (kids ++ concat (map (fun e : follower => snd (snd e)) more))
    :: between ++ concat (map fst more).
Proof.
  induction more as [|[btw [a k]] more IH]; intros attrs kids between Hm Hall.
  - cbn [run_of map concat merge_from]. rewrite !app_nil_r. reflexivity.
  - apply Forall_cons_1 in Hall as [Hb Hall]. cbn [fst snd] in Hb.
    unfold run_of. cbn [map concat fst snd]. rewrite <- app_assoc.
    rewrite (merge_from_skip btw) by exact Hb. cbn [app merge_from]. rewrite Hm.
    fold (run_of tag more). rewrite IH by assumption. rewrite <- !app_assoc. reflexivity.
Qed.

(** The [li] children of a list, each as its attributes and child nodes. *)
Fixpoint li_children (kids : list node) : list (list (string * str) * list node) :=
  match kids with
  | [] => []
  | Element t a k :: kids' =>
      if String.eqb t "li" then (a, k) :: li_children kids' else li_children kids'
  | _ :: kids' => li_children kids'
  end.

Lemma list_items_children type depth kids : ∀ itemNumber,
  list_items processNode processListItems type depth itemNumber kids
  = list_items processNode processListItems type depth itemNumber
      (map li_of (li_children kids)).
Proof.
  induction kids as [|n kids IH]; intros itemNumber; [reflexivity|].
  destruct n as [t|t a k|]; cbn [list_items li_children]; [apply IH| |apply IH].
  destruct (String.eqb_spec t "li") as [->|Hne].
  - cbn [map li_of fst snd list_items String.eqb Ascii.eqb Bool.eqb].
    rewrite IH. reflexivity.
  - apply IH.
Qed.

(** The lines that an unordered list gives for one item. *)
Definition bullet_item (depth : nat) (item : list (string * str) * list node) : str :=
  repeat_str (lit "    ") depth ++ lit "- "
  ++ trim (li_text processNode (snd item)) ++ [NL]
  ++ li_nested processListItems depth (snd item).

Lemma list_items_bullets depth (items : list (list (string * str) * list node)) :
  ∀ itemNumber,
    list_items processNode processListItems "ul" depth itemNumber (map li_of items)
    = concat (map (bullet_item depth) items).
Proof.
  induction items as [|[a kids] items IH]; intros n; [reflexivity|].
  cbn [map li_of fst snd list_items String.eqb Ascii.eqb Bool.eqb concat].
  rewrite IH. unfold bullet_item at 2, item_line.
  cbn [fst snd String.eqb Ascii.eqb Bool.eqb]. rewrite <- !app_assoc. reflexivity.
Qed.

(** X23.  Whatever a list element holds, only its [li] children count: an
    ordered list numbers them 1, 2, ... in their order, an unordered
    list gives each a hyphen; text and other elements between the items
    add nothing and do not advance the number, and neither the list's
    nor the items' attributes are read. *)
Theorem lists_render_their_items (t : string) (a : list (string * str))
    (kids : list node) (depth : nat) :
  processListItems "ol" depth (Element t a kids)
  = concat (imap (fun i item => ordered_item depth (S i) item) (li_children kids))
  ∧ processListItems "ul" depth (Element t a kids)
    = concat (map (bullet_item depth) (li_children kids)).
Proof.
  cbn [processListItems]. split.
  - rewrite list_items_children. apply (list_items_ordered depth (li_children kids) 1).
  - rewrite list_items_children. apply list_items_bullets.
Qed.

(** X24.  A run of any number of ordered lists, or of unordered lists, with
    only text or comments between them, is merged by the pre-pass into
    the first list, which receives the child nodes of all of them; the
    nodes that stood between the lists follow it.  The merged ordered
    list then numbers the items of all the lists in one sequence. *)
Theorem list_runs_merge (tag : string) (attrs : list (string * str)) (kids : list node)
    (more : list follower) :
  mergeable tag tag = true →
  Forall (fun e : follower => Forall not_element (fst e)) more →
  let merged := kids ++ concat (map (fun e : follower => snd (snd e)) more) in
  mergeConsecutiveLists (Element tag attrs kids :: run_of tag more)
  = Element tag attrs merged :: concat (map fst more)
  ∧ processListItems "ol" 0 (Element tag attrs merged)
    = concat (imap (fun i item => ordered_item 0 (S i) item) (li_children merged)).
Proof.
  intros Hm Hall merged. split.
  - cbn [mergeConsecutiveLists]. rewrite merge_from_run by assumption. reflexivity.
  - cbn [processListItems]. rewrite list_items_children.
    apply (list_items_ordered 0 (li_children merged) 1).
Qed.

Lemma list_runs_merge_witness :
  let more : list follower :=
    [([TextNode [NL]], ([("start"%string, lit "2")], [li_of ([], [TextNode (lit "b")])]));
     ([], ([], [li_of ([], [TextNode (lit "c")])]))] in
  let merged := [li_of ([], [TextNode (lit "a")])]
                ++ concat (map (fun e : follower => snd (snd e)) more) in
  mergeConsecutiveLists (Element "ol" [] [li_of ([], [TextNode (lit "a")])] :: run_of "ol" more)
  = Element "ol" [] merged :: concat (map fst more)
  ∧ processListItems "ol" 0 (Element "ol" [] merged)
    = concat (imap (fun i item => ordered_item 0 (S i) item) (li_children merged)).
Proof.
  apply list_runs_merge; [reflexivity|].
  repeat constructor.
Defined.

End DocxListFacts.

(** ** The codec on text without images and without placeholders *)

Module CodecPlainFacts.
Import Js Regex RegexFacts Codec.

Lemma includes_spec (p s : str) : includes p s = true ↔ ∃ a b, s = a ++ p ++ b.
Proof.
  induction s as [|c s IH]; cbn [includes].
  - rewrite orb_false_r, starts_with_spec. split.
    + intros [t Ht]. exists [], t. exact Ht.
    + intros (a & b & H). destruct a; [|discriminate]. exists b. exact H.
  - rewrite orb_true_iff, starts_with_spec, IH. split.
    + intros [[t Ht]|(a & b & ->)].
      * exists [], t. exact Ht.
      * exists (c :: a), b. reflexivity.
    + intros (a & b & H). destruct a as [|c' a].
      * left. exists b. exact H.
      * right. injection H as -> ->. exists a, b. reflexivity.
Qed.

(** A pattern whose every match holds the text [l] finds nothing in a
    subject without [l]. *)
Lemma no_literal_no_match (r : regex) (l : str) :
  (∀ m, lang r m → includes l m = true) →
  ∀ s, includes l s = false → occurs r s = false.
Proof.
  intros Hr. induction s as [|c s IH]; intros Hs; cbn [occurs].
  - rewrite orb_false_r. unfold test. destruct (exec r []) as [[rest caps]|] eqn:E;
      [|reflexivity].
    apply exec_sound in E as (m & Hm & Hl). apply Hr, includes_spec in Hl as (a & b & ->).
    assert (includes l [] = true) by (apply includes_spec; exists a, (b ++ rest);
      rewrite Hm, <- !app_assoc; reflexivity).
    congruence.
  - rewrite IH.
    + rewrite orb_false_r. unfold test.
      destruct (exec r (c :: s)) as [[rest caps]|] eqn:E; [|reflexivity].
      apply exec_sound in E as (m & Hm & Hl).
      apply Hr, includes_spec in Hl as (a & b & ->).
      assert (includes l (c :: s) = true) by (apply includes_spec; exists a, (b ++ rest);
        rewrite Hm, <- !app_assoc; reflexivity).
      congruence.
    + cbn [includes] in Hs. apply orb_false_iff in Hs as [_ Hs]. exact Hs.
Qed.

Lemma includes_middle (l a b : str) : includes l (a ++ l ++ b) = true.
Proof. apply includes_spec. exists a, b. reflexivity. Qed.

Lemma html_match_has_payload m :
  lang htmlImgPattern m → includes (lit "data:image") m = true.
Proof.
  unfold htmlImgPattern. cbn [lang].
  intros (m1 & m2 & -> & _ & m3 & m4 & -> & _ & m5 & m6 & -> & _ & m7 & m8 & -> & _
          & m9 & m10 & -> & _ & m11 & m12 & -> & _ & m13 & m14 & -> & Hg & _).
  destruct Hg as (g1 & g2 & -> & -> & _).
  rewrite !app_assoc. rewrite <- (app_assoc _ (lit "data:image") g2).
  rewrite <- (app_assoc _ (lit "data:image" ++ g2) m14).
  rewrite <- (app_assoc (lit "data:image") g2 m14). apply includes_middle.
Qed.

Lemma md_match_has_payload m :
  lang mdImgPattern m → includes (lit "data:image") m = true.
Proof.
  unfold mdImgPattern. cbn [lang].
  intros (m1 & m2 & -> & _ & m3 & m4 & -> & _ & m5 & m6 & -> & _ & m7 & m8 & -> & Hg & _).
  destruct Hg as (g1 & g2 & -> & -> & _).
  rewrite !app_assoc. rewrite <- (app_assoc _ (lit "data:image") g2).
  rewrite <- (app_assoc _ (lit "data:image" ++ g2) m8).
  rewrite <- (app_assoc (lit "data:image") g2 m8). apply includes_middle.
Qed.

Lemma placeholder_match_has_prefix m :
  lang placeholderPattern m → includes placeholder_prefix m = true.
Proof.
  unfold placeholderPattern. cbn [lang]. intros (m1 & m2 & -> & -> & _).
  apply (includes_middle placeholder_prefix [] m2).
Qed.

(** X12.  A text that nowhere holds the words [data:image] comes out of
    [collapseImages] as it went in: nothing is stored and no ID is
    drawn, whatever the store held before. *)
Theorem collapse_needs_payload (random : nat -> str) (st : gmap str str * nat) (x : str) :
  includes (lit "data:image") x = false →
  collapseImages random st x = (st, x).
Proof.
  intros Hx. unfold collapseImages.
  rewrite replace_loop_no_occurrence
    by (apply (no_literal_no_match _ (lit "data:image")); [apply html_match_has_payload|exact Hx]).
  apply replace_loop_no_occurrence.
  apply (no_literal_no_match _ (lit "data:image")); [apply md_match_has_payload|exact Hx].
Qed.

Lemma collapse_needs_payload_witness :
  collapseImages (fun _ => lit "abc") (∅, 0) (lit "![logo](https://example.com/logo.png)")
  = ((∅, 0), lit "![logo](https://example.com/logo.png)").
Proof. apply collapse_needs_payload. reflexivity. Defined.

(** X13.  A text that nowhere holds the opening of a placeholder is what
    [restoreImages] returns for it, whatever the store holds; so the
    content accessor returns the textarea's text as it is, in the
    collapsed state as well as in the other. *)
Theorem restore_needs_placeholder (ed : editor) (x : str) :
  textarea ed = Some x →
  includes placeholder_prefix x = false →
  restoreImages (imageStore ed) x = x ∧ getContent ed = x.
Proof.
  intros Ht Hx.
  assert (Hr : restoreImages (imageStore ed) x = x).
  { unfold restoreImages. apply replace_no_occurrence.
    apply (no_literal_no_match _ placeholder_prefix);
      [apply placeholder_match_has_prefix|exact Hx]. }
  split; [exact Hr|]. unfold getContent. rewrite Ht.
  destruct (imagesCollapsed ed); [exact Hr|reflexivity].
Qed.

Lemma restore_needs_placeholder_witness :
  let ed := Editor (Some (lit "[IMAGE-COLLAPSED-img-1] text")) true
                   {[ lit "img-1" := lit "<p><img></p>" ]} 1 in
  restoreImages (imageStore ed) (lit "[IMAGE-COLLAPSED-img-1] text")
  = lit "[IMAGE-COLLAPSED-img-1] text"
  ∧ getContent ed = lit "[IMAGE-COLLAPSED-img-1] text".
Proof. apply restore_needs_placeholder; reflexivity. Defined.

End CodecPlainFacts.

(** ** The shape of formatted Markdown *)

Module FormatterShapeFacts.
Import Js Regex Formatter FormatterFacts.

Lemma tidy_no_tab s : tidy s = true → TAB ∉ s.
Proof.
  induction s as [|a s IH]; intros H Hin; [apply elem_of_nil in Hin; exact Hin|].
  cbn [tidy] in H. apply andb_true_iff in H as [H Hs]. apply andb_true_iff in H as [Ha _].
  apply elem_of_cons in Hin as [<-|Hin]; [|exact (IH Hs Hin)].
  rewrite N.eqb_refl in Ha. discriminate.
Qed.

Lemma tidy_no_pair u a b v :
  tidy (u ++ a :: b :: v) = true → is_blank a = true → is_blank b = false.
Proof.
  intros H Ha. apply tidy_app_r in H. cbn [tidy] in H.
  apply andb_true_iff in H as [H _]. apply andb_true_iff in H as [_ H].
  rewrite Ha in H. cbn [andb] in H. apply negb_true_iff in H. exact H.
Qed.

(** X14.  Whatever text goes into the formatter, what comes out holds no tab
    and no two blanks in a row, has no white space at the start or the
    end of any line, and none at its own start or end. *)
Theorem formatted_text_shape (x : str) :
  let y := formatMarkdown x in
  (TAB ∉ y)
  ∧ (∀ u a b v, y = u ++ a :: b :: v → is_blank a = true → is_blank b = false)
  ∧ Forall (fun l => trim l = l) (split NL y)
  ∧ trim y = y.
Proof.
  destruct (format_shape x) as (Ht & Hl & Hr & Hyl & Hyr). cbn zeta in *.
  split; [apply tidy_no_tab, Ht|]. split.
  - intros u a b v E. rewrite E in Ht. exact (tidy_no_pair u a b v Ht).
  - split; [|apply trim_fixed; assumption].
    apply Forall_forall. intros l Hin. rewrite Forall_forall in Hl, Hr.
    apply trim_fixed; [apply Hl|apply Hr]; exact Hin.
Qed.

End FormatterShapeFacts.

(** ** File names and slugs *)

Module NamingFacts.
Import Js Regex RegexFacts Anchored Naming.

(** *** Deleting the units of a class *)

Lemma exec_class p c s :
  exec (Cls p) (c :: s) = if p c then Some (s, []) else None.
Proof.
  unfold exec. cbn [run]. destruct (p c); reflexivity.
Qed.

Lemma delete_class p s :
  replace (Cls p) (fun _ _ => []) s = List.filter (fun c => negb (p c)) s.
Proof.
  induction s as [|c s IH].
  - apply replace_nil. reflexivity.
  - cbn [List.filter]. destruct (p c) eqn:E; cbn [negb].
    + rewrite (replace_match (Cls p) _ [c] s []); [exact IH| |discriminate].
      cbn [app]. rewrite exec_class, E. reflexivity.
    + rewrite replace_nomatch; [rewrite IH; reflexivity|].
      rewrite exec_class, E. reflexivity.
Qed.

(** *** Squeezing the runs of a class into one unit *)

Section Squeeze.
Variable p : N -> bool.
Variable h : N.

Fixpoint skip (s : str) : str :=
  match s with
  | c :: s' => if p c then skip s' else s
  | [] => []
  end.

(** The subject with every run of the class replaced by [h]; [inside]
    tells whether the unit in front belonged to a run. *)
Fixpoint squeeze (inside : bool) (s : str) : str :=
  match s with
  | [] => []
  | c :: s' =>
      if p c then (if inside then [] else [h]) ++ squeeze true s'
      else c :: squeeze false s'
  end.

Lemma greedy_skip s :
  greedy p 0 None (fun s' => Some (s', [])) s = Some (skip s, []).
Proof.
  induction s as [|c s IH]; [reflexivity|].
  cbn [greedy skip room Nat.pred dec]. rewrite andb_true_r.
  destruct (p c); [rewrite IH|]; reflexivity.
Qed.

Lemma exec_plus c s :
  exec (Plus p) (c :: s) = if p c then Some (skip s, []) else None.
Proof.
  unfold exec, Plus. cbn [run greedy room Nat.pred dec]. rewrite andb_true_r.
  destruct (p c); [|reflexivity]. rewrite greedy_skip. reflexivity.
Qed.

Lemma skip_suffix s : ∃ m, s = m ++ skip s ∧ Forall (fun c => p c = true) m.
Proof.
  induction s as [|c s (m & Hm & Hall)]; [exists []; split; [reflexivity|constructor]|].
  cbn [skip]. destruct (p c) eqn:E.
  - exists (c :: m). split; [cbn [app]; f_equal; exact Hm|constructor; assumption].
  - exists []. split; [reflexivity|constructor].
Qed.

Lemma squeeze_skip s : squeeze true s = squeeze false (skip s).
Proof.
  induction s as [|c s IH]; [reflexivity|].
  cbn [squeeze skip]. destruct (p c) eqn:E.
  - cbn [app]. exact IH.
  - cbn [squeeze]. rewrite E. reflexivity.
Qed.

Lemma squeeze_replace s :
  replace (Plus p) (fun _ _ => [h]) s = squeeze false s.
Proof.
  revert s.
  apply (scan_ind (Plus p) (fun s => replace (Plus p) (fun _ _ => [h]) s = squeeze false s));
    [cbn; lia|..].
  - apply replace_nil. reflexivity.
  - intros c s Hex IH. rewrite replace_nomatch by exact Hex.
    rewrite exec_plus in Hex. cbn [squeeze]. destruct (p c); [discriminate|].
    rewrite IH. reflexivity.
  - intros m rest caps Hne Hex IH. rewrite (replace_match _ _ m rest caps Hex Hne), IH.
    destruct m as [|c m]; [congruence|]. cbn [app] in *. rewrite exec_plus in Hex.
    cbn [squeeze]. destruct (p c); [|discriminate]. injection Hex as Hrest _.
    cbn [app]. f_equal. rewrite squeeze_skip, Hrest. reflexivity.
Qed.

(** What survives is a unit outside the class, or [h]. *)
Lemma squeeze_Forall (Q : N → Prop) s : ∀ inside,
  Q h → Forall (fun c => p c = false → Q c) s → Forall Q (squeeze inside s).
Proof.
  induction s as [|c s IH]; intros inside Hh Hall; [constructor|].
  apply Forall_cons_1 in Hall as [Hc Hall]. cbn [squeeze]. destruct (p c) eqn:E.
  - apply Forall_app. split; [destruct inside; repeat constructor; exact Hh|].
    apply IH; assumption.
  - constructor; [apply Hc; reflexivity|apply IH; assumption].
Qed.

End Squeeze.

(** *** Hyphens *)

(** No two hyphens in a row; [prev] tells whether the unit in front is
    a hyphen. *)
Fixpoint no_double (prev : bool) (s : str) : bool :=
  match s with
  | [] => true
  | c :: s' => negb (prev && is_hyphen c) && no_double (is_hyphen c) s'
  end.

Lemma squeeze_no_double s : ∀ inside,
  no_double inside (squeeze is_hyphen HYPHEN inside s) = true.
Proof.
  induction s as [|c s IH]; intros inside; [reflexivity|].
  cbn [squeeze]. destruct (is_hyphen c) eqn:E.
  - destruct inside; cbn [app]; [apply IH|].
    cbn [no_double andb negb]. change (is_hyphen HYPHEN) with true. apply IH.
  - cbn [no_double]. rewrite E, andb_false_r. cbn [negb andb]. apply IH.
Qed.

Lemma no_double_weaken prev s : no_double prev s = true → no_double false s = true.
Proof.
  destruct s as [|c s]; [reflexivity|]. cbn [no_double andb negb].
  intros H. apply andb_true_iff in H as [_ H]. exact H.
Qed.

Lemma no_double_take n : ∀ prev s, no_double prev s = true → no_double prev (take n s) = true.
Proof.
  induction n as [|n IH]; intros prev s H; [destruct s; reflexivity|].
  destruct s as [|c s]; [reflexivity|]. cbn [take no_double] in *.
  apply andb_true_iff in H as [H1 H2]. rewrite H1. cbn [andb]. apply IH, H2.
Qed.

(** The subject without a hyphen at its start and without a hyphen at
    its end. *)
Fixpoint strip_edges (bol : bool) (s : str) : str :=
  match s with
  | [] => []
  | c :: s' =>
      if is_hyphen c && (bol || match s' with [] => true | _ => false end)
      then strip_edges false s'
      else c :: strip_edges false s'
  end.

Lemma aexec_edge bol c s :
  aexec re_edge_hyphen bol (c :: s)
  = if is_hyphen c && (bol || match s with [] => true | _ => false end)
    then Some (s, []) else None.
Proof.
  unfold aexec, re_edge_hyphen. cbn [arun run].
  replace (length s =? length (c :: s))%nat with false
    by (symmetry; apply Nat.eqb_neq; cbn [length]; lia).
  destruct bol, (is_hyphen c), s; reflexivity.
Qed.

Lemma aexec_edge_nil bol : aexec re_edge_hyphen bol [] = None.
Proof. unfold aexec, re_edge_hyphen. cbn [arun run]. destruct bol; reflexivity. Qed.

Lemma strip_edges_replace s : ∀ bol,
  areplace_loop re_edge_hyphen (fun _ _ => []) 0 bol s = strip_edges bol s.
Proof.
  induction s as [|c s IH]; intros bol.
  - cbn [areplace_loop]. rewrite aexec_edge_nil. reflexivity.
  - cbn [areplace_loop strip_edges]. rewrite aexec_edge.
    destruct (is_hyphen c && _).
    + replace (length (c :: s) - length s) with 1 by (cbn [length]; lia).
      cbn [take length app]. apply IH.
    + rewrite IH. reflexivity.
Qed.

Lemma strip_edges_Forall (Q : N → Prop) s : ∀ bol, Forall Q s → Forall Q (strip_edges bol s).
Proof.
  induction s as [|c s IH]; intros bol H; [constructor|].
  apply Forall_cons_1 in H as [Hc H]. cbn [strip_edges].
  destruct (_ && _); [apply IH, H|constructor; [exact Hc|apply IH, H]].
Qed.

Lemma strip_edges_no_double s : ∀ prev,
  no_double prev s = true → no_double prev (strip_edges false s) = true.
Proof.
  induction s as [|c s IH]; intros prev H; [reflexivity|].
  cbn [strip_edges no_double orb] in *. apply andb_true_iff in H as [H1 H2].
  destruct s as [|d s].
  - rewrite andb_true_r. destruct (is_hyphen c) eqn:E; [reflexivity|].
    cbn [strip_edges no_double]. rewrite E. destruct prev; reflexivity.
  - rewrite andb_false_r. cbn [no_double].
    apply andb_true_iff. split; [exact H1|]. apply IH, H2.
Qed.

(** After the strip the text does not start with a hyphen. *)
Definition no_lead (s : str) : bool :=
  match s with c :: _ => negb (is_hyphen c) | [] => true end.

Lemma strip_edges_shape s :
  no_double false s = true →
  no_lead (strip_edges true s) = true ∧ no_double false (strip_edges true s) = true.
Proof.
  destruct s as [|c s]; [split; reflexivity|]. intros H.
  cbn [strip_edges no_double orb andb negb] in *. rewrite andb_true_r.
  destruct (is_hyphen c) eqn:E.
  - split; [|apply (no_double_weaken true), strip_edges_no_double, H].
    destruct s as [|d s]; [reflexivity|]. cbn [no_double] in H.
    apply andb_true_iff in H as [H _]. cbn [andb] in H. apply negb_true_iff in H.
    cbn [strip_edges orb]. rewrite H. cbn [andb no_lead]. rewrite H. reflexivity.
  - split; [cbn [no_lead]; rewrite E; reflexivity|].
    cbn [no_double andb negb]. rewrite E. apply strip_edges_no_double, H.
Qed.

Lemma no_lead_take n s : no_lead s = true → no_lead (take n s) = true.
Proof. destruct n, s; auto. Qed.

Definition filename_unit (c : N) : Prop := is_lower c || is_digit c || is_hyphen c = true.
Definition slug_unit (c : N) : Prop := is_word c || is_hyphen c = true.

Lemma filter_Forall (q : N → bool) (s : str) :
  Forall (fun c => q c = true) (List.filter q s).
Proof.
  induction s as [|c s IH]; [constructor|]. cbn [List.filter].
  destruct (q c) eqn:E; [constructor; assumption|exact IH].
Qed.

(** The three squeezes and deletions that file names and slugs share:
    from a text whose units are of the class [keep], white space or
    hyphens, to one whose units are of the class or hyphens, without two
    hyphens in a row. *)
Lemma hyphenated (keep : N → bool) (t : str) :
  Forall (fun c => keep c || is_space c || is_hyphen c = true) t →
  let t' := replace (Plus is_hyphen) (fun _ _ => [HYPHEN])
              (replace (Plus is_space) (fun _ _ => [HYPHEN]) t) in
  Forall (fun c => keep c || is_hyphen c = true) t' ∧ no_double false t' = true.
Proof.
  intros Hall. cbn zeta. rewrite !squeeze_replace. split; [|apply squeeze_no_double].
  apply squeeze_Forall; [apply orb_true_r|].
  eapply Forall_impl; [|intros c Hc _; exact Hc].
  apply squeeze_Forall; [apply orb_true_r|].
  eapply Forall_impl; [exact Hall|]. intros c Hc Hsp. cbn beta in Hc.
  rewrite Hsp, orb_false_r in Hc. exact Hc.
Qed.

(** X11.  Whatever the title and whatever the case tables, the file name is
    never empty, is at most 50 units long, is made of the letters a to
    z, digits and hyphens only, does not start with a hyphen and has no
    two hyphens in a row; for an empty or blank title it is the word
    untitled. *)
Theorem filename_is_safe (toLowerCase : str -> str) (title : str) :
  let name := generateFilename toLowerCase title in
  name ≠ []
  ∧ length name ≤ 50
  ∧ Forall (fun c => is_lower c || is_digit c || is_hyphen c = true) name
  ∧ no_lead name = true
  ∧ no_double false name = true
  ∧ (trim title = [] → name = lit "untitled").
Proof.
  cbn zeta. unfold generateFilename.
  assert (Hu : lit "untitled" ≠ []
               ∧ length (lit "untitled") ≤ 50
               ∧ Forall filename_unit (lit "untitled")
               ∧ no_lead (lit "untitled") = true
               ∧ no_double false (lit "untitled") = true).
  { split; [discriminate|]. split; [cbn; lia|]. split; [|split; reflexivity].
    repeat constructor. }
  destruct Hu as (U1 & U2 & U3 & U4 & U5).
  destruct (negb (truthy title) || str_eqb (trim title) []) eqn:Eb.
  { split; [exact U1|]. split; [exact U2|]. split; [exact U3|]. split; [exact U4|].
    split; [exact U5|]. intros _. reflexivity. }
  apply orb_false_iff in Eb as [_ Eb]. unfold str_eqb in Eb.
  apply bool_decide_eq_false_1 in Eb.
  set (t1 := replace (Cls not_filename_unit) (fun _ _ => []) (toLowerCase title)).
  assert (H1 : Forall (fun c => (is_lower c || is_digit c) || is_space c || is_hyphen c = true)
                 t1).
  { unfold t1. rewrite delete_class. eapply Forall_impl; [apply filter_Forall|].
    intros c Hc. cbn beta in Hc. unfold not_filename_unit in Hc.
    rewrite negb_involutive in Hc. exact Hc. }
  destruct (hyphenated (fun c => is_lower c || is_digit c) t1 H1) as [H2 H3].
  set (t3 := replace (Plus is_hyphen) (fun _ _ => [HYPHEN])
               (replace (Plus is_space) (fun _ _ => [HYPHEN]) t1)) in *.
  unfold areplace. rewrite strip_edges_replace.
  destruct (strip_edges_shape t3 H3) as [H4 H5].
  pose proof (strip_edges_Forall _ t3 true H2) as H6.
  set (t4 := strip_edges true t3) in *.
  destruct (truthy (take 50 t4)) eqn:Et.
  - split; [destruct (take 50 t4); [discriminate|discriminate]|].
    split; [rewrite length_take; lia|]. split; [apply Forall_take, H6|].
    split; [apply no_lead_take, H4|]. split; [apply no_double_take, H5|].
    intros E. congruence.
  - split; [exact U1|]. split; [exact U2|]. split; [exact U3|]. split; [exact U4|].
    split; [exact U5|]. intros E. congruence.
Qed.

(** X10.  The slug written by the generate-slug button, for a title that is
    not empty, and the anchors of the table of contents are made of
    letters, digits, underscores and hyphens only, whatever the case
    tables; the slug has no two hyphens in a row.  For an empty title no
    slug is written. *)
Theorem slug_is_clean (toLowerCase : str -> str) (title : str) :
  match generate_slug toLowerCase title with
  | Some slug =>
      Forall (fun c => is_word c || is_hyphen c = true) slug ∧ no_double false slug = true
  | None => title = []
  end
  ∧ Forall (fun c => is_word c || is_hyphen c = true) (heading_anchor toLowerCase title).
Proof.
  assert (Hkeep : ∀ t, Forall (fun c => is_word c || is_space c || is_hyphen c = true)
                         (replace (Cls not_slug_unit) (fun _ _ => []) t)).
  { intros t. rewrite delete_class. eapply Forall_impl; [apply filter_Forall|].
    intros c Hc. cbn beta in Hc. unfold not_slug_unit in Hc.
    rewrite negb_involutive in Hc. exact Hc. }
  split.
  - unfold generate_slug. destruct title as [|c title]; [reflexivity|]. cbn [truthy].
    apply (hyphenated is_word), Hkeep.
  - unfold heading_anchor. rewrite squeeze_replace.
    apply squeeze_Forall; [apply orb_true_r|].
    eapply Forall_impl; [apply Hkeep|]. intros c Hc Hsp. cbn beta in Hc.
    rewrite Hsp, orb_false_r in Hc. exact Hc.
Qed.

End NamingFacts.

(** ** Word count *)

Module CountingFacts.
Import Js Regex RegexFacts Counting.

(** The number of words of a text: of its maximal runs of units that
    are not white space; [inside] tells whether the unit in front
    belongs to a word. *)
Fixpoint runs (inside : bool) (s : str) : nat :=
  match s with
  | [] => 0
  | c :: s' =>
      if is_space c then runs false s'
      else (if inside then 0 else 1) + runs true s'
  end.

Definition spaces (s : str) : Prop := Forall (fun c => is_space c = true) s.

Lemma runs_spaces_l a : ∀ inside t, spaces a → a ≠ [] → runs inside (a ++ t) = runs false t.
Proof.
  induction a as [|c a IH]; intros inside t Ha Hne; [congruence|].
  apply Forall_cons_1 in Ha as [Hc Ha]. cbn [app runs]. rewrite Hc.
  destruct a as [|d a]; [reflexivity|]. apply IH; [exact Ha|discriminate].
Qed.

Lemma runs_spaces_r t : ∀ inside b, spaces b → runs inside (t ++ b) = runs inside t.
Proof.
  induction t as [|c t IH]; intros inside b Hb.
  - destruct b as [|d b]; [reflexivity|].
    pose proof (runs_spaces_l (d :: b) inside [] Hb ltac:(discriminate)) as H.
    rewrite app_nil_r in H. exact H.
  - cbn [app runs]. destruct (is_space c); rewrite IH by exact Hb; reflexivity.
Qed.

Lemma trimStart_spaces s : ∃ a, s = a ++ trimStart s ∧ spaces a.
Proof.
  induction s as [|c s (a & Ha & Hs)]; [exists []; split; [reflexivity|constructor]|].
  cbn [trimStart]. destruct (is_space c) eqn:E.
  - exists (c :: a). split; [cbn [app]; f_equal; exact Ha|constructor; assumption].
  - exists []. split; [reflexivity|constructor].
Qed.

Lemma trim_spaces s : ∃ a b, s = a ++ trim s ++ b ∧ spaces a ∧ spaces b.
Proof.
  destruct (trimStart_spaces s) as (a & Ha & Hsa).
  destruct (trimStart_spaces (rev (trimStart s))) as (b & Hb & Hsb).
  exists a, (rev b). unfold trim, trimEnd. split; [|split; [exact Hsa|]].
  - rewrite <- rev_app_distr, <- Hb, rev_involutive. exact Ha.
  - unfold spaces. apply Forall_forall. intros c Hc.
    apply list_elem_of_In, in_rev, list_elem_of_In in Hc.
    unfold spaces in Hsb. rewrite Forall_forall in Hsb. exact (Hsb c Hc).
Qed.

Lemma runs_trim s : runs false (trim s) = runs false s.
Proof.
  destruct (trim_spaces s) as (a & b & Hs & Ha & Hb). rewrite Hs at 2.
  destruct a as [|c a].
  - cbn [app]. rewrite runs_spaces_r by exact Hb. reflexivity.
  - rewrite runs_spaces_l; [|exact Ha|discriminate].
    rewrite runs_spaces_r by exact Hb. reflexivity.
Qed.

Definition counted (l : list str) : nat :=
  length (List.filter (fun w => (0 <? length w)%nat) l).

Definition filled (cur : str) : bool := match cur with [] => false | _ => true end.

Lemma split_loop_words s : ∀ skip cur,
  skip ≤ length s → spaces (take skip s) →
  counted (split_loop (Plus is_space) skip cur s)
  = (if filled cur then 1 else 0) + runs (filled cur) (drop skip s).
Proof.
  induction s as [|c s IH]; intros skip cur Hlen Hsp.
  - destruct skip; [|cbn [length] in Hlen; lia].
    cbn [split_loop counted drop runs]. destruct cur; reflexivity.
  - destruct skip as [|n].
    + cbn [split_loop drop]. rewrite (NamingFacts.exec_plus is_space c s).
      cbn [runs]. destruct (is_space c) eqn:E.
      * destruct (NamingFacts.skip_suffix is_space s) as (m & Hm & Hall).
        remember (NamingFacts.skip is_space s) as k eqn:Hk. clear Hk.
        assert (Hn : length (c :: s) - length k = S (length m)).
        { rewrite Hm. cbn [length]. rewrite length_app. lia. }
        rewrite Hn. cbn beta iota.
        assert (Hc : ∀ L, counted (cur :: L) = (if filled cur then 1 else 0) + counted L)
          by (intros L; destruct cur; reflexivity).
        rewrite Hc, IH.
        -- cbn [filled Nat.add]. f_equal. rewrite Hm, drop_app_length.
           destruct m as [|d m]; [reflexivity|].
           rewrite runs_spaces_l; [reflexivity|exact Hall|discriminate].
        -- rewrite Hm, length_app. lia.
        -- rewrite Hm, take_app_length. exact Hall.
      * rewrite IH; [|lia|constructor]. cbn [drop].
        destruct cur; cbn [app filled]; reflexivity.
    + cbn [split_loop drop]. cbn [take] in Hsp. apply Forall_cons_1 in Hsp as [_ Hsp].
      apply IH; [cbn [length] in Hlen; lia|exact Hsp].
Qed.

(** X9.  The word count is the number of maximal runs of units that are not
    white space, however much white space lies between, before or after
    them; a text of white space only, or an empty one, counts no word.
    The reading time is the word count divided by 200 and rounded up,
    and one minute at least, also for an empty text. *)
Theorem words_are_runs (text : str) :
  words text = runs false text
  ∧ (Forall (fun c => is_space c = true) text → words text = 0)
  ∧ 1 ≤ minutes text
  ∧ (200 * (minutes text - 1) < Nat.max 1 (words text) ≤ 200 * minutes text).
Proof.
  assert (Hw : words text = runs false text).
  { unfold words. rewrite <- runs_trim. fold (counted (split_re (Plus is_space) (trim text))).
    unfold split_re. destruct (trim text) as [|c t] eqn:E; [reflexivity|].
    rewrite split_loop_words; [reflexivity|cbn [length]; lia|constructor]. }
  split; [exact Hw|]. split.
  - intros Hall. rewrite Hw. rewrite <- (app_nil_l text), runs_spaces_r by exact Hall.
    reflexivity.
  - unfold minutes. pose proof (Nat.div_mod (words text + 199) 200 ltac:(lia)) as Hd.
    pose proof (Nat.mod_upper_bound (words text + 199) 200 ltac:(lia)) as Hm.
    split; lia.
Qed.

End CountingFacts.

(** ** Toolbar actions *)

Module ToolbarFacts.
Import Js Regex RegexFacts Toolbar.

(** What the document object model keeps of a selection. *)
Definition valid (t : field) : Prop :=
  selectionStart t ≤ selectionEnd t ∧ selectionEnd t ≤ length (value t).

(** The selected text. *)
Definition selection (t : field) : str :=
  substring (selectionStart t) (selectionEnd t) (value t).

Lemma value_set_value v t : value (set_value v t) = v.
Proof. unfold set_value. destruct (bool_decide_reflect (v = value t)); [congruence|reflexivity]. Qed.

(** Start, then end: the selection is as asked for, wherever it was. *)
Lemma select_range a b t :
  a ≤ b → b ≤ length (value t) →
  set_selectionEnd b (set_selectionStart a t) = Field (value t) a b.
Proof.
  intros Hab Hb. unfold set_selectionEnd, set_selectionStart, setSelectionRange.
  cbn [value selectionStart selectionEnd].
  set (e := if (selectionEnd t <? a)%nat then a else selectionEnd t).
  assert (He : a ≤ e) by (unfold e; destruct (Nat.ltb_spec (selectionEnd t) a); lia).
  rewrite (Nat.min_l a (length (value t))) by lia.
  set (b' := Nat.min e (length (value t))). assert (Hb' : a ≤ b') by lia.
  replace (if (b' <=? a)%nat then b' else a) with a
    by (destruct (Nat.leb_spec b' a); lia).
  rewrite (Nat.min_l a), (Nat.min_l b) by lia.
  replace (if (b <=? a)%nat then b else a) with a by (destruct (Nat.leb_spec b a); lia).
  reflexivity.
Qed.

Lemma select_cursor n t :
  n ≤ length (value t) → set_cursor n t = Field (value t) n n.
Proof.
  intros Hn. unfold set_cursor, set_selectionEnd, set_selectionStart, setSelectionRange.
  cbn [value selectionStart selectionEnd].
  rewrite (Nat.min_l n (length (value t))) by lia.
  rewrite Nat.ltb_irrefl, (Nat.min_l n (length (value t))) by lia.
  rewrite Nat.leb_refl. reflexivity.
Qed.

Lemma substring_prefix a (s : str) : substring 0 a s = take a s.
Proof.
  unfold substring. cbn [Nat.min Nat.max drop]. rewrite Nat.sub_0_r.
  destruct (Nat.le_ge_cases a (length s)).
  - rewrite Nat.min_l by assumption. reflexivity.
  - rewrite Nat.min_r by assumption. rewrite (take_ge s a) by lia. apply take_ge. lia.
Qed.

Lemma substring_middle (pre x post : str) :
  substring (length pre) (length pre + length x) (pre ++ x ++ post) = x.
Proof.
  unfold substring. rewrite !length_app.
  rewrite (Nat.min_l (length pre)) by lia.
  rewrite (Nat.min_l (length pre + length x)) by lia.
  rewrite Nat.max_r, Nat.min_l by lia. rewrite drop_app_length.
  replace (length pre + length x - length pre) with (length x) by lia.
  apply take_app_length.
Qed.

(** The text put in place of the selection, with the part [x] of it
    selected afterwards. *)
Lemma replace_and_select (t : field) (pre x post : str) :
  let t' := set_selectionEnd (length pre + length x)
              (set_selectionStart (length pre) (set_value (pre ++ x ++ post) t)) in
  value t' = pre ++ x ++ post ∧ selection t' = x ∧ valid t'.
Proof.
  cbn zeta. rewrite select_range; rewrite ?value_set_value, ?length_app; try lia.
  unfold selection, valid. cbn [value selectionStart selectionEnd].
  split; [reflexivity|]. split; [apply substring_middle|].
  rewrite !length_app. lia.
Qed.

Lemma take_start t : valid t → length (take (selectionStart t) (value t)) = selectionStart t.
Proof. intros [H1 H2]. rewrite length_take. lia. Qed.

(** X5.  Wrapping puts the markers around the selected text, or around the
    word text when nothing is selected, leaves the text in front of and
    behind the selection as it was, and selects what it wrapped, without
    the markers. *)
Theorem wrap_selects_wrapped_text (prefix suffix : str) (t : field) :
  selectionStart t ≤ selectionEnd t → selectionEnd t ≤ length (value t) →
  let wrapped := selected_or (lit "text") t in
  let t' := wrapSelection prefix suffix t in
  value t' = take (selectionStart t) (value t) ++ prefix ++ wrapped ++ suffix
             ++ drop (selectionEnd t) (value t)
  ∧ substring (selectionStart t') (selectionEnd t') (value t') = wrapped
  ∧ selectionStart t' ≤ selectionEnd t' ≤ length (value t').
Proof.
  intros H1 H2. cbn zeta. unfold wrapSelection.
  pose proof (take_start t (conj H1 H2)) as Hlen.
  set (wrapped := selected_or (lit "text") t).
  rewrite substring_prefix.
  pose proof (replace_and_select t (take (selectionStart t) (value t) ++ prefix) wrapped
                (suffix ++ drop (selectionEnd t) (value t))) as H.
  cbn zeta in H. rewrite !length_app, Hlen in H. rewrite <- !app_assoc in H.
  rewrite <- !app_assoc. destruct H as (Hv & Hs & Hval).
  split; [exact Hv|]. split; assumption.
Qed.

Lemma wrap_selects_wrapped_text_witness :
  let t := Field (lit "make this bold") 5 9 in
  let wrapped := selected_or (lit "text") t in
  let t' := wrapSelection (lit "**") (lit "**") t in
  value t' = take (selectionStart t) (value t) ++ lit "**" ++ wrapped ++ lit "**"
             ++ drop (selectionEnd t) (value t)
  ∧ substring (selectionStart t') (selectionEnd t') (value t') = wrapped
  ∧ selectionStart t' ≤ selectionEnd t' ≤ length (value t').
Proof.
  apply (wrap_selects_wrapped_text (lit "**") (lit "**") (Field (lit "make this bold") 5 9));
    cbn; lia.
Defined.

Lemma length_lit (s : string) : length (lit s) = String.length s.
Proof.
  unfold lit. rewrite length_map. induction s as [|a s IH]; [reflexivity|].
  cbn [list_ascii_of_string length String.length]. rewrite IH. reflexivity.
Qed.

(** X6.  After a link is inserted the example address is selected, ready to
    be typed over; after a code block is inserted, the code.  After an
    image is inserted the selection is 30 units long from the start of
    the example address, which has 29: it takes in the closing
    parenthesis of the image. *)
Theorem inserted_templates_select (t : field) :
  selectionStart t ≤ selectionEnd t → selectionEnd t ≤ length (value t) →
  let selection_of (t' : field) :=
    substring (selectionStart t') (selectionEnd t') (value t') in
  value (insertLink t)
  = take (selectionStart t) (value t) ++ lit "[" ++ selected_or (lit "link text") t
    ++ lit "](https://example.com)" ++ drop (selectionEnd t) (value t)
  ∧ selection_of (insertLink t) = lit "https://example.com"
  ∧ value (insertImage t)
    = take (selectionStart t) (value t) ++ lit "![" ++ selected_or (lit "alt text") t
      ++ lit "](https://example.com/image.png)" ++ drop (selectionEnd t) (value t)
  ∧ selection_of (insertImage t) = lit "https://example.com/image.png)"
  ∧ selection_of (insertCodeBlock t) = selected_or (lit "code here") t.
Proof.
  intros H1 H2. cbn zeta. pose proof (take_start t (conj H1 H2)) as Hlen.
  fold (selection (insertLink t)). fold (selection (insertImage t)).
  fold (selection (insertCodeBlock t)).
  unfold insertLink, insertImage, insertCodeBlock. rewrite !substring_prefix.
  set (before := take (selectionStart t) (value t)) in *.
  set (behind := drop (selectionEnd t) (value t)).
  split; [|split; [|split; [|split]]].
  - rewrite select_range; rewrite ?value_set_value; cbn [value].
    + rewrite <- !app_assoc. reflexivity.
    + lia.
    + rewrite !length_app, Hlen, !length_lit. cbn [String.length]. lia.
  - pose proof (replace_and_select t
                  (before ++ lit "[" ++ selected_or (lit "link text") t ++ lit "](")
                  (lit "https://example.com") (lit ")" ++ behind)) as (_ & H & _).
    rewrite !length_app, Hlen, !length_lit in H. cbn [String.length] in H.
    rewrite <- !app_assoc in H. rewrite <- !app_assoc.
    replace (selectionStart t + length (selected_or (lit "link text") t) + 3)
      with (selectionStart t + (1 + (length (selected_or (lit "link text") t) + 2))) by lia.
    exact H.
  - rewrite select_range; rewrite ?value_set_value; cbn [value].
    + rewrite <- !app_assoc. reflexivity.
    + lia.
    + rewrite !length_app, Hlen, !length_lit. cbn [String.length]. lia.
  - pose proof (replace_and_select t
                  (before ++ lit "![" ++ selected_or (lit "alt text") t ++ lit "](")
                  (lit "https://example.com/image.png)") behind) as (_ & H & _).
    rewrite !length_app, Hlen, !length_lit in H. cbn [String.length] in H.
    rewrite <- !app_assoc in H. rewrite <- !app_assoc.
    replace (selectionStart t + length (selected_or (lit "alt text") t) + 4)
      with (selectionStart t + (2 + (length (selected_or (lit "alt text") t) + 2))) by lia.
    exact H.
  - pose proof (replace_and_select t (before ++ [NL] ++ lit "```" ++ [NL])
                  (selected_or (lit "code here") t)
                  ([NL] ++ lit "```" ++ [NL] ++ behind)) as (_ & H & _).
    rewrite !length_app, Hlen, !length_lit in H. cbn [String.length length] in H.
    rewrite <- !app_assoc in H. rewrite <- !app_assoc.
    replace (selectionStart t + 5) with (selectionStart t + (1 + (3 + 1))) by lia.
    exact H.
Qed.

Lemma inserted_templates_select_witness :
  let t := Field (lit "see the docs here") 8 12 in
  let selection_of (t' : field) :=
    substring (selectionStart t') (selectionEnd t') (value t') in
  value (insertLink t)
  = take (selectionStart t) (value t) ++ lit "[" ++ selected_or (lit "link text") t
    ++ lit "](https://example.com)" ++ drop (selectionEnd t) (value t)
  ∧ selection_of (insertLink t) = lit "https://example.com"
  ∧ value (insertImage t)
    = take (selectionStart t) (value t) ++ lit "![" ++ selected_or (lit "alt text") t
      ++ lit "](https://example.com/image.png)" ++ drop (selectionEnd t) (value t)
  ∧ selection_of (insertImage t) = lit "https://example.com/image.png)"
  ∧ selection_of (insertCodeBlock t) = selected_or (lit "code here") t.
Proof.
  apply (inserted_templates_select (Field (lit "see the docs here") 8 12)); cbn; lia.
Defined.

(** *** The start of the current line *)

Lemma find_last_None c p : find_last c p = None → c ∉ p.
Proof.
  induction p as [|d p IH]; intros H Hin; [apply elem_of_nil in Hin; exact Hin|].
  cbn [find_last] in H. destruct (find_last c p) as [k|]; [discriminate|].
  destruct (N.eqb_spec d c) as [->|Hne]; [discriminate|].
  apply elem_of_cons in Hin as [->|Hin]; [congruence|exact (IH eq_refl Hin)].
Qed.

Lemma find_last_Some c p k :
  find_last c p = Some k → ∃ a b, p = a ++ c :: b ∧ length a = k ∧ c ∉ b.
Proof.
  revert k. induction p as [|d p IH]; intros k H; [discriminate|].
  cbn [find_last] in H. destruct (find_last c p) as [j|] eqn:E.
  - injection H as <-. destruct (IH j eq_refl) as (a & b & -> & <- & Hb).
    exists (d :: a), b. split; [reflexivity|]. split; [reflexivity|exact Hb].
  - destruct (N.eqb_spec d c) as [->|Hne]; [|discriminate]. injection H as <-.
    exists [], p. split; [reflexivity|]. split; [reflexivity|apply find_last_None, E].
Qed.

Lemma find_last_app c a b : c ∉ b → find_last c (a ++ c :: b) = Some (length a).
Proof.
  intros Hb. induction a as [|d a IH]; cbn [app find_last length].
  - destruct (find_last c b) as [k|] eqn:E.
    + apply find_last_Some in E as (a' & b' & -> & _). exfalso. apply Hb.
      apply elem_of_app. right. left.
    + rewrite N.eqb_refl. reflexivity.
  - rewrite IH. reflexivity.
Qed.

(** X7.  The prefix of a heading, list or quote goes in front of the line in
    which the cursor stands: the place of insertion is the start of the
    text or follows a line break, and no line break lies between it and
    the cursor.  The cursor moves on by the length of the prefix, so that
    it stays where it was in the text.  One case is different: with the
    cursor at the very start of a text whose first unit is a line break,
    the prefix goes behind that line break, into the second line. *)
Theorem line_prefix_at_line_start (prefix : str) (t : field) :
  selectionStart t ≤ selectionEnd t → selectionEnd t ≤ length (value t) →
  let start := selectionStart t in
  let lineStart := after_last NL (value t) start in
  let t' := insertLinePrefix prefix t in
  value t' = take lineStart (value t) ++ prefix ++ drop lineStart (value t)
  ∧ selectionStart t' = start + length prefix
  ∧ selectionEnd t' = start + length prefix
  ∧ (lineStart = 0 ∨ value t !! (lineStart - 1) = Some NL)
  ∧ ((0 < start ∨ value t !! 0 ≠ Some NL) →
       lineStart ≤ start ∧ NL ∉ take (start - lineStart) (drop lineStart (value t)))
  ∧ (start = 0 → value t !! 0 = Some NL → lineStart = 1).
Proof.
  intros H1 H2. cbn zeta. unfold insertLinePrefix. rewrite substring_prefix.
  set (v := value t) in *. set (start := selectionStart t) in *.
  set (ls := after_last NL v start).
  assert (Hls : ls ≤ S (start - 1) ∧ ls ≤ length v ∨ ls = 0).
  { unfold ls, after_last. destruct (find_last NL (take (S (start - 1)) v)) as [k|] eqn:E;
      [left|right; reflexivity].
    apply find_last_Some in E as (a & b & E & <- & _).
    apply (f_equal length) in E. rewrite length_take, length_app in E. cbn [length] in E.
    lia. }
  rewrite select_cursor; rewrite value_set_value.
  2:{ rewrite !length_app, length_take, length_drop. lia. }
  cbn [value selectionStart selectionEnd].
  split; [reflexivity|]. split; [reflexivity|]. split; [reflexivity|].
  unfold ls, after_last.
  destruct (find_last NL (take (S (start - 1)) v)) as [k|] eqn:E.
  - apply find_last_Some in E as (a & b & E & <- & Hb).
    assert (Hv : v = a ++ NL :: b ++ drop (S (start - 1)) v).
    { rewrite <- (take_drop (S (start - 1)) v) at 1. rewrite E, <- app_assoc. reflexivity. }
    assert (Hlen : length a + 1 + length b = Nat.min (S (start - 1)) (length v)).
    { apply (f_equal length) in E. rewrite length_take, length_app in E.
      cbn [length] in E. lia. }
    split; [right|split].
    + replace (S (length a) - 1) with (length a) by lia. rewrite Hv.
      apply list_lookup_middle. reflexivity.
    + intros Hstart.
      assert (Hpos : 0 < start).
      { destruct Hstart as [Hs|Hs]; [exact Hs|]. destruct (Nat.eq_dec start 0) as [E0|]; [|lia].
        exfalso. apply Hs. rewrite Hv. destruct a as [|d a]; [reflexivity|].
        cbn [length] in Hlen. lia. }
      split; [lia|]. rewrite Hv.
      replace (S (length a)) with (length (a ++ [NL])) by (rewrite length_app; cbn; lia).
      replace (a ++ NL :: b ++ drop (S (start - 1)) v)
        with ((a ++ [NL]) ++ b ++ drop (S (start - 1)) v)
        by (rewrite <- app_assoc; reflexivity).
      rewrite drop_app_length.
      replace (start - length (a ++ [NL])) with (length b)
        by (rewrite length_app; cbn [length]; lia).
      rewrite take_app_length. exact Hb.
    + intros Hs _. rewrite Hs in Hlen. cbn [Nat.sub] in Hlen.
      destruct a as [|d a]; [reflexivity|cbn [length] in Hlen; lia].
  - apply find_last_None in E. split; [left; reflexivity|split].
    + intros Hstart. split; [lia|]. rewrite Nat.sub_0_r. cbn [drop].
      destruct (Nat.eq_dec start 0) as [E0|Hne]; [rewrite E0; apply not_elem_of_nil|].
      replace (S (start - 1)) with start in E by lia. exact E.
    + intros Hs Hnl. exfalso. apply E. rewrite Hs. cbn [Nat.sub].
      destruct v as [|d v']; [discriminate|]. injection Hnl as ->. cbn [take]. left.
Qed.

Lemma line_prefix_at_line_start_witness :
  let t := Field (lit "one" ++ [NL] ++ lit "two") 6 6 in
  let start := selectionStart t in
  let lineStart := after_last NL (value t) start in
  let t' := insertLinePrefix (lit "## ") t in
  value t' = take lineStart (value t) ++ lit "## " ++ drop lineStart (value t)
  ∧ selectionStart t' = start + length (lit "## ")
  ∧ selectionEnd t' = start + length (lit "## ")
  ∧ (lineStart = 0 ∨ value t !! (lineStart - 1) = Some NL)
  ∧ ((0 < start ∨ value t !! 0 ≠ Some NL) →
       lineStart ≤ start ∧ NL ∉ take (start - lineStart) (drop lineStart (value t)))
  ∧ (start = 0 → value t !! 0 = Some NL → lineStart = 1).
Proof.
  apply (line_prefix_at_line_start (lit "## ") (Field (lit "one" ++ [NL] ++ lit "two") 6 6));
    cbn; lia.
Defined.

(** *** Numerals *)

Definition digit_step (a : nat) (d : N) : nat := 10 * a + N.to_nat (d - 48).

Lemma digit_step_digit (a d : nat) : d < 10 → digit_step a (digit_of d) = 10 * a + d.
Proof. intros H. unfold digit_step, digit_of. lia. Qed.

Lemma is_digit_digit (d : nat) : d < 10 → is_digit (digit_of d) = true.
Proof.
  intros H. unfold is_digit, between, digit_of.
  apply andb_true_iff. split; apply N.leb_le; lia.
Qed.

Lemma decimal_fuel_spec fuel : ∀ n acc,
  n < fuel →
  fold_left digit_step (decimal_fuel fuel n acc) 0 = fold_left digit_step acc n
  ∧ (Forall (fun c => is_digit c = true) acc →
     Forall (fun c => is_digit c = true) (decimal_fuel fuel n acc))
  ∧ decimal_fuel fuel n acc ≠ [].
Proof.
  induction fuel as [|fuel IH]; intros n acc Hn; [lia|].
  cbn [decimal_fuel]. pose proof (Nat.mod_upper_bound n 10 ltac:(lia)) as Hm.
  pose proof (Nat.div_mod n 10 ltac:(lia)) as Hd.
  destruct (Nat.div n 10) as [|q] eqn:Eq.
  - split; [|split; [|discriminate]].
    + cbn [fold_left]. rewrite digit_step_digit by exact Hm. f_equal. lia.
    + intros Hacc. constructor; [apply is_digit_digit, Hm|exact Hacc].
  - assert (Hq : S q < fuel) by lia.
    destruct (IH (S q) (digit_of (n mod 10) :: acc) Hq) as (H1 & H2 & H3).
    split; [|split; [|exact H3]].
    + rewrite H1. cbn [fold_left]. rewrite digit_step_digit by exact Hm. f_equal. lia.
    + intros Hacc. apply H2. constructor; [apply is_digit_digit, Hm|exact Hacc].
Qed.

Lemma decimal_spec n :
  digits_value (decimal n) = n
  ∧ Forall (fun c => is_digit c = true) (decimal n)
  ∧ decimal n ≠ [].
Proof.
  unfold decimal, digits_value. destruct (decimal_fuel_spec (S n) n [] ltac:(lia)) as (H1 & H2 & H3).
  split; [exact H1|]. split; [apply H2; constructor|exact H3].
Qed.

(** *** The next number of an ordered list *)

(** The number that [insertOrderedList] gives a new item, from the line
    in front of it. *)
Definition next_number (prevLine : str) : Q :=
  match exec re_list_item prevLine with
  | Some (_, caps) => Double.fadd (parseInt (cap 1 caps)) 1
  | None => 1%Q
  end.

Lemma Qred_integer (z : Z) : Qred (inject_Z z) = inject_Z z.
Proof.
  unfold Qred, inject_Z. pose proof (Z.ggcd_gcd z 1) as Hg.
  pose proof (Z.ggcd_correct_divisors z 1) as Hd.
  destruct (Z.ggcd z 1) as [g [aa bb]]. cbn [fst snd] in *.
  rewrite Z.gcd_1_r in Hg. subst g. destruct Hd as [Ha Hb].
  assert (Haa : aa = z) by lia. assert (Hbb : bb = 1%Z) by lia.
  rewrite Haa, Hbb. reflexivity.
Qed.

(** Below 2^53 a number is a double: reading the digits and adding 1
    are exact as long as the sum stays below. *)
Lemma next_double (n : nat) :
  (Z.of_nat (S n) < 2 ^ 53)%Z →
  Double.fadd (Double.b64 (inject_Z (Z.of_nat n))) 1 = inject_Z (Z.of_nat (S n)).
Proof.
  intros Hn. unfold Double.fadd.
  assert (H1 : (Double.b64 (inject_Z (Z.of_nat n)) == inject_Z (Z.of_nat n))%Q).
  { apply (DoubleFacts.b64_exact _ (Z.of_nat n) 0); [|lia|lia].
    change (2 ^ 0)%Q with 1%Q. ring. }
  rewrite (DoubleFacts.b64_comp _ (inject_Z (Z.of_nat (S n)))).
  - rewrite (DoubleFacts.b64_exact_eq _ (Z.of_nat (S n)) 0); [apply Qred_integer| |lia|lia].
    change (2 ^ 0)%Q with 1%Q. ring.
  - rewrite H1. rewrite Nat2Z.inj_succ. unfold Z.succ. rewrite inject_Z_plus. reflexivity.
Qed.

Lemma next_number_follows (n : nat) (x : str) :
  (Z.of_nat (S n) < 2 ^ 53)%Z →
  next_number (decimal n ++ lit ". " ++ x) = inject_Z (Z.of_nat (S n)).
Proof.
  intros Hn. destruct (decimal_spec n) as (Hp & Hd & Hne). unfold next_number.
  assert (He : exec re_list_item (decimal n ++ lit ". " ++ x) = Some (x, [decimal n])).
  { unfold exec, re_list_item, Plus. cbn [run]. apply greedy_whole.
    - exact Hd.
    - reflexivity.
    - cbn [app]. rewrite (RestoreFacts.take_matched (decimal n) (lit ". " ++ x)).
      cbn [run]. rewrite starts_with_app, drop_app_length. reflexivity.
    - destruct (decimal n); [congruence|cbn [length]; lia]. }
  rewrite He. unfold cap. cbn [Nat.pred nth]. unfold parseInt. rewrite Hp.
  apply next_double, Hn.
Qed.

Lemma next_number_first (line : str) :
  match line with c :: _ => is_digit c = false | [] => True end → next_number line = 1%Q.
Proof.
  unfold next_number, exec, re_list_item, Plus. cbn [run].
  destruct line as [|c line]; [reflexivity|]. intros Hc. cbn [greedy]. rewrite Hc.
  reflexivity.
Qed.

Lemma split_app_nl (a t : str) : split NL (a ++ NL :: t) = split NL a ++ split NL t.
Proof.
  induction a as [|c a IH]; [reflexivity|].
  cbn [app]. rewrite !FormatterFacts.split_cons_inv, IH.
  destruct (N.eqb c NL); [reflexivity|].
  destruct (split NL a) as [|l ls] eqn:E; [|reflexivity].
  exfalso. exact (FormatterFacts.split_nonempty a E).
Qed.

(** X8.  With the cursor in a line that follows the line [prev], the
    prefix of a new ordered-list item goes to the start of the cursor's
    line and the rest of the text is as it was; the prefix is the text of
    a number, a full stop and a space.  When [prev] starts with the
    numeral of a number, a full stop and a space, and the next number is
    below 2^53, the number is that next one, written as its numeral
    (below 2^53 a number is a double as it stands and its text is its
    numeral; beyond, reading the digits and adding 1 round); when [prev]
    does not start with a digit the prefix is that of item 1. *)
Theorem ordered_list_continues (number_text : Q → str) (t : field)
    (before prev rest : str) (k : nat) :
  (∀ m : nat, (Z.of_nat m < 2 ^ 53)%Z → number_text (inject_Z (Z.of_nat m)) = decimal m) →
  value t = before ++ prev ++ NL :: rest →
  before = [] ∨ last before = Some NL →
  NL ∉ prev →
  selectionStart t = length before + length prev + 1 + k →
  NL ∉ take k rest →
  selectionStart t ≤ selectionEnd t → selectionEnd t ≤ length (value t) →
  value (insertOrderedList number_text t)
  = before ++ prev ++ NL :: number_text (next_number prev) ++ lit ". " ++ rest
  ∧ (∀ n x, prev = decimal n ++ lit ". " ++ x → (Z.of_nat (S n) < 2 ^ 53)%Z →
            number_text (next_number prev) = decimal (S n))
  ∧ (match prev with c :: _ => is_digit c = false | [] => True end →
     number_text (next_number prev) = lit "1").
Proof.
  intros Htext Hv Hb Hprev Hstart Hk H1 H2.
  split; [|split].
  2: { intros n x -> Hn. rewrite next_number_follows by exact Hn.
       apply Htext, Hn. }
  2: { intros Hc. rewrite (next_number_first prev Hc). apply (Htext 1%nat). lia. }
  assert (Hkl : k ≤ length rest).
  { rewrite Hv, !length_app in H2. cbn [length] in H2. lia. }
  unfold insertOrderedList. rewrite !substring_prefix.
  assert (Hls : after_last NL (value t) (selectionStart t) = length (before ++ prev ++ [NL])).
  { unfold after_last. rewrite Hstart.
    replace (S (length before + length prev + 1 + k - 1))
      with (length (before ++ prev ++ [NL]) + k)
      by (rewrite !length_app; cbn [length]; lia).
    rewrite Hv.
    replace (before ++ prev ++ NL :: rest) with ((before ++ prev ++ [NL]) ++ rest)
      by (rewrite <- !app_assoc; reflexivity).
    rewrite take_app_add'; [|reflexivity].
    replace ((before ++ prev ++ [NL]) ++ take k rest)
      with ((before ++ prev) ++ NL :: take k rest)
      by (rewrite <- !app_assoc; reflexivity).
    rewrite (find_last_app NL _ _ Hk). rewrite !length_app. cbn [length]. lia. }
  rewrite Hls.
  assert (Htake : take (length (before ++ prev ++ [NL])) (value t) = before ++ prev ++ [NL]).
  { rewrite Hv.
    replace (before ++ prev ++ NL :: rest) with ((before ++ prev ++ [NL]) ++ rest)
      by (rewrite <- !app_assoc; reflexivity).
    apply take_app_length. }
  assert (Hdrop : drop (length (before ++ prev ++ [NL])) (value t) = rest).
  { rewrite Hv.
    replace (before ++ prev ++ NL :: rest) with ((before ++ prev ++ [NL]) ++ rest)
      by (rewrite <- !app_assoc; reflexivity).
    apply drop_app_length. }
  rewrite Htake, Hdrop.
  assert (Hlines : ∃ front, split NL (before ++ prev ++ [NL]) = front ++ [prev; []]).
  { destruct Hb as [->|Hl].
    - exists []. cbn [app]. rewrite split_app_nl, (FormatterFacts.split_no_sep prev Hprev).
      reflexivity.
    - apply last_Some in Hl as [b' ->]. exists (split NL b').
      rewrite <- !app_assoc. cbn [app]. rewrite split_app_nl, split_app_nl.
      rewrite (FormatterFacts.split_no_sep prev Hprev). reflexivity. }
  destruct Hlines as [front Hlines]. rewrite Hlines.
  assert (Hl : (front ++ [prev; []]) !! (length (front ++ [prev; []]) - 2) = Some prev).
  { rewrite length_app. cbn [length].
    replace (length front + 2 - 2) with (length front) by lia.
    apply list_lookup_middle. reflexivity. }
  rewrite Hl.
  assert (Hlt : (1 <? length (front ++ [prev; []]))%nat = true).
  { apply Nat.ltb_lt. rewrite length_app. cbn [length]. lia. }
  rewrite Hlt.
  fold (next_number prev).
  rewrite select_cursor; rewrite value_set_value.
  - cbn [value]. rewrite <- !app_assoc. reflexivity.
  - rewrite !length_app. cbn [length]. rewrite ?length_app. lia.
Qed.

(** A text for the numbers that are integers: the numeral of the
    integer part. *)
Definition numeral_text (q : Q) : str := decimal (Z.to_nat (Qfloor q)).

Lemma ordered_list_continues_witness :
  let t := Field (lit "1. first" ++ [NL] ++ lit "second") 9 9 in
  value (insertOrderedList numeral_text t)
  = [] ++ lit "1. first" ++ NL :: numeral_text (next_number (lit "1. first")) ++ lit ". "
    ++ lit "second"
  ∧ (∀ n x, lit "1. first" = decimal n ++ lit ". " ++ x → (Z.of_nat (S n) < 2 ^ 53)%Z →
            numeral_text (next_number (lit "1. first")) = decimal (S n))
  ∧ (match lit "1. first" with c :: _ => is_digit c = false | [] => True end
     → numeral_text (next_number (lit "1. first")) = lit "1").
Proof.
  apply (ordered_list_continues numeral_text
           (Field (lit "1. first" ++ [NL] ++ lit "second") 9 9)
           [] (lit "1. first") (lit "second") 0).
  - intros m _. unfold numeral_text. rewrite Qfloor_Z, Nat2Z.id. reflexivity.
  - reflexivity.
  - left. reflexivity.
  - vm_compute. intros H. repeat (apply elem_of_cons in H as [H|H]; [discriminate|]).
    apply elem_of_nil in H. exact H.
  - reflexivity.
  - apply not_elem_of_nil.
  - cbn. lia.
  - cbn. lia.
Defined.

End ToolbarFacts.

(** ** Table of contents: which lines are headings *)

Module ContentsFacts.
Import Js Regex RegexFacts Anchored Naming Toolbar Contents.

Lemma greedy_whole_bounded p k m : ∀ rest lo hi res,
  Forall (fun c => p c = true) m →
  match rest with c :: _ => p c = false | [] => True end →
  k rest = Some res →
  lo ≤ length m → length m ≤ hi →
  greedy p lo (Some hi) k (m ++ rest) = Some res.
Proof.
  induction m as [|c m IH]; intros rest lo hi res Hall Hrest Hk Hlo Hhi.
  - cbn [length] in Hlo. assert (lo = 0) as -> by lia. cbn [app].
    destruct rest as [|c rest]; [exact Hk|]. cbn [greedy]. rewrite Hrest. exact Hk.
  - apply Forall_cons_1 in Hall as [Hc Hall]. cbn [app greedy]. rewrite Hc.
    cbn [length] in Hlo, Hhi. destruct hi as [|hi]; [lia|]. cbn [room andb dec Nat.pred].
    rewrite (IH rest (Nat.pred lo) hi res); auto; lia.
Qed.

(** The pattern of headings with its anchors resolved. *)
Definition heading_body : regex :=
  Cat (Grp (Rep is_hash 1 (Some 6))) (Cat (Plus is_space) (Grp (Plus is_dot))).

Definition at_end (s : str) (caps : list str) : option result :=
  match s with [] => Some (s, caps) | _ :: _ => None end.

Lemma amatch_heading line :
  amatch re_heading line
  = match run heading_body line [] at_end with
    | Some (_, caps) => Some caps
    | None => None
    end.
Proof. reflexivity. Qed.

Lemma heading_matches (k : nat) (title : str) :
  1 ≤ k ≤ 6 → title ≠ [] →
  Forall (fun c => is_dot c = true) title →
  match title with c :: _ => is_space c = false | [] => True end →
  run heading_body (replicate k HASH ++ [SP] ++ title) [] at_end
  = Some ([], [replicate k HASH; title]).
Proof.
  intros [Hk1 Hk6] Hne Hdot Hhead. unfold heading_body. cbn [run].
  apply greedy_whole_bounded.
  - apply Forall_replicate. reflexivity.
  - reflexivity.
  - rewrite (RestoreFacts.take_matched (replicate k HASH) ([SP] ++ title)).
    cbn [app run]. unfold Plus.
    apply (greedy_whole is_space _ [SP] title 1); [repeat constructor| | |cbn; lia].
    + destruct title; [exact I|exact Hhead].
    + pose proof (greedy_whole is_dot
                    (fun s1 => at_end s1 ([replicate k HASH]
                                          ++ [take (length title - length s1) title]))
                    title [] 1 ([], [replicate k HASH; title]) Hdot I) as H.
      rewrite app_nil_r in H. apply H.
      * cbn [at_end length]. rewrite Nat.sub_0_r, take_ge by lia. reflexivity.
      * destruct title; [congruence|cbn; lia].
  - rewrite length_replicate. exact Hk1.
  - rewrite length_replicate. exact Hk6.
Qed.

Lemma no_space_no_heading (s : str) (caps : list str) k :
  match s with c :: _ => is_space c = false | [] => True end →
  run (Cat (Plus is_space) (Grp (Plus is_dot))) s caps k = None.
Proof.
  intros Hs. unfold Plus. cbn [run]. destruct s as [|c s]; [reflexivity|].
  cbn [greedy]. rewrite Hs. reflexivity.
Qed.

(** The hashes that a heading can start with, tried from the longest:
    none works when none is followed by white space. *)
Lemma hashes_fail (line : str) : ∀ (whole : str) (lo hi : nat),
  (∀ j, j ≤ hi → match drop j line with c :: _ => is_space c = false | [] => True end) →
  greedy is_hash lo (Some hi)
    (fun s1 => run (Cat (Plus is_space) (Grp (Plus is_dot))) s1
                 ([] ++ [take (length whole - length s1) whole]) at_end) line
  = None.
Proof.
  induction line as [|c line IH]; intros whole lo hi Hall.
  - cbn [greedy]. destruct lo; [|reflexivity]. apply no_space_no_heading. exact I.
  - cbn [greedy dec].
    assert (Hstop : match lo with
                    | 0 => run (Cat (Plus is_space) (Grp (Plus is_dot))) (c :: line)
                             ([] ++ [take (length whole - length (c :: line)) whole]) at_end
                    | S _ => None
                    end = None).
    { destruct lo; [|reflexivity]. apply no_space_no_heading.
      apply (Hall 0). lia. }
    destruct hi as [|hi]; [rewrite andb_false_r; exact Hstop|].
    destruct (is_hash c && room (Some (S hi))); [|exact Hstop].
    cbn [Nat.pred]. rewrite IH; [exact Hstop|].
    intros j Hj. apply (Hall (S j)). lia.
Qed.

Lemma drop_replicate_hash (k j : nat) (rest : str) :
  j < k → ∃ s, drop j (replicate k HASH ++ rest) = HASH :: s.
Proof.
  revert j. induction k as [|k IH]; intros j Hj; [lia|].
  destruct j as [|j]; cbn [replicate app drop]; [eexists; reflexivity|].
  apply IH. lia.
Qed.

(** X25.  A line is taken for a heading of level k when it consists of k
    hashes, k from 1 to 6, a space, and a title that is not empty, does
    not start with white space and holds no line terminator; the entry
    carries the title and its anchor.  A line none of whose first seven
    units is white space is no heading, and so a line that starts with
    seven hashes or more is none.  Without a heading in the text the
    textarea is left as it is; otherwise the table of contents is put in
    at the cursor, between the text in front of it and the text behind
    it. *)
Theorem toc_recognises_headings (toLowerCase : str -> str) :
  (∀ (k : nat) (title : str),
     1 ≤ k ≤ 6 → title ≠ [] →
     Forall (fun c => is_dot c = true) title →
     match title with c :: _ => is_space c = false | [] => True end →
     heading_of toLowerCase (replicate k HASH ++ [SP] ++ title)
     = Some (Heading k title (heading_anchor toLowerCase title)))
  ∧ (∀ line : str,
       (∀ j, j ≤ 6 → match drop j line with c :: _ => is_space c = false | [] => True end) →
       heading_of toLowerCase line = None)
  ∧ (∀ (k : nat) (rest : str),
       7 ≤ k → heading_of toLowerCase (replicate k HASH ++ rest) = None)
  ∧ (∀ t : field,
       headings_of toLowerCase (split NL (value t)) = [] →
       generateTableOfContents toLowerCase t = t)
  ∧ (∀ (t : field) (h : heading) (hs : list heading),
       headings_of toLowerCase (split NL (value t)) = h :: hs →
       value (generateTableOfContents toLowerCase t)
       = take (selectionStart t) (value t) ++ toc_of (h :: hs)
         ++ drop (selectionStart t) (value t)).
Proof.
  assert (Hnone : ∀ line : str,
    (∀ j, j ≤ 6 → match drop j line with c :: _ => is_space c = false | [] => True end) →
    heading_of toLowerCase line = None).
  { intros line Hall. unfold heading_of. rewrite amatch_heading.
    change (run heading_body line [] at_end)
      with (greedy is_hash 1 (Some 6)
              (fun s1 => run (Cat (Plus is_space) (Grp (Plus is_dot))) s1
                           ([] ++ [take (length line - length s1) line]) at_end) line).
    rewrite (hashes_fail line line 1 6 Hall). reflexivity. }
  split; [|split; [exact Hnone|split; [|split]]].
  - intros k title Hk Hne Hdot Hhead. unfold heading_of.
    rewrite amatch_heading, (heading_matches k title Hk Hne Hdot Hhead).
    unfold cap. cbn [Nat.pred nth]. rewrite length_replicate. reflexivity.
  - intros k rest Hk. apply Hnone. intros j Hj.
    destruct (drop_replicate_hash k j rest ltac:(lia)) as [s ->]. reflexivity.
  - intros t Hh. unfold generateTableOfContents. rewrite Hh. reflexivity.
  - intros t h hs Hh. unfold generateTableOfContents. rewrite Hh.
    rewrite ToolbarFacts.value_set_value, ToolbarFacts.substring_prefix. reflexivity.
Qed.

End ContentsFacts.

(** ** DOCX normaliser: what follows a list *)

Module DocxFlowFacts.
Import Js Regex Docx.

(** A paragraph element, from its attributes and child nodes. *)
Definition paragraph (p : list (string * str) * list node) : node :=
  Element "p" (fst p) (snd p).

(** A paragraph rendered as the continuation of a list item. *)
Definition continuation (p : list (string * str) * list node) : str :=
  let content := trim (processNodes "p" (snd p)) in
  if truthy content then lit "    " ++ content ++ [NL; NL] else [].

Lemma heading_not_list tag :
  is_heading tag = true →
  (String.eqb tag "ol" || String.eqb tag "ul") = false ∧ String.eqb tag "p" = false.
Proof.
  unfold is_heading, heading_level.
  destruct (String.eqb_spec tag "ol") as [->|_]; [discriminate|].
  destruct (String.eqb_spec tag "ul") as [->|_]; [discriminate|].
  destruct (String.eqb_spec tag "p") as [->|_]; [discriminate|].
  intros _. split; reflexivity.
Qed.

(** X26.  Once the loop over the top-level nodes has met a list, every
    paragraph that follows, not only the first, is rendered as an
    indented continuation of the list, its own paragraph mapping
    aside.  A further list, a text node (indented as well) or any
    other element keeps this going; a heading is the only node that
    ends it. *)
Theorem paragraphs_after_a_list (ps : list (list (string * str) * list node))
    (rest : list node) :
  processNodesWithState true (map paragraph ps ++ rest)
  = concat (map continuation ps) ++ processNodesWithState true rest
  ∧ (∀ (b : bool) (tag : string) (a : list (string * str)) (kids : list node),
       String.eqb tag "ol" || String.eqb tag "ul" = true →
       processNodesWithState b (Element tag a kids :: rest)
       = processElement "div" (Element tag a kids) ++ processNodesWithState true rest)
  ∧ (∀ (b : bool) (tag : string) (a : list (string * str)) (kids : list node),
       is_heading tag = true →
       processNodesWithState b (Element tag a kids :: rest)
       = processElement "div" (Element tag a kids) ++ processNodesWithState false rest)
  ∧ (∀ (tag : string) (a : list (string * str)) (kids : list node),
       String.eqb tag "ol" || String.eqb tag "ul" = false →
       String.eqb tag "p" = false → is_heading tag = false →
       processNodesWithState true (Element tag a kids :: rest)
       = processElement "div" (Element tag a kids) ++ processNodesWithState true rest)
  ∧ (∀ t : str,
       processNodesWithState true (TextNode t :: rest)
       = (if truthy (trim t) then lit "    " ++ trim t ++ [NL; NL] else [])
         ++ processNodesWithState true rest).
Proof.
  split; [|split; [|split; [|split]]]; cycle 3.
  - intros tag a kids H1 H2 H3. cbn [processNodesWithState].
    rewrite H1, H2, H3. cbn [andb orb]. reflexivity.
  - intros t. reflexivity.
  - induction ps as [|[a k] ps IH]; [reflexivity|].
    cbn [map app paragraph fst snd processNodesWithState String.eqb Ascii.eqb Bool.eqb
         orb andb concat].
    rewrite IH. unfold continuation at 2. cbn [fst snd]. rewrite <- app_assoc. reflexivity.
  - intros b tag a kids Ht. cbn [processNodesWithState]. rewrite Ht. reflexivity.
  - intros b tag a kids Hh. destruct (heading_not_list tag Hh) as [H1 H2].
    cbn [processNodesWithState]. rewrite H1, H2, Hh. cbn [andb orb]. reflexivity.
Qed.

End DocxFlowFacts.

(** ** The title of an imported PDF *)

Module PdfTitleFacts.
Import Js Regex RegexFacts Anchored PdfTitle.

(** A hyphen or an underscore becomes a space. *)
Definition spaced (c : N) : N := if hyphen_or_underscore c then SP else c.

Lemma spaces_for_marks s :
  replace (Cls hyphen_or_underscore) (fun _ _ => [SP]) s = map spaced s.
Proof.
  induction s as [|c s IH].
  - apply replace_nil. reflexivity.
  - cbn [map]. unfold spaced at 1. destruct (hyphen_or_underscore c) eqn:E.
    + rewrite (replace_match (Cls hyphen_or_underscore) _ [c] s []); [|cbn [app]|discriminate].
      * cbn [app]. rewrite IH. reflexivity.
      * rewrite NamingFacts.exec_class, E. reflexivity.
    + rewrite replace_nomatch; [rewrite IH; reflexivity|].
      rewrite NamingFacts.exec_class, E. reflexivity.
Qed.

(** The extension pattern matches four units and only at the end. *)
Lemma extension_at_end bol s r :
  aexec re_pdf_extension bol s = Some r → length s = 4.
Proof.
  unfold aexec, re_pdf_extension, Chr. cbn [arun run].
  destruct s as [|a [|b [|c [|d [|e s]]]]]; cbn [length];
    repeat match goal with
           | |- context [if ?x then _ else _] => destruct x
           end;
    try discriminate; reflexivity.
Qed.

Lemma extension_matches bol e1 e2 e3 :
  either_case 112 e1 = true → either_case 100 e2 = true → either_case 102 e3 = true →
  aexec re_pdf_extension bol [46%N; e1; e2; e3] = Some ([], []).
Proof.
  intros H1 H2 H3. unfold aexec, re_pdf_extension, Chr. cbn [arun run].
  rewrite H1, H2, H3. reflexivity.
Qed.

Lemma strip_extension base : ∀ bol e1 e2 e3,
  either_case 112 e1 = true → either_case 100 e2 = true → either_case 102 e3 = true →
  areplace_first re_pdf_extension (fun _ _ => []) bol (base ++ [46%N; e1; e2; e3]) = base.
Proof.
  induction base as [|c base IH]; intros bol e1 e2 e3 H1 H2 H3.
  - cbn [app areplace_first]. rewrite (extension_matches bol e1 e2 e3 H1 H2 H3). reflexivity.
  - cbn [app areplace_first].
    destruct (aexec re_pdf_extension bol (c :: base ++ [46%N; e1; e2; e3])) as [r|] eqn:E.
    + apply extension_at_end in E. cbn [length] in E. rewrite length_app in E.
      cbn [length] in E. lia.
    + rewrite IH by assumption. reflexivity.
Qed.

(** X27.  The title proposed for an imported PDF is the file name without
    its extension, in whatever case the extension is written, with
    every hyphen and underscore turned into a space; it never holds a
    hyphen or an underscore, and a title that the form already holds is
    kept. *)
Theorem imported_title_from_file_name (base : str) (e1 e2 e3 : N) (current name : str) :
  either_case 112 e1 = true → either_case 100 e2 = true → either_case 102 e3 = true →
  title_of_file (base ++ [46%N; e1; e2; e3])
  = map (fun c => if hyphen_or_underscore c then SP else c) base
  ∧ Forall (fun c => hyphen_or_underscore c = false) (title_of_file name)
  ∧ (current ≠ [] → imported_title current name = current)
  ∧ imported_title [] name = title_of_file name.
Proof.
  intros H1 H2 H3. unfold title_of_file. rewrite !spaces_for_marks.
  split; [rewrite strip_extension by assumption; reflexivity|]. split; [|split].
  - apply Forall_forall. intros c Hc. apply list_elem_of_fmap in Hc as (d & -> & _).
    unfold spaced. destruct (hyphen_or_underscore d) eqn:E; [reflexivity|exact E].
  - intros Hne. unfold imported_title. destruct current; [congruence|reflexivity].
  - unfold imported_title, title_of_file. cbn [truthy]. rewrite spaces_for_marks.
    reflexivity.
Qed.

Lemma imported_title_from_file_name_witness :
  title_of_file (lit "annual_report-2024" ++ [46%N; 80%N; 68%N; 70%N])
  = map (fun c => if hyphen_or_underscore c then SP else c) (lit "annual_report-2024")
  ∧ Forall (fun c => hyphen_or_underscore c = false) (title_of_file (lit "notes.txt"))
  ∧ (lit "My title" ≠ [] → imported_title (lit "My title") (lit "notes.txt") = lit "My title")
  ∧ imported_title [] (lit "notes.txt") = title_of_file (lit "notes.txt").
Proof.
  apply (imported_title_from_file_name (lit "annual_report-2024") 80 68 70); reflexivity.
Defined.

End PdfTitleFacts.

(** ** The lines of a block *)

Module PdfLinesFacts.
Import Js Double PdfText PdfTextFacts.

Local Open Scope Q_scope.

(** Each item lies within 3 units, vertically, of the one before it,
    the distance being the one that the code measures: the difference
    of the two positions as the subtraction of doubles gives it.  [prev]
    is the position of the item in front. *)
Fixpoint near (prev : Q) (l : list textItem) : Prop :=
  match l with
  | [] => True
  | it :: l' => Qabs (fsub (y it) prev) <= 3 ∧ near (y it) l'
  end.

(** A line: not empty, each item near the one before it. *)
Definition line_like (line : list textItem) : Prop :=
  match line with
  | [] => False
  | it :: l' => near (y it) l'
  end.

(** The position of the last item, [prev] when there is none. *)
Definition last_y (prev : Q) (l : list textItem) : Q :=
  match last l with Some it => y it | None => prev end.

Lemma near_snoc l : ∀ prev it,
  near prev l → Qabs (fsub (y it) (last_y prev l)) <= 3 → near prev (l ++ [it]).
Proof.
  induction l as [|a l IH]; intros prev it Hl Hit.
  - cbn [app near]. split; [exact Hit|exact I].
  - destruct Hl as [Ha Hl]. cbn [app near]. split; [exact Ha|].
    apply IH; [exact Hl|]. unfold last_y in *. rewrite last_cons in Hit.
    destruct (last l); exact Hit.
Qed.

Lemma line_like_snoc line it :
  line_like line → Qabs (fsub (y it) (last_y 0 line)) <= 3 → line_like (line ++ [it]).
Proof.
  destruct line as [|a l]; [contradiction|]. cbn [line_like app]. intros Hl Hit.
  apply near_snoc; [exact Hl|]. unfold last_y in *. rewrite last_cons in Hit.
  destruct (last l); exact Hit.
Qed.

Lemma qgt_spec a b : qgt a b = false → a <= b.
Proof.
  unfold qgt. intros H. apply negb_false_iff in H. apply Qle_bool_iff in H. exact H.
Qed.

Lemma last_y_snoc prev l it : last_y prev (l ++ [it]) = y it.
Proof. unfold last_y. rewrite last_snoc. reflexivity. Qed.

Lemma group_lines_spec' l : ∀ lastY cur,
  (cur = [] ∨ (line_like cur ∧ last_y 0 cur = lastY)) →
  concat (group_lines lastY cur l) = cur ++ l
  ∧ Forall line_like (group_lines lastY cur l).
Proof.
  induction l as [|it l IH]; intros lastY cur Hcur; cbn [group_lines].
  - rewrite app_nil_r. destruct cur as [|c cur]; [split; [reflexivity|constructor]|].
    destruct Hcur as [Hc|[Hc _]]; [discriminate|].
    cbn [concat]. rewrite app_nil_r. split; [reflexivity|repeat constructor; exact Hc].
  - destruct (qgt (Qabs (fsub (y it) lastY)) 3) eqn:E.
    + destruct (IH (y it) [it]) as [H1 H2].
      { right. split; [exact I|reflexivity]. }
      destruct cur as [|c cur]; [split; assumption|].
      destruct Hcur as [Hc|[Hc _]]; [discriminate|].
      cbn [concat]. rewrite H1. split; [reflexivity|].
      constructor; assumption.
    + apply qgt_spec in E. destruct (IH (y it) (cur ++ [it])) as [H1 H2].
      { right. split; [|apply last_y_snoc].
        destruct Hcur as [->|[Hc Hl]]; [exact I|].
        apply line_like_snoc; [exact Hc|]. rewrite Hl. exact E. }
      rewrite H1, <- app_assoc. split; [reflexivity|exact H2].
Qed.

(** X28.  The lines into which a block's items are grouped, read one after
    the other, are the items of the block in their order: none is lost,
    repeated or moved to another place.  No line is empty, and within a
    line every item lies within 3 units, vertically, of the item before
    it, as the code measures the distance: the difference of the two
    positions rounded to a double (two items at 0.1 and 3.1 are 3 apart
    to the code).  The Markdown of the block is the Markdown of its
    lines, joined by line breaks. *)
Theorem lines_keep_items (first : textItem) (rest : list textItem) :
  let lines := group_lines (y first) [] (first :: rest) in
  concat lines = first :: rest
  ∧ Forall (fun line =>
              match line with
              | [] => False
              | it :: l' => near (y it) l'
              end) lines
  ∧ processTextBlock (first :: rest) = join [NL] (map process_line lines).
Proof.
  cbn zeta. destruct (group_lines_spec' (first :: rest) (y first) []) as [H1 H2];
    [left; reflexivity|].
  split; [exact H1|]. split; [exact H2|reflexivity].
Qed.

End PdfLinesFacts.
